(** * Retro Gaming Hub backend: the game library store and its IPC front end

    A shallow embedding of the Go packages [library] (the persistent game
    catalogue), [server] (the line-oriented IPC server) and of the request
    router of [backend/main.go], with the properties of the catalogue that the
    design document states.

    Conventions of the embedding:
    - a Go [string] is a sequence of bytes: Rocq's [string], one [ascii] per
      byte; [rune] values, [int] values and byte codes are in [Z];
    - [uint32] arithmetic is written with its wrap-around ([wrap32]);
    - the few pieces of Go's standard library that the packages call are
      modelled next to their callers, under the name [pkg_Func];
    - the file system, the clock and the Unicode case tables are an
      environment the functions receive. *)

From Stdlib Require Import ZArith String Ascii List Lia.
From stdpp Require Import gmap strings list fin_maps sorting pretty.

Set Warnings "-register-all".

Open Scope string_scope.
Open Scope list_scope.
Open Scope Z_scope.

(** ** Bytes *)

Definition code (c : ascii) : Z := Z.of_N (N_of_ascii c).
Definition byte (z : Z) : ascii := ascii_of_N (Z.to_N z).

Fixpoint mapBytes (f : Z -> Z) (s : string) : string :=
  match s with
  | EmptyString => EmptyString
  | String c s' => String (byte (f (code c))) (mapBytes f s')
  end.

Fixpoint allBytes (p : Z -> bool) (s : string) : bool :=
  match s with
  | EmptyString => true
  | String c s' => p (code c) && allBytes p s'
  end.

(** [s[:n]] for [n <= len(s)]. *)
Fixpoint sliceTo (n : nat) (s : string) : string :=
  match n, s with
  | S k, String c s' => String c (sliceTo k s')
  | _, _ => EmptyString
  end.

(** [s[n:]] for [n <= len(s)]. *)
Fixpoint sliceFrom (n : nat) (s : string) : string :=
  match n, s with
  | S k, String _ s' => sliceFrom k s'
  | _, _ => s
  end.

(** ** Package unicode/utf8 *)

Definition RuneError : Z := 65533.
Definition RuneSelf : Z := 128.
Definition MaxRune : Z := 1114111.

Definition between (lo hi x : Z) : bool := (lo <=? x) && (x <=? hi).

Definition contBits (c : ascii) : Z := Z.land (code c) 63.

(** [utf8.DecodeRuneInString]: the first rune of [s] and its width in bytes;
    [(RuneError, 1)] for a byte that starts no well-formed encoding (over-long
    forms, surrogates and values above [MaxRune] included), [(RuneError, 0)]
    for the empty string. *)
Definition utf8_DecodeRuneInString (s : string) : Z * nat :=
  match s with
  | EmptyString => (RuneError, 0%nat)
  | String c0 s1 =>
    let b0 := code c0 in
    if b0 <? RuneSelf then (b0, 1%nat)
    else if between 194 223 b0 then
      match s1 with
      | String c1 _ =>
        if between 128 191 (code c1)
        then (Z.lor (Z.shiftl (Z.land b0 31) 6) (contBits c1), 2%nat)
        else (RuneError, 1%nat)
      | _ => (RuneError, 1%nat)
      end
    else if between 224 239 b0 then
      let lo := if b0 =? 224 then 160 else 128 in
      let hi := if b0 =? 237 then 159 else 191 in
      match s1 with
      | String c1 (String c2 _) =>
        if between lo hi (code c1) && between 128 191 (code c2)
        then (Z.lor (Z.shiftl (Z.land b0 15) 12)
                (Z.lor (Z.shiftl (contBits c1) 6) (contBits c2)), 3%nat)
        else (RuneError, 1%nat)
      | _ => (RuneError, 1%nat)
      end
    else if between 240 244 b0 then
      let lo := if b0 =? 240 then 144 else 128 in
      let hi := if b0 =? 244 then 143 else 191 in
      match s1 with
      | String c1 (String c2 (String c3 _)) =>
        if between lo hi (code c1) && between 128 191 (code c2)
           && between 128 191 (code c3)
        then (Z.lor (Z.shiftl (Z.land b0 7) 18)
                (Z.lor (Z.shiftl (contBits c1) 12)
                   (Z.lor (Z.shiftl (contBits c2) 6) (contBits c3))), 4%nat)
        else (RuneError, 1%nat)
      | _ => (RuneError, 1%nat)
      end
    else (RuneError, 1%nat)
  end.

(** The runes that [for _, c := range s] yields: a rune is decoded at every
    position that is not inside the encoding of the previous one ([skip]
    counts the bytes of that encoding still to pass). *)
Fixpoint rangeFrom (skip : nat) (s : string) : list Z :=
  match s with
  | EmptyString => []
  | String _ s' =>
    match skip with
    | S k => rangeFrom k s'
    | O => let '(r, w) := utf8_DecodeRuneInString s in
           r :: rangeFrom (w - 1) s'
    end
  end.

Definition runes (s : string) : list Z := rangeFrom 0 s.

(** [utf8.ValidString]: every rune is decoded from a well-formed encoding. *)
Fixpoint validFrom (skip : nat) (s : string) : bool :=
  match s with
  | EmptyString => true
  | String _ s' =>
    match skip with
    | S k => validFrom k s'
    | O => let '(r, w) := utf8_DecodeRuneInString s in
           if (r =? RuneError) && Nat.eqb w 1 then false
           else validFrom (w - 1) s'
    end
  end.

Definition utf8_ValidString (s : string) : bool := validFrom 0 s.

Definition RuneStart (c : ascii) : bool := negb (Z.land (code c) 192 =? 128).

Definition string_of_bytes (l : list Z) : string :=
  string_of_list_ascii (map byte l).

(** [utf8.DecodeLastRuneInString], on the reversed string [r]: the last rune
    of the string and its width. The encoding is looked for at the nearest
    byte, among the three before the last, that can start a rune. *)
Definition decodeExactly (bytes : list ascii) : Z * nat :=
  let '(r, w) := utf8_DecodeRuneInString (string_of_list_ascii bytes) in
  if Nat.eqb w (length bytes) then (r, w) else (RuneError, 1%nat).

Definition utf8_DecodeLastRuneInString_rev (r : string) : Z * nat :=
  match r with
  | EmptyString => (RuneError, 0%nat)
  | String c0 r1 =>
    if code c0 <? RuneSelf then (code c0, 1%nat)
    else
      match r1 with
      | String c1 r2 =>
        if RuneStart c1 then decodeExactly [c1; c0]
        else
          match r2 with
          | String c2 r3 =>
            if RuneStart c2 then decodeExactly [c2; c1; c0]
            else
              match r3 with
              | String c3 _ =>
                if RuneStart c3 then decodeExactly [c3; c2; c1; c0]
                else (RuneError, 1%nat)
              | _ => (RuneError, 1%nat)
              end
          | _ => (RuneError, 1%nat)
          end
      | _ => (RuneError, 1%nat)
      end
  end.

(** [utf8.AppendRune]: negative values, surrogates and values above [MaxRune]
    are written as the encoding of [RuneError]. *)
Definition utf8_EncodeRune (r : Z) : string :=
  if between 0 127 r then string_of_bytes [r]
  else if between 128 2047 r then
    string_of_bytes [Z.lor 192 (Z.shiftr r 6); Z.lor 128 (Z.land r 63)]
  else if between 2048 65535 r && negb (between 55296 57343 r) then
    string_of_bytes [Z.lor 224 (Z.shiftr r 12);
                     Z.lor 128 (Z.land (Z.shiftr r 6) 63);
                     Z.lor 128 (Z.land r 63)]
  else if between 65536 MaxRune r then
    string_of_bytes [Z.lor 240 (Z.shiftr r 18);
                     Z.lor 128 (Z.land (Z.shiftr r 12) 63);
                     Z.lor 128 (Z.land (Z.shiftr r 6) 63);
                     Z.lor 128 (Z.land r 63)]
  else string_of_bytes [239; 191; 189].

(** ** Package unicode *)

Inductive Case := UpperCase | LowerCase.

(** The case tables of package [unicode]: [unicode_To c r] is
    [unicode.To(c, r)], which [ToUpper] and [ToLower] consult for runes above
    [MaxASCII] only. *)
Class CaseTables := { unicode_To : Case -> Z -> Z }.

Definition unicode_ToUpper `{CaseTables} (r : Z) : Z :=
  if r <=? 127 then (if between 97 122 r then r - 32 else r)
  else unicode_To UpperCase r.

Definition unicode_ToLower `{CaseTables} (r : Z) : Z :=
  if r <=? 127 then (if between 65 90 r then r + 32 else r)
  else unicode_To LowerCase r.

(** [unicode.IsSpace]: the Latin-1 spaces and the White_Space property. *)
Definition unicode_IsSpace (r : Z) : bool :=
  between 9 13 r || (r =? 32) || (r =? 133) || (r =? 160) || (r =? 5760)
  || between 8192 8202 r || (r =? 8232) || (r =? 8233) || (r =? 8239)
  || (r =? 8287) || (r =? 12288).

(** ** Package strings *)

Fixpoint strings_HasPrefix (s prefix : string) : bool :=
  match prefix, s with
  | EmptyString, _ => true
  | String p prefix', String c s' =>
    if Ascii.eqb c p then strings_HasPrefix s' prefix' else false
  | String _ _, EmptyString => false
  end.

Definition strings_HasSuffix (s suffix : string) : bool :=
  strings_HasPrefix (String.rev s) (String.rev suffix).

Definition strings_TrimSuffix (s suffix : string) : string :=
  if strings_HasSuffix s suffix
  then sliceTo (String.length s - String.length suffix) s
  else s.

Definition isASCII (s : string) : bool := allBytes (fun b => b <? RuneSelf) s.

(** [strings.Map]: every rune of [s] is replaced by its image, re-encoded;
    a negative image drops the rune, and a byte that is not part of a
    well-formed encoding is read as [RuneError]. *)
Definition strings_Map (mapping : Z -> Z) (s : string) : string :=
  foldr (fun r acc =>
           let r' := mapping r in
           if 0 <=? r' then utf8_EncodeRune r' +:+ acc else acc)
        EmptyString (runes s).

(** [strings.ToUpper] and [strings.ToLower]: byte-wise on an ASCII string,
    [Map] over the runes otherwise. *)
Definition strings_ToUpper `{CaseTables} (s : string) : string :=
  if isASCII s
  then mapBytes (fun b => if between 97 122 b then b - 32 else b) s
  else strings_Map unicode_ToUpper s.

Definition strings_ToLower `{CaseTables} (s : string) : string :=
  if isASCII s
  then mapBytes (fun b => if between 65 90 b then b + 32 else b) s
  else strings_Map unicode_ToLower s.

(** [strings.ReplaceAll] for a non-empty [old], the only use the library
    makes of it: left to right, non-overlapping. ([skip] counts the bytes of
    the occurrence just replaced that are still to pass.) *)
Fixpoint replaceFrom (skip : nat) (s old new : string) : string :=
  match s with
  | EmptyString => EmptyString
  | String c s' =>
    match skip with
    | S k => replaceFrom k s' old new
    | O => if strings_HasPrefix s old
           then new +:+ replaceFrom (String.length old - 1) s' old new
           else String c (replaceFrom 0 s' old new)
    end
  end.

Definition strings_ReplaceAll (s old new : string) : string :=
  match old with
  | EmptyString => s
  | _ => replaceFrom 0 s old new
  end.

(** [strings.TrimLeftFunc(s, unicode.IsSpace)]. *)
Fixpoint trimLeftFrom (skip : nat) (s : string) : string :=
  match s with
  | EmptyString => EmptyString
  | String _ s' =>
    match skip with
    | S k => trimLeftFrom k s'
    | O => let '(r, w) := utf8_DecodeRuneInString s in
           if unicode_IsSpace r then trimLeftFrom (w - 1) s' else s
    end
  end.

(** [strings.TrimRightFunc(s, unicode.IsSpace)], on the reversed string. *)
Fixpoint trimRightFrom (skip : nat) (r : string) : string :=
  match r with
  | EmptyString => EmptyString
  | String _ r' =>
    match skip with
    | S k => trimRightFrom k r'
    | O => let '(x, w) := utf8_DecodeLastRuneInString_rev r in
           if unicode_IsSpace x then trimRightFrom (w - 1) r' else r
    end
  end.

Definition strings_TrimSpace (s : string) : string :=
  String.rev (trimRightFrom 0 (String.rev (trimLeftFrom 0 s))).

(** ** Package path/filepath (Unix: the separator is the slash) *)

Definition IsPathSeparator (c : ascii) : bool := code c =? 47.

(** [filepath.Ext]: the loop runs from the last byte down and stops at a
    separator; [scanExt] walks the reversed path, [acc] is what lies after
    the byte at hand. *)
Fixpoint scanExt (r acc : string) : string :=
  match r with
  | EmptyString => EmptyString
  | String c r' =>
    if IsPathSeparator c then EmptyString
    else if code c =? 46 then String c acc
    else scanExt r' (String c acc)
  end.

Definition filepath_Ext (path : string) : string :=
  scanExt (String.rev path) EmptyString.

Fixpoint stripSeparators (r : string) : string :=
  match r with
  | String c r' => if IsPathSeparator c then stripSeparators r' else r
  | EmptyString => EmptyString
  end.

Fixpoint lastElement (r acc : string) : string :=
  match r with
  | EmptyString => acc
  | String c r' => if IsPathSeparator c then acc else lastElement r' (String c acc)
  end.

Definition filepath_Base (path : string) : string :=
  match path with
  | EmptyString => "."
  | _ =>
    match lastElement (stripSeparators (String.rev path)) EmptyString with
    | EmptyString => "/"
    | b => b
    end
  end.

(** ** Package time

    A [time.Time] is modelled by what the library observes of it: the instant
    ([sec] seconds since January 1 of year 1, UTC, and [nsec] nanoseconds) and
    the offset of its location east of UTC, in minutes ([zone]). The reading
    of the monotonic clock, which the library never compares and a snapshot
    does not carry, is left out. The zero [Time] is [time_zero]. *)

Record Time := { sec : Z; nsec : Z; zone : Z }.

Definition time_zero : Time := {| sec := 0; nsec := 0; zone := 0 |}.

Definition time_Before (t u : Time) : bool :=
  (sec t <? sec u) || ((sec t =? sec u) && (nsec t <? nsec u)).

(** ** Errors *)

Inductive Errno := ENOENT | EACCES | ENOTDIR | EISDIR | ENOSPC | EIO.

Inductive error :=
| PathError (op path : string) (errno : Errno)   (* *fs.PathError *)
| ErrNotExist                                    (* os.ErrNotExist *)
| MarshalerError (msg : string)                  (* *json.MarshalerError *)
| SyntaxError (msg : string)                     (* *json.SyntaxError *)
| UnmarshalTypeError (value type : string)       (* *json.UnmarshalTypeError *)
| TimeParseError (msg : string).                 (* Time.UnmarshalJSON *)

(** [os.IsNotExist]. *)
Definition os_IsNotExist (e : error) : bool :=
  match e with
  | PathError _ _ ENOENT => true
  | ErrNotExist => true
  | _ => false
  end.

(** ** Package library: the data *)

Record GameInfo := {
  ID : string;
  Title : string;
  Description : string;
  Platform : string;
  Path : string;
  CoverPath : string;
  LastPlayed : Time;
  PlayCount : Z;
  Favorite : bool;
  Category : string
}.

Definition GameInfo_zero : GameInfo :=
  {| ID := ""; Title := ""; Description := ""; Platform := ""; Path := "";
     CoverPath := ""; LastPlayed := time_zero; PlayCount := 0;
     Favorite := false; Category := "" |}.

(** [sync.RWMutex], as one goroutine sees it. *)
Record RWMutex := { writer : bool; readers : nat }.

Definition unlocked : RWMutex := {| writer := false; readers := 0 |}.

Record Library := {
  Games : list GameInfo;
  ScanPaths : list string;
  Categories : gmap string Z;
  Platforms : gmap string Z;
  LastScan : Time;
  mu : RWMutex;
  configPath : string
}.

(** Supported ROM extensions by platform. *)
Definition platformExtensions : list (string * list string) :=
  [ ("NES", [".nes"; ".unf"; ".unif"]);
    ("SNES", [".sfc"; ".smc"]);
    ("N64", [".n64"; ".z64"; ".v64"]);
    ("GBA", [".gba"]);
    ("GB", [".gb"; ".gbc"]);
    ("ATARI", [".a26"; ".bin"]) ].

(** ** Helper functions *)

Definition wrap32 (x : Z) : Z := x mod 2 ^ 32.

Definition generateID `{CaseTables} (path : string) : string :=
  let hash := foldl (fun hash c => wrap32 (hash * 31 + c)) 0 (runes path) in
  let base := strings_TrimSuffix (filepath_Base path) (filepath_Ext path) in
  let base := if (8 <? String.length base)%nat then sliceTo 8 base else base in
  strings_ToUpper base +:+ utf8_EncodeRune (65 + hash mod 26).

Definition cleanGameTitle (filename : string) : string :=
  let title := strings_TrimSuffix filename (filepath_Ext filename) in
  let title := strings_ReplaceAll title "_" " " in
  let title := strings_ReplaceAll title "-" " " in
  let title :=
    foldl (fun title pattern => strings_ReplaceAll title pattern "")
          title ["(USA)"; "(Europe)"; "(Japan)"] in
  strings_TrimSpace title.

(** [detectPlatform] ranges over the map [platformExtensions]; Go leaves the
    order of that iteration open, so the loop is written over an order
    [table] of the entries. *)
Fixpoint detectPlatformIn (table : list (string * list string)) (ext : string)
  : string :=
  match table with
  | [] => ""
  | (platform, extensions) :: table' =>
    if existsb (String.eqb ext) extensions then platform
    else detectPlatformIn table' ext
  end.

Definition detectPlatform (ext : string) : string :=
  detectPlatformIn platformExtensions ext.

(** ** Package encoding/json, at the level of documents

    A JSON text is modelled by the document it denotes. [JTime t] is the
    string that holds the RFC 3339 text of [t]; it stands where a [time.Time]
    is written or read. [JReal] is a number literal that is not an integer.
    A nil slice or map is not told apart from an empty one (Go writes [null]
    for it, and reads [null] back as nil). *)

Inductive JSON :=
| JNull
| JBool (b : bool)
| JNumber (n : Z)
| JReal (literal : string)
| JString (s : string)
| JTime (t : Time)
| JArray (elems : list JSON)
| JObject (fields : list (string * JSON)).

(** String values are written coerced to valid UTF-8: each byte that is not
    part of a well-formed encoding becomes U+FFFD. *)
Definition json_coerce (s : string) : string := strings_Map (fun r => r) s.

(** Map keys are written in increasing byte order. *)
Definition keyLe {A} (x y : string * A) : Prop := String.leb x.1 y.1 = true.

#[global] Instance keyLe_dec {A} (x y : string * A) : Decision (keyLe x y) :=
  decide (String.leb x.1 y.1 = true).

Definition sortedEntries {A} (m : gmap string A) : list (string * A) :=
  merge_sort keyLe (map_to_list m).

Definition marshalCounts (m : gmap string Z) : JSON :=
  JObject (map (fun kv => (json_coerce kv.1, JNumber kv.2)) (sortedEntries m)).

Definition marshalGameInfo (g : GameInfo) : JSON :=
  JObject
    [ ("id", JString (json_coerce (ID g)));
      ("title", JString (json_coerce (Title g)));
      ("description", JString (json_coerce (Description g)));
      ("platform", JString (json_coerce (Platform g)));
      ("path", JString (json_coerce (Path g)));
      ("cover_path", JString (json_coerce (CoverPath g)));
      ("last_played", JTime (LastPlayed g));
      ("play_count", JNumber (PlayCount g));
      ("favorite", JBool (Favorite g));
      ("category", JString (json_coerce (Category g))) ].

(** [json.MarshalIndent(lib, "", "  ")]: the exported fields, under their
    tags; [mu] and [configPath] are not written. The fields of a [Library]
    are strings, integers, booleans, times, slices and string-keyed maps, so
    the encoder reports no error for it (a [Time] of this model is one that
    RFC 3339 can print, as are the clock's readings, the zero time and every
    time read from a snapshot). *)
Definition marshalLibrary (l : Library) : error + JSON :=
  inr (JObject
    [ ("games", JArray (map marshalGameInfo (Games l)));
      ("scan_paths", JArray (map (fun p => JString (json_coerce p)) (ScanPaths l)));
      ("categories", marshalCounts (Categories l));
      ("platforms", marshalCounts (Platforms l));
      ("last_scan", JTime (LastScan l)) ]).

(** *** Decoding

    A type mismatch is recorded and decoding goes on ([Saved], the first one
    is reported); an error of a value's own [UnmarshalJSON] stops the
    decoding where it stands ([Aborted]). Either way the target keeps what
    was stored in it so far. *)

Inductive status := Ok | Saved (e : error) | Aborted (e : error).

Definition andThen (earlier later : status) : status :=
  match earlier, later with
  | Ok, _ => later
  | Saved e, Aborted e' => Aborted e'
  | Saved e, _ => Saved e
  | Aborted e, _ => Aborted e
  end.

Definition Decoder (A : Type) : Type := JSON -> A -> A * status.

Definition describe (j : JSON) : string :=
  match j with
  | JNull => "null"
  | JBool _ => "bool"
  | JNumber _ | JReal _ => "number"
  | JString _ | JTime _ => "string"
  | JArray _ => "array"
  | JObject _ => "object"
  end.

Definition mismatch {A} (j : JSON) (type : string) (old : A) : A * status :=
  (old, Saved (UnmarshalTypeError (describe j) type)).

Definition decodeString : Decoder string := fun j old =>
  match j with
  | JString s => (s, Ok)
  | JNull => (old, Ok)
  | _ => mismatch j "string" old
  end.

Definition decodeInt : Decoder Z := fun j old =>
  match j with
  | JNumber n => (n, Ok)
  | JNull => (old, Ok)
  | _ => mismatch j "int" old
  end.

Definition decodeBool : Decoder bool := fun j old =>
  match j with
  | JBool b => (b, Ok)
  | JNull => (old, Ok)
  | _ => mismatch j "bool" old
  end.

Definition decodeTime : Decoder Time := fun j old =>
  match j with
  | JTime t => (t, Ok)
  | JNull => (old, Ok)
  | JString _ => (old, Aborted (TimeParseError "cannot parse as RFC 3339"))
  | _ => (old, Aborted (TimeParseError "input is not a JSON string"))
  end.

(** Object keys match a field's tag exactly or under simple case folding;
    for the ASCII tags used here that is: letter for letter up to case, with
    U+017F for [s] and U+212A for [k]. *)
Definition foldRune (r : Z) : Z :=
  if between 65 90 r then r + 32
  else if r =? 383 then 115
  else if r =? 8490 then 107
  else r.

Definition equalFold (key tag : string) : bool :=
  bool_decide (map foldRune (runes key) = map foldRune (runes tag)).

Fixpoint findField {A} (fields : list (string * Decoder A)) (key : string)
  : option (Decoder A) :=
  match fields with
  | [] => None
  | (tag, d) :: fields' =>
    if equalFold key tag then Some d else findField fields' key
  end.

Fixpoint decodeMembers {A} (fields : list (string * Decoder A))
    (members : list (string * JSON)) (a : A) : A * status :=
  match members with
  | [] => (a, Ok)
  | (key, v) :: members' =>
    match findField fields key with
    | None => decodeMembers fields members' a
    | Some d =>
      let '(a', st) := d v a in
      match st with
      | Aborted e => (a', Aborted e)
      | _ => let '(a'', st') := decodeMembers fields members' a' in
             (a'', andThen st st')
      end
    end
  end.

Definition decodeStruct {A} (type : string) (fields : list (string * Decoder A))
  : Decoder A := fun j a =>
  match j with
  | JObject members => decodeMembers fields members a
  | JNull => (a, Ok)
  | _ => mismatch j type a
  end.

(** An array is decoded into a slice element by element, from length zero;
    the element at an index the slice already had is decoded over the value
    stored there. *)
Fixpoint decodeElems {A} (d : Decoder A) (zero : A) (elems : list JSON)
    (old : list A) : list A * status :=
  match elems with
  | [] => ([], Ok)
  | j :: elems' =>
    let '(x, st) := d j (hd zero old) in
    match st with
    | Aborted e => ([x], Aborted e)
    | _ => let '(xs, st') := decodeElems d zero elems' (tl old) in
           (x :: xs, andThen st st')
    end
  end.

Definition decodeSlice {A} (type : string) (d : Decoder A) (zero : A)
  : Decoder (list A) := fun j old =>
  match j with
  | JArray elems => decodeElems d zero elems old
  | JNull => ([], Ok)
  | _ => mismatch j type old
  end.

(** An object is decoded into a map entry by entry, over the entries the map
    already has; each value is decoded into a fresh zero. *)
Fixpoint decodeEntries (members : list (string * JSON)) (m : gmap string Z)
  : gmap string Z * status :=
  match members with
  | [] => (m, Ok)
  | (key, v) :: members' =>
    let '(n, st) := decodeInt v 0 in
    let '(m', st') := decodeEntries members' (<[key := n]> m) in
    (m', andThen st st')
  end.

Definition decodeCounts : Decoder (gmap string Z) := fun j old =>
  match j with
  | JObject members => decodeEntries members old
  | JNull => (∅, Ok)
  | _ => mismatch j "map[string]int" old
  end.

(** Field updates of the two records. *)

Definition setID (v : string) (g : GameInfo) : GameInfo :=
  {| ID := v; Title := Title g; Description := Description g;
     Platform := Platform g; Path := Path g; CoverPath := CoverPath g;
     LastPlayed := LastPlayed g; PlayCount := PlayCount g;
     Favorite := Favorite g; Category := Category g |}.
Definition setTitle (v : string) (g : GameInfo) : GameInfo :=
  {| ID := ID g; Title := v; Description := Description g;
     Platform := Platform g; Path := Path g; CoverPath := CoverPath g;
     LastPlayed := LastPlayed g; PlayCount := PlayCount g;
     Favorite := Favorite g; Category := Category g |}.
Definition setDescription (v : string) (g : GameInfo) : GameInfo :=
  {| ID := ID g; Title := Title g; Description := v;
     Platform := Platform g; Path := Path g; CoverPath := CoverPath g;
     LastPlayed := LastPlayed g; PlayCount := PlayCount g;
     Favorite := Favorite g; Category := Category g |}.
Definition setPlatform (v : string) (g : GameInfo) : GameInfo :=
  {| ID := ID g; Title := Title g; Description := Description g;
     Platform := v; Path := Path g; CoverPath := CoverPath g;
     LastPlayed := LastPlayed g; PlayCount := PlayCount g;
     Favorite := Favorite g; Category := Category g |}.
Definition setPath (v : string) (g : GameInfo) : GameInfo :=
  {| ID := ID g; Title := Title g; Description := Description g;
     Platform := Platform g; Path := v; CoverPath := CoverPath g;
     LastPlayed := LastPlayed g; PlayCount := PlayCount g;
     Favorite := Favorite g; Category := Category g |}.
Definition setCoverPath (v : string) (g : GameInfo) : GameInfo :=
  {| ID := ID g; Title := Title g; Description := Description g;
     Platform := Platform g; Path := Path g; CoverPath := v;
     LastPlayed := LastPlayed g; PlayCount := PlayCount g;
     Favorite := Favorite g; Category := Category g |}.
Definition setLastPlayed (v : Time) (g : GameInfo) : GameInfo :=
  {| ID := ID g; Title := Title g; Description := Description g;
     Platform := Platform g; Path := Path g; CoverPath := CoverPath g;
     LastPlayed := v; PlayCount := PlayCount g;
     Favorite := Favorite g; Category := Category g |}.
Definition setPlayCount (v : Z) (g : GameInfo) : GameInfo :=
  {| ID := ID g; Title := Title g; Description := Description g;
     Platform := Platform g; Path := Path g; CoverPath := CoverPath g;
     LastPlayed := LastPlayed g; PlayCount := v;
     Favorite := Favorite g; Category := Category g |}.
Definition setFavorite (v : bool) (g : GameInfo) : GameInfo :=
  {| ID := ID g; Title := Title g; Description := Description g;
     Platform := Platform g; Path := Path g; CoverPath := CoverPath g;
     LastPlayed := LastPlayed g; PlayCount := PlayCount g;
     Favorite := v; Category := Category g |}.
Definition setCategory (v : string) (g : GameInfo) : GameInfo :=
  {| ID := ID g; Title := Title g; Description := Description g;
     Platform := Platform g; Path := Path g; CoverPath := CoverPath g;
     LastPlayed := LastPlayed g; PlayCount := PlayCount g;
     Favorite := Favorite g; Category := v |}.

Definition setGames (v : list GameInfo) (l : Library) : Library :=
  {| Games := v; ScanPaths := ScanPaths l; Categories := Categories l;
     Platforms := Platforms l; LastScan := LastScan l; mu := mu l;
     configPath := configPath l |}.
Definition setScanPaths (v : list string) (l : Library) : Library :=
  {| Games := Games l; ScanPaths := v; Categories := Categories l;
     Platforms := Platforms l; LastScan := LastScan l; mu := mu l;
     configPath := configPath l |}.
Definition setCategories (v : gmap string Z) (l : Library) : Library :=
  {| Games := Games l; ScanPaths := ScanPaths l; Categories := v;
     Platforms := Platforms l; LastScan := LastScan l; mu := mu l;
     configPath := configPath l |}.
Definition setPlatforms (v : gmap string Z) (l : Library) : Library :=
  {| Games := Games l; ScanPaths := ScanPaths l; Categories := Categories l;
     Platforms := v; LastScan := LastScan l; mu := mu l;
     configPath := configPath l |}.
Definition setLastScan (v : Time) (l : Library) : Library :=
  {| Games := Games l; ScanPaths := ScanPaths l; Categories := Categories l;
     Platforms := Platforms l; LastScan := v; mu := mu l;
     configPath := configPath l |}.
Definition setMu (v : RWMutex) (l : Library) : Library :=
  {| Games := Games l; ScanPaths := ScanPaths l; Categories := Categories l;
     Platforms := Platforms l; LastScan := LastScan l; mu := v;
     configPath := configPath l |}.

(** A decoder for a field, from the decoder of its type. *)
Definition field {A B} (get : A -> B) (set : B -> A -> A) (d : Decoder B)
  : Decoder A := fun j a =>
  let '(b, st) := d j (get a) in (set b a, st).

Definition GameInfo_fields : list (string * Decoder GameInfo) :=
    [ ("id", field ID setID decodeString);
      ("title", field Title setTitle decodeString);
      ("description", field Description setDescription decodeString);
      ("platform", field Platform setPlatform decodeString);
      ("path", field Path setPath decodeString);
      ("cover_path", field CoverPath setCoverPath decodeString);
      ("last_played", field LastPlayed setLastPlayed decodeTime);
      ("play_count", field PlayCount setPlayCount decodeInt);
      ("favorite", field Favorite setFavorite decodeBool);
      ("category", field Category setCategory decodeString) ].

Definition decodeGameInfo : Decoder GameInfo :=
  decodeStruct "library.GameInfo" GameInfo_fields.

Definition Library_fields : list (string * Decoder Library) :=
    [ ("games", field Games setGames
                  (decodeSlice "[]library.GameInfo" decodeGameInfo GameInfo_zero));
      ("scan_paths", field ScanPaths setScanPaths
                  (decodeSlice "[]string" decodeString ""));
      ("categories", field Categories setCategories decodeCounts);
      ("platforms", field Platforms setPlatforms decodeCounts);
      ("last_scan", field LastScan setLastScan decodeTime) ].

(** [json.Unmarshal(data, lib)] for a [data] that is the text of [j]. *)
Definition unmarshalLibrary : Decoder Library :=
  decodeStruct "library.Library" Library_fields.
Arguments unmarshalLibrary : simpl never.

(** ** The environment: file system and state

    What the library asks of the operating system: [os_Stat], the calls that
    [filepath.Walk] makes to its function argument for a root (the function
    the library passes always returns nil, so the walk is never cut short),
    the content of the files, the faults of reading and writing, and the
    reading of the clock. A file holds a JSON document or something that is
    no JSON text. *)

Record FileInfo := { IsDir : bool }.

Inductive Visit :=
| Found (path : string) (info : FileInfo)
| Failed (path : string) (err : error).

Inductive FileData := Document (j : JSON) | NotJSON.

Record OS := {
  os_Stat : string -> Errno + FileInfo;
  filepath_Walk : string -> list Visit;
  files : gmap string FileData;
  readFault : string -> option Errno;
  writeFault : string -> option Errno;
  time_Now : Time
}.

Definition setFiles (v : gmap string FileData) (o : OS) : OS :=
  {| os_Stat := os_Stat o; filepath_Walk := filepath_Walk o; files := v;
     readFault := readFault o; writeFault := writeFault o;
     time_Now := time_Now o |}.

Record State := { lib : Library; os : OS }.

(** A call returns a value and leaves a state, or waits for ever on [mu]. *)
Inductive Outcome (A : Type) :=
| Returns (a : A) (s : State)
| Blocks (s : State).
Arguments Returns {A} a s.
Arguments Blocks {A} s.

Definition M (A : Type) : Type := State -> Outcome A.

Definition ret {A} (a : A) : M A := fun s => Returns a s.

Definition bind {A B} (m : M A) (k : A -> M B) : M B := fun s =>
  match m s with
  | Returns a s' => k a s'
  | Blocks s' => Blocks s'
  end.

#[global] Instance M_ret : MRet M := @ret.
#[global] Instance M_bind : MBind M := fun A B k m => bind m k.

Definition getLib : M Library := fun s => Returns (lib s) s.
Definition getOS : M OS := fun s => Returns (os s) s.
Definition modifyLib (f : Library -> Library) : M unit := fun s =>
  Returns tt {| lib := f (lib s); os := os s |}.
Definition modifyOS (f : OS -> OS) : M unit := fun s =>
  Returns tt {| lib := lib s; os := f (os s) |}.

Definition stateOf {A} (o : Outcome A) : State :=
  match o with Returns _ s => s | Blocks s => s end.

(** [lib.mu]: a writer waits while the lock is held in any mode, a reader
    while a writer holds it. The lock is not reentrant. *)
Definition Lock : M unit := fun s =>
  let m := mu (lib s) in
  if writer m || negb (Nat.eqb (readers m) 0) then Blocks s
  else modifyLib (setMu {| writer := true; readers := readers m |}) s.

Definition Unlock : M unit :=
  modifyLib (fun l => setMu {| writer := false; readers := readers (mu l) |} l).

Definition RLock : M unit := fun s =>
  let m := mu (lib s) in
  if writer m then Blocks s
  else modifyLib (setMu {| writer := false; readers := S (readers m) |}) s.

Definition RUnlock : M unit :=
  modifyLib (fun l => setMu {| writer := writer (mu l);
                               readers := Nat.pred (readers (mu l)) |} l).

(** [lib.mu.Lock(); defer lib.mu.Unlock()] around a body, and the same for
    readers. *)
Definition locked {A} (body : M A) : M A :=
  Lock ;; r ← body; Unlock ;; ret r.

Definition rlocked {A} (body : M A) : M A :=
  RLock ;; r ← body; RUnlock ;; ret r.

(** ** Package os *)

Definition os_ReadFile (path : string) : M (error + FileData) :=
  o ← getOS;
  match readFault o path with
  | Some errno => ret (inl (PathError "open" path errno))
  | None =>
    match files o !! path with
    | None => ret (inl (PathError "open" path ENOENT))
    | Some data => ret (inr data)
    end
  end.

(** A write that fails reports the fault (what it leaves in the file is not
    modelled); one that succeeds replaces the content of the file. *)
Definition os_WriteFile (path : string) (data : FileData) : M (option error) :=
  o ← getOS;
  match writeFault o path with
  | Some errno => ret (Some (PathError "open" path errno))
  | None => modifyOS (setFiles (<[path := data]> (files o))) ;; ret None
  end.

(** ** Package library: the operations *)

Definition emptyLibrary (configPath : string) : Library :=
  {| Games := []; ScanPaths := []; Categories := ∅; Platforms := ∅;
     LastScan := time_zero; mu := unlocked; configPath := configPath |}.

Definition errorOf (st : status) : option error :=
  match st with
  | Ok => None
  | Saved e | Aborted e => Some e
  end.

(** [saveUnlocked]: the directory that [os.MkdirAll] makes, and the error it
    may return and the code drops, have no part in the model of the disk. *)
Definition saveUnlocked : M (option error) :=
  l ← getLib;
  match marshalLibrary l with
  | inl err => ret (Some err)
  | inr data => os_WriteFile (configPath l) (Document data)
  end.

Definition Save : M (option error) := locked saveUnlocked.

Definition Load : M (option error) :=
  locked (
    l ← getLib;
    r ← os_ReadFile (configPath l);
    match r with
    | inl err => if os_IsNotExist err then ret None else ret (Some err)
    | inr NotJSON => ret (Some (SyntaxError "invalid character"))
    | inr (Document j) =>
      let '(l', st) := unmarshalLibrary j l in
      modifyLib (fun _ => l') ;; ret (errorOf st)
    end).

Definition NewLibrary (configPath : string) (o : OS) : Library :=
  lib (stateOf (Load {| lib := emptyLibrary configPath; os := o |})).

Fixpoint containsPath (paths : list string) (path : string) : bool :=
  match paths with
  | [] => false
  | p :: paths' => if String.eqb p path then true else containsPath paths' path
  end.

Definition AddScanPath (path : string) : M (option error) :=
  locked (
    o ← getOS;
    match os_Stat o path with
    | inl errno => ret (Some (PathError "stat" path errno))
    | inr info =>
      if negb (IsDir info) then ret (Some ErrNotExist)
      else
        l ← getLib;
        if containsPath (ScanPaths l) path then ret None
        else modifyLib (fun l => setScanPaths (ScanPaths l ++ [path]) l) ;;
             ret None
    end).

(** [m[key]++] on a [map[string]int]. *)
Definition wrapInt (x : Z) : Z := (x + 2 ^ 63) mod 2 ^ 64 - 2 ^ 63.

Definition increment (key : string) (m : gmap string Z) : gmap string Z :=
  <[key := wrapInt (default 0 (m !! key) + 1)]> m.

(** The function that [Scan] hands to [filepath.Walk]. *)
Definition scanVisit `{CaseTables} (l : Library) (v : Visit) : Library :=
  match v with
  | Failed _ _ => l
  | Found path info =>
    if IsDir info then l
    else
      let ext := strings_ToLower (filepath_Ext path) in
      let platform := detectPlatform ext in
      if negb (String.eqb platform "") then
        let game :=
          {| ID := generateID path;
             Title := cleanGameTitle (filepath_Base path);
             Description := "";
             Platform := platform;
             Path := path;
             CoverPath := "";
             LastPlayed := time_zero;
             PlayCount := 0;
             Favorite := false;
             Category := "Uncategorized" |} in
        let l := setGames (Games l ++ [game]) l in
        let l := setPlatforms (increment platform (Platforms l)) l in
        setCategories (increment (Category game) (Categories l)) l
      else l
  end.

Definition scanRoots `{CaseTables} (o : OS) (l : Library) : Library :=
  foldl (fun l scanPath => foldl scanVisit l (filepath_Walk o scanPath))
        l (ScanPaths l).

Definition Scan `{CaseTables} : M (option error) :=
  locked (
    modifyLib (fun l => setPlatforms ∅ (setCategories ∅ (setGames [] l))) ;;
    o ← getOS;
    modifyLib (scanRoots o) ;;
    modifyLib (setLastScan (time_Now o)) ;;
    Save).

Definition matches (platform category : string) (game : GameInfo) : bool :=
  if negb (String.eqb platform "") && negb (String.eqb (Platform game) platform)
  then false
  else if negb (String.eqb category "") && negb (String.eqb (Category game) category)
  then false
  else true.

Definition GetGames (platform category : string) : M (list GameInfo) :=
  rlocked (
    l ← getLib;
    if String.eqb platform "" && String.eqb category "" then ret (Games l)
    else ret (List.filter (matches platform category) (Games l))).

Fixpoint indexOfID (games : list GameInfo) (id : string) : option nat :=
  match games with
  | [] => None
  | g :: games' =>
    if String.eqb (ID g) id then Some 0%nat
    else option_map S (indexOfID games' id)
  end.

(** The result of [GetGameByID] is a pointer into [lib.Games]; it is
    modelled by the record it points to when the call returns. *)
Definition GetGameByID (id : string) : M (option GameInfo) :=
  rlocked (
    l ← getLib;
    match indexOfID (Games l) id with
    | Some i => ret (Games l !! i)
    | None => ret None
    end).

Definition ToggleFavorite (id : string) : M (option error) :=
  locked (
    l ← getLib;
    match indexOfID (Games l) id with
    | Some i =>
      modifyLib (fun l =>
        setGames (alter (fun g => setFavorite (negb (Favorite g)) g) i (Games l)) l) ;;
      saveUnlocked
    | None => ret None
    end).

Definition GetFavorites : M (list GameInfo) :=
  rlocked (l ← getLib; ret (List.filter Favorite (Games l))).

(** The two loops of [GetRecentlyPlayed], on the copy [games]. *)
Definition swapIfBefore (games : list GameInfo) (j : nat) : list GameInfo :=
  match games !! j, games !! S j with
  | Some a, Some b =>
    if time_Before (LastPlayed a) (LastPlayed b)
    then <[S j := a]> (<[j := b]> games)
    else games
  | _, _ => games
  end.

Definition bubblePass (games : list GameInfo) (i : nat) : list GameInfo :=
  foldl swapIfBefore games (seq 0 (length games - i - 1)).

Definition bubbleSort (games : list GameInfo) : list GameInfo :=
  foldl bubblePass games (seq 0 (length games - 1)).

Definition GetRecentlyPlayed (limit : Z) : M (list GameInfo) :=
  rlocked (
    l ← getLib;
    let games := bubbleSort (Games l) in
    if (0 <? limit) && (limit <? Z.of_nat (length games))
    then ret (take (Z.to_nat limit) games)
    else ret games).

(** ** Package server: messages *)

Definition MsgTypeListGames := "list_games".
Definition MsgTypeGetGame := "get_game".
Definition MsgTypeLaunchGame := "launch_game".
Definition MsgTypeGetCategories := "get_categories".
Definition MsgTypeGetPlatforms := "get_platforms".
Definition MsgTypeGetFavorites := "get_favorites".
Definition MsgTypeToggleFavorite := "toggle_favorite".
Definition MsgTypeGetRecent := "get_recent".
Definition MsgTypeScan := "scan".
Definition MsgTypeAddScanPath := "add_scan_path".
Definition MsgTypeStatus := "status".
Definition MsgTypeError := "error".
Definition MsgTypeSuccess := "success".

(** [Request_Payload] is a [json.RawMessage]: the document of the member
    [payload] as it was received, [None] (nil) when the member is absent. *)
Record Request := {
  Request_Type : string;
  Request_ID : string;
  Request_Payload : option JSON
}.

(** The values that the handlers of this program store in [Response.Data]. *)
Inductive ResponseData :=
| NoData
| GamesData (games : list GameInfo)
| GameData (game : GameInfo)
| TextData (text : string)
| MapData (entries : gmap string string).

Record Response := {
  Response_Type : string;
  Response_ID : string;
  Success : bool;
  Data : ResponseData;
  Error : string
}.

Record GameListPayload := {
  Payload_Platform : string;
  Payload_Category : string;
  Limit : Z
}.

Definition Request_zero : Request :=
  {| Request_Type := ""; Request_ID := ""; Request_Payload := None |}.

Definition decodeRequest : Decoder Request :=
  decodeStruct "server.Request"
    [ ("type", field Request_Type
         (fun v r => {| Request_Type := v; Request_ID := Request_ID r;
                        Request_Payload := Request_Payload r |}) decodeString);
      ("id", field Request_ID
         (fun v r => {| Request_Type := Request_Type r; Request_ID := v;
                        Request_Payload := Request_Payload r |}) decodeString);
      ("payload", fun j r =>
         ({| Request_Type := Request_Type r; Request_ID := Request_ID r;
             Request_Payload := Some j |}, Ok)) ].

Definition decodeGameListPayload : Decoder GameListPayload :=
  decodeStruct "server.GameListPayload"
    [ ("platform", field Payload_Platform
         (fun v p => {| Payload_Platform := v;
                        Payload_Category := Payload_Category p;
                        Limit := Limit p |}) decodeString);
      ("category", field Payload_Category
         (fun v p => {| Payload_Platform := Payload_Platform p;
                        Payload_Category := v; Limit := Limit p |}) decodeString);
      ("limit", field Limit
         (fun v p => {| Payload_Platform := Payload_Platform p;
                        Payload_Category := Payload_Category p;
                        Limit := v |}) decodeInt) ].

Definition marshalData (d : ResponseData) : list (string * JSON) :=
  match d with
  | NoData => []
  | GamesData games => [("data", JArray (map marshalGameInfo games))]
  | GameData game => [("data", marshalGameInfo game)]
  | TextData text => [("data", JString (json_coerce text))]
  | MapData entries =>
    [("data", JObject (map (fun kv => (json_coerce kv.1, JString (json_coerce kv.2)))
                           (sortedEntries entries)))]
  end.

(** [json.Marshal(resp)]: [id], [data] and [error] are left out when empty. *)
Definition marshalResponse (resp : Response) : JSON :=
  JObject
    ([("type", JString (json_coerce (Response_Type resp)))]
     ++ (if String.eqb (Response_ID resp) "" then []
         else [("id", JString (json_coerce (Response_ID resp)))])
     ++ [("success", JBool (Success resp))]
     ++ marshalData (Data resp)
     ++ (if String.eqb (Error resp) "" then []
         else [("error", JString (json_coerce (Error resp)))])).

(** The text of an error, [err.Error()]. *)
Definition errnoText (e : Errno) : string :=
  match e with
  | ENOENT => "no such file or directory"
  | EACCES => "permission denied"
  | ENOTDIR => "not a directory"
  | EISDIR => "is a directory"
  | ENOSPC => "no space left on device"
  | EIO => "input/output error"
  end.

Definition error_Error (e : error) : string :=
  match e with
  | PathError op path errno => op +:+ " " +:+ path +:+ ": " +:+ errnoText errno
  | ErrNotExist => "file does not exist"
  | MarshalerError msg => msg
  | SyntaxError msg => msg
  | UnmarshalTypeError value type =>
    "json: cannot unmarshal " +:+ value +:+ " into Go value of type " +:+ type
  | TimeParseError msg => msg
  end.

(** ** backend/main.go: the request handler *)

Definition handleRequest `{CaseTables} (req : Request) : M Response :=
  let type := Request_Type req in
  if String.eqb type MsgTypeListGames then
    let zero := {| Payload_Platform := ""; Payload_Category := ""; Limit := 0 |} in
    let payload :=
      match Request_Payload req with
      | Some j => fst (decodeGameListPayload j zero)
      | None => zero
      end in
    games ← GetGames (Payload_Platform payload) (Payload_Category payload);
    ret {| Response_Type := MsgTypeSuccess; Response_ID := Request_ID req;
           Success := true; Data := GamesData games; Error := "" |}
  else if String.eqb type MsgTypeGetGame then
    let id :=
      match Request_Payload req with
      | Some j => fst (decodeString j "")
      | None => ""
      end in
    game ← GetGameByID id;
    match game with
    | None =>
      ret {| Response_Type := MsgTypeError; Response_ID := Request_ID req;
             Success := false; Data := NoData; Error := "Game not found" |}
    | Some game =>
      ret {| Response_Type := MsgTypeSuccess; Response_ID := Request_ID req;
             Success := true; Data := GameData game; Error := "" |}
    end
  else if String.eqb type MsgTypeGetFavorites then
    games ← GetFavorites;
    ret {| Response_Type := MsgTypeSuccess; Response_ID := Request_ID req;
           Success := true; Data := GamesData games; Error := "" |}
  else if String.eqb type MsgTypeToggleFavorite then
    let id :=
      match Request_Payload req with
      | Some j => fst (decodeString j "")
      | None => ""
      end in
    err ← ToggleFavorite id;
    match err with
    | Some err =>
      ret {| Response_Type := MsgTypeError; Response_ID := Request_ID req;
             Success := false; Data := NoData; Error := error_Error err |}
    | None =>
      ret {| Response_Type := MsgTypeSuccess; Response_ID := Request_ID req;
             Success := true; Data := NoData; Error := "" |}
    end
  else if String.eqb type MsgTypeScan then
    err ← Scan;
    match err with
    | Some err =>
      ret {| Response_Type := MsgTypeError; Response_ID := Request_ID req;
             Success := false; Data := NoData; Error := error_Error err |}
    | None =>
      l ← getLib;
      ret {| Response_Type := MsgTypeSuccess; Response_ID := Request_ID req;
             Success := true;
             Data := TextData ("Found " +:+ pretty (Z.of_nat (length (Games l)))
                               +:+ " games");
             Error := "" |}
    end
  else if String.eqb type MsgTypeStatus then
    ret {| Response_Type := MsgTypeStatus; Response_ID := Request_ID req;
           Success := true;
           Data := MapData {[ "status" := "ready"; "version" := "1.0.0" ]};
           Error := "" |}
  else
    ret {| Response_Type := MsgTypeError; Response_ID := Request_ID req;
           Success := false; Data := NoData; Error := "Unknown message type" |}.

(** ** Package server: the worker of a connection

    [json_scan] is the scanner of encoding/json: the document a text denotes,
    or the syntax error. The registry of connections, its lock and the
    listener take no part in what a worker answers and are left out of
    [IPCServer]. *)

Class JSONText := { json_scan : string -> error + JSON }.

Record IPCServer := {
  port : Z;
  running : bool;
  handler : option (Request -> M Response)
}.

Definition NewIPCServer (port : Z) : IPCServer :=
  {| port := port; running := false; handler := None |}.

Definition SetHandler (h : Request -> M Response) (s : IPCServer) : IPCServer :=
  {| port := port s; running := running s; handler := Some h |}.

(** The server after a [Start] that could bind its port. *)
Definition started (s : IPCServer) : IPCServer :=
  {| port := port s; running := true; handler := handler s |}.

Definition defaultHandler (req : Request) : M Response :=
  ret {| Response_Type := MsgTypeStatus; Response_ID := Request_ID req;
         Success := true; Data := MapData {[ "status" := "ready" ]};
         Error := "" |}.

(** [json.Unmarshal([]byte(line), &req)] into a fresh [req]. *)
Definition unmarshalRequest `{JSONText} (line : string) : error + Request :=
  match json_scan line with
  | inl err => inl err
  | inr j =>
    let '(req, st) := decodeRequest j Request_zero in
    match errorOf st with
    | Some err => inl err
    | None => inr req
    end
  end.

(** What [sendResponse] and [sendError] write on the connection (a line
    each; the error of the write is dropped by the worker). *)
Definition sendResponse (resp : Response) : JSON := marshalResponse resp.

Definition sendError (reqID message : string) : JSON :=
  sendResponse {| Response_Type := MsgTypeError; Response_ID := reqID;
                  Success := false; Data := NoData; Error := message |}.

(** [handleClient], for the [lines] that [reader.ReadString] returns before
    its first error: the documents written on the connection, and how the
    worker ends (it returns, or waits for ever inside the handler). *)
Fixpoint handleClient `{JSONText} (s : IPCServer) (lines : list string)
    (st : State) : list JSON * Outcome unit :=
  match lines with
  | [] => ([], Returns tt st)
  | line :: lines' =>
    if negb (running s) then ([], Returns tt st)
    else
      let line := strings_TrimSpace line in
      if String.eqb line "" then handleClient s lines' st
      else
        match unmarshalRequest line with
        | inl err =>
          let '(out, r) := handleClient s lines' st in
          (sendError "" ("Invalid JSON: " +:+ error_Error err) :: out, r)
        | inr req =>
          let h := match handler s with
                   | Some h => h
                   | None => defaultHandler
                   end in
          match h req st with
          | Returns resp st' =>
            let '(out, r) := handleClient s lines' st' in
            (sendResponse resp :: out, r)
          | Blocks st' => ([], Blocks st')
          end
        end
  end.

(** ** A small installation, for examples

    Case tables without any case pair beyond ASCII (Go's tables agree with
    them on every rune that has no case, such as the CJK ideographs and
    U+FFFD), and a disk with one directory of ROMs. *)

Definition caseless : CaseTables := {| unicode_To := fun _ r => r |}.

Definition romsOS : OS :=
  {| os_Stat := fun p =>
       if String.eqb p "/roms" then inr {| IsDir := true |}
       else if String.eqb p "/roms/Pong.a26" then inr {| IsDir := false |}
       else inl ENOENT;
     filepath_Walk := fun p =>
       if String.eqb p "/roms"
       then [ Found "/roms" {| IsDir := true |};
              Found "/roms/Pong.a26" {| IsDir := false |};
              Found "/roms/Zelda (USA).SFC" {| IsDir := false |};
              Found "/roms/readme.txt" {| IsDir := false |};
              Failed "/roms/private" (PathError "open" "/roms/private" EACCES) ]
       else [ Failed p (PathError "lstat" p ENOENT) ];
     files := ∅;
     readFault := fun _ => None;
     writeFault := fun _ => None;
     time_Now := {| sec := 63900000000; nsec := 5; zone := 60 |} |}.

Definition romsState : State :=
  {| lib := setScanPaths ["/roms"] (emptyLibrary "/cfg/library.json");
     os := romsOS |}.

Definition pong : GameInfo :=
  {| ID := "PONGC"; Title := "Pong"; Description := ""; Platform := "ATARI";
     Path := "/roms/Pong.a26"; CoverPath := ""; LastPlayed := time_zero;
     PlayCount := 0; Favorite := false; Category := "Uncategorized" |}.

Definition pongState : State :=
  {| lib := setGames [pong] (lib romsState); os := romsOS |}.

(** [AddScanPath] called [n] times in a row with the same path. *)
Fixpoint addRepeatedly (n : nat) (path : string) : M (list (option error)) :=
  match n with
  | O => ret []
  | S n' =>
    err ← AddScanPath path;
    errs ← addRepeatedly n' path;
    ret (err :: errs)
  end.

(** The state after [path] was appended to the scan paths. *)
Definition withScanPath (path : string) (st : State) : State :=
  {| lib := setScanPaths (ScanPaths (lib st) ++ [path]) (lib st); os := os st |}.

(** [AddScanPath] tells a path that is not a directory from one that does
    not exist: the error for the former is not a not-found error. *)
Definition AddScanPath_distinguishes (st : State) (path : string) : Prop :=
  forall info, os_Stat (os st) path = inr info -> IsDir info = false ->
    exists e st', AddScanPath path st = Returns (Some e) st' /\
                  os_IsNotExist e = false.

(** ** A scanner for examples

    [scanText] reads the JSON texts that have no escape sequence in their
    strings and no fraction or exponent in their numbers, which is enough to
    run the scenarios of the design document on actual lines. *)

Definition quote : ascii := byte 34.
Definition newline : string := String (byte 10) EmptyString.
Definition quoted (s : string) : string :=
  String quote (s +:+ String quote EmptyString).

Fixpoint skipBlanks (s : string) : string :=
  match s with
  | String c s' =>
    if (code c =? 32) || (code c =? 9) || (code c =? 10) || (code c =? 13)
    then skipBlanks s' else s
  | EmptyString => EmptyString
  end.

(** The characters up to the closing quote, and what follows it. *)
Fixpoint scanString (s : string) : option (string * string) :=
  match s with
  | EmptyString => None
  | String c s' =>
    if code c =? 34 then Some (EmptyString, s')
    else if (code c =? 92) || (code c <? 32) then None
    else match scanString s' with
         | Some (str, rest) => Some (String c str, rest)
         | None => None
         end
  end.

Fixpoint scanDigits (acc : Z) (s : string) : Z * string :=
  match s with
  | String c s' =>
    if between 48 57 (code c) then scanDigits (10 * acc + (code c - 48)) s'
    else (acc, s)
  | EmptyString => (acc, s)
  end.

Definition startsWithDigit (s : string) : bool :=
  match s with
  | String c _ => between 48 57 (code c)
  | EmptyString => false
  end.

Fixpoint scanValue (fuel : nat) (s : string) : option (JSON * string) :=
  match fuel with
  | O => None
  | S fuel' =>
    match skipBlanks s with
    | EmptyString => None
    | String c s' =>
      if code c =? 34 then
        match scanString s' with
        | Some (str, rest) => Some (JString str, rest)
        | None => None
        end
      else if code c =? 123 then
        match skipBlanks s' with
        | String c' s'' =>
          if code c' =? 125 then Some (JObject [], s'')
          else scanMembers fuel' s' []
        | EmptyString => None
        end
      else if code c =? 91 then
        match skipBlanks s' with
        | String c' s'' =>
          if code c' =? 93 then Some (JArray [], s'')
          else scanElements fuel' s' []
        | EmptyString => None
        end
      else if strings_HasPrefix (String c s') "true"
      then Some (JBool true, sliceFrom 4 (String c s'))
      else if strings_HasPrefix (String c s') "false"
      then Some (JBool false, sliceFrom 5 (String c s'))
      else if strings_HasPrefix (String c s') "null"
      then Some (JNull, sliceFrom 4 (String c s'))
      else if (code c =? 45) && startsWithDigit s' then
        let '(n, rest) := scanDigits 0 s' in Some (JNumber (- n), rest)
      else if startsWithDigit (String c s') then
        let '(n, rest) := scanDigits 0 (String c s') in Some (JNumber n, rest)
      else None
    end
  end
with scanMembers (fuel : nat) (s : string) (acc : list (string * JSON))
  : option (JSON * string) :=
  match fuel with
  | O => None
  | S fuel' =>
    match skipBlanks s with
    | String c s' =>
      if code c =? 34 then
        match scanString s' with
        | Some (key, rest) =>
          match skipBlanks rest with
          | String c' rest' =>
            if code c' =? 58 then
              match scanValue fuel' rest' with
              | Some (v, rest'') =>
                match skipBlanks rest'' with
                | String c'' rest''' =>
                  if code c'' =? 44
                  then scanMembers fuel' rest''' (acc ++ [(key, v)])
                  else if code c'' =? 125
                  then Some (JObject (acc ++ [(key, v)]), rest''')
                  else None
                | EmptyString => None
                end
              | None => None
              end
            else None
          | EmptyString => None
          end
        | None => None
        end
      else None
    | EmptyString => None
    end
  end
with scanElements (fuel : nat) (s : string) (acc : list JSON)
  : option (JSON * string) :=
  match fuel with
  | O => None
  | S fuel' =>
    match scanValue fuel' s with
    | Some (v, rest) =>
      match skipBlanks rest with
      | String c rest' =>
        if code c =? 44 then scanElements fuel' rest' (acc ++ [v])
        else if code c =? 93 then Some (JArray (acc ++ [v]), rest')
        else None
      | EmptyString => None
      end
    | None => None
    end
  end.

Definition scanText (text : string) : error + JSON :=
  match scanValue (S (String.length text)) text with
  | Some (j, rest) =>
    match skipBlanks rest with
    | EmptyString => inr j
    | _ => inl (SyntaxError "invalid character after top-level value")
    end
  | None => inl (SyntaxError "invalid character looking for beginning of value")
  end.

Definition exampleScanner : JSONText := {| json_scan := scanText |}.

Definition statusLine : string :=
  "{" +:+ quoted "type" +:+ ":" +:+ quoted "status" +:+ "}" +:+ newline.

(** The server of [main]: made for the port, given the request handler, and
    started. *)
Definition IPC_PORT : Z := 9847.

Definition backend `{CaseTables} : IPCServer :=
  started (SetHandler handleRequest (NewIPCServer IPC_PORT)).

(** The handler that answers: the installed one, or the default. *)
Definition handlerOf (s : IPCServer) : Request -> M Response :=
  match handler s with
  | Some h => h
  | None => defaultHandler
  end.

Definition errorResponse (message : string) : Response :=
  {| Response_Type := MsgTypeError; Response_ID := ""; Success := false;
     Data := NoData; Error := message |}.

Definition blank (line : string) : bool :=
  String.eqb (strings_TrimSpace line) "".

(** ** Order of play

    [notBefore a b]: [a] was last played no earlier than [b], the order of
    a sequence sorted by [LastPlayed] descending. [sink k l] is one pass of
    the inner loop of [GetRecentlyPlayed], [k] comparisons from the front,
    written by recursion on the list. *)

Definition playedBefore (a b : GameInfo) : bool :=
  time_Before (LastPlayed a) (LastPlayed b).

Definition notBefore (a b : GameInfo) : Prop := playedBefore a b = false.

Fixpoint sink (k : nat) (l : list GameInfo) : list GameInfo :=
  match k, l with
  | S k', a :: b :: l' =>
    if playedBefore a b then b :: sink k' (a :: l') else a :: sink k' (b :: l')
  | _, _ => l
  end.

(** What [GetRecentlyPlayed] returns of the sorted copy. *)
Definition recent (limit : Z) (sorted : list GameInfo) : list GameInfo :=
  if 0 <? limit then take (Z.to_nat limit) sorted else sorted.

Definition played (s n : Z) (id : string) : GameInfo :=
  setID id (setLastPlayed {| sec := s; nsec := n; zone := 0 |} pong).

Definition playedState : State :=
  {| lib := setGames [played 10 0 "A"; played 30 5 "B"; played 30 9 "C";
                      played 20 0 "D"] (lib romsState);
     os := romsOS |}.

(** ** What a scan finds

    [gameFor path] is the record that [Scan] makes for a file, if its
    extension is mapped; [found o roots] are the records for the files that
    the walks of the roots visit, in the order of the visits. An extension is
    mapped when the table lists it for some platform. *)

Definition mapped (ext : string) : Prop :=
  exists platform extensions,
    In (platform, extensions) platformExtensions /\ In ext extensions.

Definition gameFor `{CaseTables} (path : string) : option GameInfo :=
  let platform := detectPlatform (strings_ToLower (filepath_Ext path)) in
  if String.eqb platform "" then None
  else Some {| ID := generateID path;
               Title := cleanGameTitle (filepath_Base path);
               Description := ""; Platform := platform; Path := path;
               CoverPath := ""; LastPlayed := time_zero; PlayCount := 0;
               Favorite := false; Category := "Uncategorized" |}.

Definition visitGame `{CaseTables} (v : Visit) : option GameInfo :=
  match v with
  | Found path info => if IsDir info then None else gameFor path
  | Failed _ _ => None
  end.

Definition found `{CaseTables} (o : OS) (roots : list string) : list GameInfo :=
  flat_map (fun root => omap visitGame (filepath_Walk o root)) roots.

Definition addGame (l : Library) (g : GameInfo) : Library :=
  let l := setGames (Games l ++ [g]) l in
  let l := setPlatforms (increment (Platform g) (Platforms l)) l in
  setCategories (increment (Category g) (Categories l)) l.

(** The store that [Scan] leaves in memory. *)
Definition scanned `{CaseTables} (st : State) : Library :=
  lib (stateOf (Scan st)).

(** ** Counts

    [tally n] is the entry of a count map for a name that [n] records have;
    [consistent l]: both count maps of [l] are the tallies of its records. *)

Definition occurrences (key : string) (names : list string) : nat :=
  count_occ string_dec names key.

Definition tally (n : nat) : option Z :=
  match n with
  | O => None
  | _ => Some (Z.of_nat n)
  end.

Definition consistent (l : Library) : Prop :=
  forall key,
    Platforms l !! key = tally (occurrences key (map Platform (Games l))) /\
    Categories l !! key = tally (occurrences key (map Category (Games l))).

(** The entry that [n] increments leave in a count map, and the two maps
    as the increments leave them. *)
Definition wrappedTally (n : nat) : option Z :=
  match n with
  | O => None
  | _ => Some (wrapInt (Z.of_nat n))
  end.

Definition incremented (l : Library) : Prop :=
  forall key,
    Platforms l !! key = wrappedTally (occurrences key (map Platform (Games l))) /\
    Categories l !! key = wrappedTally (occurrences key (map Category (Games l))).

(** Two stores with the same counts and the same names to count. *)
Definition sameCounts (l l' : Library) : Prop :=
  Platforms l' = Platforms l /\ Categories l' = Categories l /\
  map Platform (Games l') = map Platform (Games l) /\
  map Category (Games l') = map Category (Games l).

(** ** The identifier as the design document words it

    [polynomial cs] is the value of the polynomial with coefficients [cs] at
    31; [firstChars n s] are the first [n] characters (runes) of [s];
    [generateID_spec] upper-cases the file name without its extension, cuts
    it to eight characters and appends the letter of the hash. *)

Fixpoint polynomial (cs : list Z) : Z :=
  match cs with
  | [] => 0
  | c :: cs' => c * 31 ^ Z.of_nat (length cs') + polynomial cs'
  end.

Definition pathHash (path : string) : Z := polynomial (runes path) mod 2 ^ 32.

Definition hashLetter (path : string) : string :=
  String (byte (65 + pathHash path mod 26)) EmptyString.

Definition fileStem (path : string) : string :=
  strings_TrimSuffix (filepath_Base path) (filepath_Ext path).

Fixpoint widthsFrom (skip : nat) (s : string) : list nat :=
  match s with
  | EmptyString => []
  | String _ s' =>
    match skip with
    | S k => widthsFrom k s'
    | O => let '(_, w) := utf8_DecodeRuneInString s in
           w :: widthsFrom (w - 1) s'
    end
  end.

Definition firstChars (n : nat) (s : string) : string :=
  sliceTo (sum_list (take n (widthsFrom 0 s))) s.

Definition generateID_spec `{CaseTables} (path : string) : string :=
  firstChars 8 (strings_ToUpper (fileStem path)) +:+ hashLetter path.

(** The other reading of "eight characters": eight bytes. *)
Definition generateID_spec_bytes `{CaseTables} (path : string) : string :=
  sliceTo 8 (strings_ToUpper (fileStem path)) +:+ hashLetter path.

(** ** Snapshots

    A string is clean when it is valid UTF-8, and a store when its strings
    are. Two stores are the same when their exported fields are equal. *)

Definition clean (s : string) : Prop := utf8_ValidString s = true.

Definition cleanGame (g : GameInfo) : Prop :=
  clean (ID g) /\ clean (Title g) /\ clean (Description g) /\
  clean (Platform g) /\ clean (Path g) /\ clean (CoverPath g) /\
  clean (Category g).

Definition cleanKeys (m : gmap string Z) : Prop :=
  forall key, is_Some (m !! key) -> clean key.

Definition cleanLibrary (l : Library) : Prop :=
  Forall cleanGame (Games l) /\ Forall clean (ScanPaths l) /\
  cleanKeys (Categories l) /\ cleanKeys (Platforms l).

Definition sameStore (l l' : Library) : Prop :=
  Games l' = Games l /\ ScanPaths l' = ScanPaths l /\
  Categories l' = Categories l /\ Platforms l' = Platforms l /\
  LastScan l' = LastScan l.

(** A ROM whose name is the single byte 255, which is no UTF-8. *)
Definition rawName : string := String (byte 255) ".a26".

Definition rawState : State :=
  {| lib := setGames [setPath ("/roms/" +:+ rawName) pong] (lib romsState);
     os := romsOS |}.

(** A disk that is full: the snapshot cannot be written. *)
Definition fullOS : OS :=
  {| os_Stat := os_Stat romsOS; filepath_Walk := filepath_Walk romsOS;
     files := ∅; readFault := fun _ => None;
     writeFault := fun p =>
       if String.eqb p "/cfg/library.json" then Some ENOSPC else None;
     time_Now := time_Now romsOS |}.

Definition fullState : State := {| lib := lib romsState; os := fullOS |}.

(** ** Further notions

    The content of the snapshot file of a store, a record with its favourite
    flag flipped, the message types that reach the library and those that are
    declared and not routed, and the answer to an unknown type. *)

Definition snapshot (l : Library) : FileData :=
  match marshalLibrary l with
  | inr j => Document j
  | inl _ => NotJSON
  end.

Definition toggled (g : GameInfo) : GameInfo :=
  setFavorite (negb (Favorite g)) g.

Definition libraryMessages : list string :=
  [ MsgTypeListGames; MsgTypeGetGame; MsgTypeGetFavorites;
    MsgTypeToggleFavorite; MsgTypeScan ].

Definition unroutedMessages : list string :=
  [ MsgTypeLaunchGame; MsgTypeGetCategories; MsgTypeGetPlatforms;
    MsgTypeGetRecent; MsgTypeAddScanPath ].

Definition unknownResponse (req : Request) : Response :=
  {| Response_Type := MsgTypeError; Response_ID := Request_ID req;
     Success := false; Data := NoData; Error := "Unknown message type" |}.

Definition scanLine : string :=
  "{" +:+ quoted "type" +:+ ":" +:+ quoted "scan" +:+ "}" +:+ newline.

(** Two records last played at the same instant. *)
Definition playedAt (t : Time) (g : GameInfo) : bool :=
  (sec (LastPlayed g) =? sec t) && (nsec (LastPlayed g) =? nsec t).

Fixpoint hasByte (b : Z) (s : string) : bool :=
  match s with
  | EmptyString => false
  | String c s' => (code c =? b) || hasByte b s'
  end.

(** A store that holds a count and no record, over a disk whose snapshot
    file is that of [pongState]. *)
Definition staleState : State :=
  {| lib := setPlatforms {[ "NES" := 3 ]} (lib romsState);
     os := setFiles {[ "/cfg/library.json" := snapshot (lib pongState) ]}
             romsOS |}.

(** The store of [pongState] with the counts of its one record. *)
Definition countedState : State :=
  {| lib := setPlatforms {[ "ATARI" := 1 ]}
              (setCategories {[ "Uncategorized" := 1 ]} (lib pongState));
     os := romsOS |}.

(** What a filter of [GetGames] asks of a field: nothing when it is empty. *)
Definition accepts (filter value : string) : Prop :=
  filter = "" \/ value = filter.

(** Two ROMs that were never played, in the order a scan found them. *)
Definition unplayedState : State :=
  {| lib := setGames [setID "B" pong; setID "A" pong] (lib romsState);
     os := romsOS |}.

(** The visits of a file by the walks of the scan paths: [fileVisit path]
    tells the visits of [path] as a file, [visits] are the calls that the
    walks of the roots make, root after root. *)
Definition fileVisit (path : string) (v : Visit) : bool :=
  match v with
  | Found p info => negb (IsDir info) && String.eqb p path
  | Failed _ _ => false
  end.

Definition visits (o : OS) (roots : list string) : list Visit :=
  flat_map (filepath_Walk o) roots.

(** A disk with a directory of ROMs inside another, both of them scan
    paths. *)
Definition nestedOS : OS :=
  {| os_Stat := fun _ => inr {| IsDir := true |};
     filepath_Walk := fun p =>
       if String.eqb p "/roms"
       then [ Found "/roms" {| IsDir := true |};
              Found "/roms/Pong.bin" {| IsDir := false |};
              Found "/roms/usa" {| IsDir := true |};
              Found "/roms/usa/Pong.a26" {| IsDir := false |} ]
       else if String.eqb p "/roms/usa"
       then [ Found "/roms/usa" {| IsDir := true |};
              Found "/roms/usa/Pong.a26" {| IsDir := false |} ]
       else [ Failed p (PathError "lstat" p ENOENT) ];
     files := ∅;
     readFault := fun _ => None;
     writeFault := fun _ => None;
     time_Now := time_Now romsOS |}.

Definition nestedState : State :=
  {| lib := setScanPaths ["/roms"; "/roms/usa"] (emptyLibrary "/cfg/library.json");
     os := nestedOS |}.

(** The answers of the handler and of the default handler, and the payload
    of a [list_games] request with its three members. *)
Definition successResponse (req : Request) (data : ResponseData) : Response :=
  {| Response_Type := MsgTypeSuccess; Response_ID := Request_ID req;
     Success := true; Data := data; Error := "" |}.

Definition failureResponse (req : Request) (message : string) : Response :=
  {| Response_Type := MsgTypeError; Response_ID := Request_ID req;
     Success := false; Data := NoData; Error := message |}.


Definition listPayload (platform category : string) (limit : Z) : JSON :=
  JObject [ ("platform", JString platform); ("category", JString category);
            ("limit", JNumber limit) ].

(** The ID that a [get_game] or [toggle_favorite] request addresses. *)
Definition requestedID (req : Request) : string :=
  match Request_Payload req with
  | Some j => fst (decodeString j "")
  | None => ""
  end.


(** * Properties *)

(** ** Running the operations *)

Ltac run :=
  unfold locked, rlocked, Lock, Unlock, RLock, RUnlock, getLib, getOS,
    modifyLib, modifyOS, ret, mbind, M_bind, bind in *; cbn in *.

Lemma indexOfID_None games id :
  indexOfID games id = None <-> (forall g, In g games -> ID g <> id).
Proof.
  induction games as [|g games IH]; simpl.
  - split; [intros _ ? [] | reflexivity].
  - destruct (String.eqb_spec (ID g) id) as [E|E].
    + split; [discriminate | intros H; exfalso; apply (H g); auto].
    + destruct (indexOfID games id) eqn:I; simpl.
      * split; [discriminate|]. intros H.
        assert (Some n = None) as X; [|discriminate X].
        apply IH. intros g' Hg'. apply H. auto.
      * split; [|reflexivity]. intros _ g' [<-|Hg']; [exact E|].
        destruct IH as [IH _]. apply IH; auto.
Qed.

(** ** ToggleFavorite *)

(** C7. [ToggleFavorite] called with an id that no record has returns no
    error and leaves the whole state as it was: the records with all their
    fields, the scan paths, both count maps, the last-scan time, and the
    disk, which is not written. *)
Theorem ToggleFavorite_unknown_id (st : State) (id : string) :
  mu (lib st) = unlocked ->
  (forall g, In g (Games (lib st)) -> ID g <> id) ->
  ToggleFavorite id st = Returns None st.
Proof.
  intros Hmu Hid. apply indexOfID_None in Hid.
  destruct st as [l o]; destruct l; simpl in *; subst.
  unfold ToggleFavorite; run. rewrite Hid. reflexivity.
Qed.

Lemma ToggleFavorite_unknown_id_witness :
  ToggleFavorite "NOPE" pongState = Returns None pongState.
Proof.
  apply ToggleFavorite_unknown_id.
  - reflexivity.
  - simpl. intros g [<-|[]]. discriminate.
Defined.

(** ** AddScanPath *)

Lemma containsPath_In paths path :
  containsPath paths path = true <-> In path paths.
Proof.
  induction paths as [|p paths IH]; simpl.
  - split; [discriminate | intros []].
  - destruct (String.eqb_spec p path) as [E|E].
    + split; auto.
    + rewrite IH. split; auto. intros [H|H]; [contradiction|exact H].
Qed.

Lemma containsPath_false paths path :
  containsPath paths path = false <-> ~ In path paths.
Proof.
  rewrite <- containsPath_In. destruct (containsPath paths path); split;
    congruence.
Qed.

Lemma AddScanPath_stat_error st path errno :
  mu (lib st) = unlocked -> os_Stat (os st) path = inl errno ->
  AddScanPath path st = Returns (Some (PathError "stat" path errno)) st.
Proof.
  intros Hmu Hs. destruct st as [l o]; destruct l; simpl in *; subst.
  unfold AddScanPath; run. rewrite Hs. reflexivity.
Qed.

Lemma AddScanPath_not_dir st path info :
  mu (lib st) = unlocked -> os_Stat (os st) path = inr info ->
  IsDir info = false ->
  AddScanPath path st = Returns (Some ErrNotExist) st.
Proof.
  intros Hmu Hs Hd. destruct st as [l o]; destruct l; simpl in *; subst.
  unfold AddScanPath; run. rewrite Hs, Hd. reflexivity.
Qed.

Lemma AddScanPath_present st path info :
  mu (lib st) = unlocked -> os_Stat (os st) path = inr info ->
  IsDir info = true -> In path (ScanPaths (lib st)) ->
  AddScanPath path st = Returns None st.
Proof.
  intros Hmu Hs Hd Hin. apply containsPath_In in Hin.
  destruct st as [l o]; destruct l; simpl in *; subst.
  unfold AddScanPath; run. rewrite Hs, Hd; cbn. rewrite Hin. reflexivity.
Qed.

Lemma AddScanPath_absent st path info :
  mu (lib st) = unlocked -> os_Stat (os st) path = inr info ->
  IsDir info = true -> ~ In path (ScanPaths (lib st)) ->
  AddScanPath path st = Returns None (withScanPath path st).
Proof.
  intros Hmu Hs Hd Hin. apply containsPath_false in Hin.
  destruct st as [l o]; destruct l; simpl in *; subst.
  unfold AddScanPath; run. rewrite Hs, Hd; cbn. rewrite Hin. reflexivity.
Qed.

Lemma addRepeatedly_present st path info n :
  mu (lib st) = unlocked -> os_Stat (os st) path = inr info ->
  IsDir info = true -> In path (ScanPaths (lib st)) ->
  addRepeatedly n path st = Returns (repeat None n) st.
Proof.
  intros Hmu Hs Hd Hin. induction n as [|n IH]; simpl; [reflexivity|].
  unfold mbind, M_bind, bind.
  rewrite (AddScanPath_present st path info), IH by assumption. reflexivity.
Qed.

(** C5, as the code has it. [AddScanPath] fails with the error of [os.Stat]
    when the path cannot be examined, which is a not-found error exactly
    when the path does not exist; it fails with [os.ErrNotExist], the
    not-found error again, when the path is not a directory; otherwise it
    appends the path unless an equal entry is present. Adding a path that
    is absent [n + 1] times in a row succeeds every time and leaves exactly
    one entry for it, and every add of a path that is present leaves the
    state as it was. *)
Theorem AddScanPath_spec (st : State) (path : string) :
  mu (lib st) = unlocked ->
  (forall errno, os_Stat (os st) path = inl errno ->
     AddScanPath path st = Returns (Some (PathError "stat" path errno)) st /\
     (os_IsNotExist (PathError "stat" path errno) = true <-> errno = ENOENT)) /\
  (forall info, os_Stat (os st) path = inr info -> IsDir info = false ->
     AddScanPath path st = Returns (Some ErrNotExist) st /\
     os_IsNotExist ErrNotExist = true) /\
  (forall info, os_Stat (os st) path = inr info -> IsDir info = true ->
     (In path (ScanPaths (lib st)) ->
        forall n, addRepeatedly n path st = Returns (repeat None n) st) /\
     (~ In path (ScanPaths (lib st)) ->
        AddScanPath path st = Returns None (withScanPath path st) /\
        forall n, addRepeatedly (S n) path st
                  = Returns (repeat None (S n)) (withScanPath path st) /\
                  count_occ string_dec
                    (ScanPaths (lib (withScanPath path st))) path = 1%nat)).
Proof.
  intros Hmu. split; [|split].
  - intros errno Hs. split; [apply AddScanPath_stat_error; assumption|].
    destruct errno; simpl; split; congruence.
  - intros info Hs Hd. split; [|reflexivity].
    eapply AddScanPath_not_dir; eassumption.
  - intros info Hs Hd. split.
    + intros Hin n. eapply addRepeatedly_present; eassumption.
    + intros Hin.
      assert (AddScanPath path st = Returns None (withScanPath path st)) as H1
        by (eapply AddScanPath_absent; eassumption).
      split; [exact H1|]. intros n. split.
      * simpl. unfold mbind, M_bind, bind. rewrite H1.
        rewrite (addRepeatedly_present (withScanPath path st) path info n);
          try assumption; try reflexivity.
        simpl. apply in_or_app. right. left. reflexivity.
      * simpl. rewrite count_occ_app. simpl.
        destruct (string_dec path path) as [_|N]; [|contradiction].
        apply (count_occ_not_In string_dec) in Hin. rewrite Hin. reflexivity.
Qed.

Lemma AddScanPath_spec_witness :
  AddScanPath "/roms" romsState = Returns None romsState /\
  AddScanPath "/roms/Pong.a26" romsState = Returns (Some ErrNotExist) romsState.
Proof.
  destruct (AddScanPath_spec romsState "/roms" eq_refl) as (_ & _ & H).
  destruct (AddScanPath_spec romsState "/roms/Pong.a26" eq_refl) as (_ & F & _).
  split.
  - destruct (H {| IsDir := true |} eq_refl eq_refl) as [P _].
    specialize (P (or_introl eq_refl) 1%nat). simpl in P.
    unfold mbind, M_bind, bind in P.
    destruct (AddScanPath "/roms" romsState) as [a s|s]; [|discriminate P].
    injection P as -> ->. reflexivity.
  - apply (F {| IsDir := false |}); reflexivity.
Defined.

(** The error for a file that exists and is not a directory is the not-found
    error: here for the ROM [/roms/Pong.a26]. *)
Lemma AddScanPath_file_reported_missing :
  ~ AddScanPath_distinguishes romsState "/roms/Pong.a26".
Proof.
  intros H. destruct (H {| IsDir := false |} eq_refl eq_refl) as (e & st' & R & N).
  vm_compute in R. injection R as <- _. discriminate N.
Qed.

(** ** The request handler *)

Lemma indexOfID_first (before : list GameInfo) g after id :
  ID g = id -> (forall g', In g' before -> ID g' <> id) ->
  indexOfID (before ++ g :: after) id = Some (length before).
Proof.
  intros Eg. induction before as [|b before IH]; simpl; intros F.
  - destruct (String.eqb_spec (ID g) id); [reflexivity|contradiction].
  - destruct (String.eqb_spec (ID b) id) as [E|E].
    + exfalso. apply (F b); auto.
    + rewrite IH by auto. reflexivity.
Qed.

Lemma GetGameByID_unknown st id :
  mu (lib st) = unlocked -> (forall g, In g (Games (lib st)) -> ID g <> id) ->
  GetGameByID id st = Returns None st.
Proof.
  intros Hmu Hid. apply indexOfID_None in Hid.
  destruct st as [l o]; destruct l; simpl in *; subst.
  unfold GetGameByID; run. rewrite Hid. reflexivity.
Qed.

Lemma GetGameByID_first st id (before : list GameInfo) g after :
  mu (lib st) = unlocked -> Games (lib st) = (before ++ g :: after) ->
  ID g = id -> (forall g', In g' before -> ID g' <> id) ->
  GetGameByID id st = Returns (Some g) st.
Proof.
  intros Hmu HG Eg F.
  destruct st as [l o]; destruct l; simpl in *; subst.
  unfold GetGameByID; run. rewrite indexOfID_first by auto.
  rewrite lookup_app_r by lia. rewrite Nat.sub_diag. reflexivity.
Qed.

(** C8. A [get_game] request whose payload is the string [id]: when no
    record has that ID the response has type "error", the ID of the request,
    [Success = false] and the message "Game not found"; when a record has
    it, the response has type "success", [Success = true] and the (first)
    matching record as data. The state is left as it was. *)
Theorem handleRequest_get_game `{CaseTables} (st : State) (req : Request)
    (id : string) :
  mu (lib st) = unlocked ->
  Request_Type req = "get_game" ->
  Request_Payload req = Some (JString id) ->
  ((forall g, In g (Games (lib st)) -> ID g <> id) ->
   handleRequest req st
   = Returns {| Response_Type := "error"; Response_ID := Request_ID req;
                Success := false; Data := NoData;
                Error := "Game not found" |} st) /\
  (forall (before : list GameInfo) g after,
     Games (lib st) = (before ++ g :: after) -> ID g = id ->
     (forall g', In g' before -> ID g' <> id) ->
     handleRequest req st
     = Returns {| Response_Type := "success"; Response_ID := Request_ID req;
                  Success := true; Data := GameData g; Error := "" |} st).
Proof.
  intros Hmu Ht Hp. destruct req as [t i p]; simpl in *; subst.
  unfold handleRequest; simpl. unfold mbind, M_bind, bind. split.
  - intros Hid. rewrite GetGameByID_unknown by assumption. reflexivity.
  - intros before g after HG Eg F.
    rewrite (GetGameByID_first st _ before g after) by assumption.
    reflexivity.
Qed.

(** The scenario of the design document: with no game of ID "NOPE", the
    request [{type: get_game, payload: "NOPE", id: r1}] is answered by
    [{type: error, id: r1, success: false, error: Game not found}]. *)
Lemma handleRequest_get_game_witness :
  let '(req, _) :=
    decodeRequest (JObject [("type", JString "get_game");
                            ("payload", JString "NOPE");
                            ("id", JString "r1")]) Request_zero in
  match @handleRequest caseless req pongState with
  | Returns resp st =>
    marshalResponse resp
    = JObject [("type", JString "error"); ("id", JString "r1");
               ("success", JBool false);
               ("error", JString "Game not found")] /\ st = pongState
  | Blocks _ => False
  end.
Proof.
  cbv beta iota delta [decodeRequest]. vm_compute decodeStruct.
  destruct (@handleRequest_get_game caseless pongState
              {| Request_Type := "get_game"; Request_ID := "r1";
                 Request_Payload := Some (JString "NOPE") |} "NOPE"
              eq_refl eq_refl eq_refl) as [E _].
  rewrite E.
  - split; reflexivity.
  - simpl. intros g [<-|[]]. discriminate.
Defined.

(** ** The worker of a connection *)

Lemma handleRequest_status `{CaseTables} req st :
  Request_Type req = "status" ->
  handleRequest req st
  = Returns {| Response_Type := "status"; Response_ID := Request_ID req;
               Success := true;
               Data := MapData {[ "status" := "ready"; "version" := "1.0.0" ]};
               Error := "" |} st.
Proof.
  intros E. destruct req as [t i p]; simpl in *; subst. reflexivity.
Qed.

Section Worker.
Context `{JSONText} (s : IPCServer) (Hrun : running s = true).

Lemma handleClient_blank line rest st :
  blank line = true ->
  handleClient s (line :: rest) st = handleClient s rest st.
Proof.
  unfold blank. intros B. simpl. rewrite Hrun; simpl. rewrite B. reflexivity.
Qed.

Lemma handleClient_malformed line rest st err :
  blank line = false ->
  unmarshalRequest (strings_TrimSpace line) = inl err ->
  handleClient s (line :: rest) st
  = (sendResponse (errorResponse ("Invalid JSON: " +:+ error_Error err))
       :: (handleClient s rest st).1,
     (handleClient s rest st).2).
Proof.
  unfold blank. intros B U. simpl. rewrite Hrun; simpl. rewrite B, U.
  destruct (handleClient s rest st). reflexivity.
Qed.

Lemma handleClient_request line rest st req resp st' :
  blank line = false ->
  unmarshalRequest (strings_TrimSpace line) = inr req ->
  handlerOf s req st = Returns resp st' ->
  handleClient s (line :: rest) st
  = (sendResponse resp :: (handleClient s rest st').1,
     (handleClient s rest st').2).
Proof.
  unfold blank, handlerOf. intros B U R. simpl. rewrite Hrun; simpl.
  rewrite B, U, R. destruct (handleClient s rest st'). reflexivity.
Qed.

Lemma handleClient_count :
  (forall req st, exists resp st', handlerOf s req st = Returns resp st') ->
  forall lines st,
    length (handleClient s lines st).1
    = length (List.filter (fun l => negb (blank l)) lines) /\
    exists st', (handleClient s lines st).2 = Returns tt st'.
Proof.
  intros Hh lines. induction lines as [|line rest IH]; intros st.
  - simpl. eauto.
  - destruct (blank line) eqn:B.
    + rewrite handleClient_blank by assumption. simpl. rewrite B. apply IH.
    + simpl List.filter. rewrite B. simpl negb. cbv iota.
      destruct (unmarshalRequest (strings_TrimSpace line)) as [err|req] eqn:U.
      * rewrite (handleClient_malformed _ _ _ err) by assumption. simpl.
        destruct (IH st) as [L E]. rewrite L. auto.
      * destruct (Hh req st) as (resp & st' & R).
        rewrite (handleClient_request _ _ _ req resp st') by assumption.
        simpl. destruct (IH st') as [L E]. rewrite L. auto.
Qed.
End Worker.

(** C9. The worker of a running server, as a function from the lines it
    reads to the responses it writes: a blank line writes nothing; a line
    that is not blank and does not decode as a request writes one response,
    of type "error" and with an empty ID, and the next line is processed as
    before; a line that decodes writes the one response of the handler. With
    a handler that answers every request there are as many responses as
    lines that are not blank. A malformed line followed by a status line is
    answered by the error response and then by the status response of the
    request handler. *)
Theorem handleClient_lines `{CaseTables} `{JSONText} (s : IPCServer) :
  running s = true ->
  (forall line rest st, blank line = true ->
     handleClient s (line :: rest) st = handleClient s rest st) /\
  (forall line rest st err, blank line = false ->
     unmarshalRequest (strings_TrimSpace line) = inl err ->
     handleClient s (line :: rest) st
     = (sendResponse {| Response_Type := "error"; Response_ID := "";
                        Success := false; Data := NoData;
                        Error := "Invalid JSON: " +:+ error_Error err |}
          :: (handleClient s rest st).1,
        (handleClient s rest st).2)) /\
  (forall line rest st req resp st', blank line = false ->
     unmarshalRequest (strings_TrimSpace line) = inr req ->
     handlerOf s req st = Returns resp st' ->
     handleClient s (line :: rest) st
     = (sendResponse resp :: (handleClient s rest st').1,
        (handleClient s rest st').2)) /\
  ((forall req st, exists resp st', handlerOf s req st = Returns resp st') ->
   forall lines st,
     length (handleClient s lines st).1
     = length (List.filter (fun l => negb (blank l)) lines) /\
     exists st', (handleClient s lines st).2 = Returns tt st') /\
  (handler s = Some handleRequest ->
   forall bad good st err req, blank bad = false ->
     unmarshalRequest (strings_TrimSpace bad) = inl err ->
     blank good = false ->
     unmarshalRequest (strings_TrimSpace good) = inr req ->
     Request_Type req = "status" ->
     handleClient s [bad; good] st
     = ([ sendResponse (errorResponse ("Invalid JSON: " +:+ error_Error err));
          sendResponse
            {| Response_Type := "status"; Response_ID := Request_ID req;
               Success := true;
               Data := MapData {[ "status" := "ready"; "version" := "1.0.0" ]};
               Error := "" |} ],
        Returns tt st)).
Proof.
  intros Hrun. repeat split.
  - intros. apply handleClient_blank; assumption.
  - intros. apply handleClient_malformed; assumption.
  - intros. eapply handleClient_request; eassumption.
  - apply handleClient_count; assumption.
  - apply handleClient_count; assumption.
  - intros Hh bad good st err req Bb Ub Bg Ug Ht.
    rewrite (handleClient_malformed s Hrun _ _ _ err) by assumption.
    assert (handlerOf s req st = Returns _ st) as R
      by (unfold handlerOf; rewrite Hh; apply handleRequest_status, Ht).
    rewrite (handleClient_request s Hrun good [] st req _ st Bg Ug R).
    reflexivity.
Qed.

(** The scenario of the design document on actual lines: a line that is no
    JSON, then a status line. *)
Lemma handleClient_lines_witness :
  @handleClient exampleScanner (@backend caseless)
    ["this is not JSON" +:+ newline; statusLine] romsState
  = ([ JObject [("type", JString "error"); ("success", JBool false);
                ("error", JString
                   "Invalid JSON: invalid character looking for beginning of value")];
       JObject [("type", JString "status"); ("success", JBool true);
                ("data", JObject [("status", JString "ready");
                                  ("version", JString "1.0.0")])] ],
     Returns tt romsState).
Proof.
  destruct (@handleClient_lines caseless exampleScanner (@backend caseless)
              eq_refl) as (_ & _ & _ & _ & S).
  rewrite (S eq_refl _ _ romsState
             (SyntaxError "invalid character looking for beginning of value")
             {| Request_Type := "status"; Request_ID := "";
                Request_Payload := None |});
    vm_compute; reflexivity.
Defined.

(** ** GetRecentlyPlayed *)

Lemma playedBefore_spec a b :
  playedBefore a b = true <->
  (sec (LastPlayed a) < sec (LastPlayed b) \/
   (sec (LastPlayed a) = sec (LastPlayed b) /\
    nsec (LastPlayed a) < nsec (LastPlayed b))).
Proof.
  unfold playedBefore, time_Before.
  rewrite orb_true_iff, andb_true_iff, !Z.ltb_lt, Z.eqb_eq. reflexivity.
Qed.

Lemma notBefore_spec a b :
  notBefore a b <->
  (sec (LastPlayed b) < sec (LastPlayed a) \/
   (sec (LastPlayed a) = sec (LastPlayed b) /\
    nsec (LastPlayed b) <= nsec (LastPlayed a))).
Proof.
  unfold notBefore. rewrite <- not_true_iff_false, playedBefore_spec. lia.
Qed.

Lemma notBefore_refl a : notBefore a a.
Proof. apply notBefore_spec. lia. Qed.

Lemma notBefore_trans a b c : notBefore a b -> notBefore b c -> notBefore a c.
Proof. rewrite !notBefore_spec. lia. Qed.

Lemma playedBefore_notBefore a b : playedBefore a b = true -> notBefore b a.
Proof. rewrite playedBefore_spec, notBefore_spec. lia. Qed.

Lemma sink_nil k : sink k [] = [].
Proof. destruct k; reflexivity. Qed.

Lemma swapIfBefore_beyond (l : list GameInfo) j :
  (length l <= S j)%nat -> swapIfBefore l j = l.
Proof.
  intros Hj. unfold swapIfBefore.
  rewrite (lookup_ge_None_2 l (S j)) by lia. destruct (l !! j); reflexivity.
Qed.

Lemma foldl_swapIfBefore_beyond (l : list GameInfo) j k :
  (length l <= S j)%nat -> foldl swapIfBefore l (seq j k) = l.
Proof.
  revert j; induction k as [|k IH]; intros j Hj; simpl; [reflexivity|].
  rewrite swapIfBefore_beyond by assumption. apply IH. lia.
Qed.

(** The inner loop, started at index [length p], is a pass of [sink] behind
    the prefix [p]. *)
Lemma foldl_swapIfBefore (k : nat) (p l : list GameInfo) :
  foldl swapIfBefore (p ++ l) (seq (length p) k) = p ++ sink k l.
Proof.
  revert p l; induction k as [|k IH]; intros p l; [reflexivity|].
  destruct l as [|a [|b l]].
  - rewrite sink_nil. apply foldl_swapIfBefore_beyond.
    rewrite length_app. simpl. lia.
  - apply foldl_swapIfBefore_beyond. rewrite length_app. simpl. lia.
  - cbn [seq foldl sink]. unfold swapIfBefore at 2.
    rewrite (lookup_app_r p) by lia. rewrite Nat.sub_diag.
    rewrite (lookup_app_r p) by lia.
    replace (S (length p) - length p)%nat with 1%nat by lia.
    cbn [lookup list_lookup].
    fold (playedBefore a b). destruct (playedBefore a b).
    + replace (<[S (length p):=a]> (<[length p:=b]> (p ++ a :: b :: l)))
        with ((p ++ [b]) ++ a :: l).
      * replace (S (length p)) with (length (p ++ [b]))
          by (rewrite length_app; simpl; lia).
        rewrite IH, <- app_assoc. reflexivity.
      * rewrite (insert_app_r_alt p) by lia. rewrite Nat.sub_diag.
        rewrite (insert_app_r_alt p) by lia.
        replace (S (length p) - length p)%nat with 1%nat by lia.
        rewrite <- app_assoc. reflexivity.
    + replace (p ++ a :: b :: l) with ((p ++ [a]) ++ b :: l)
        by (rewrite <- app_assoc; reflexivity).
      replace (S (length p)) with (length (p ++ [a]))
        by (rewrite length_app; simpl; lia).
      rewrite IH, <- app_assoc. reflexivity.
Qed.

Lemma bubblePass_sink games i :
  bubblePass games i = sink (length games - i - 1) games.
Proof. unfold bubblePass. apply (foldl_swapIfBefore _ []). Qed.

Lemma sink_app k (u v : list GameInfo) :
  (k < length u)%nat -> sink k (u ++ v) = sink k u ++ v.
Proof.
  revert u; induction k as [|k IH]; intros u Hk.
  - destruct u; reflexivity.
  - destruct u as [|a [|b u]]; simpl in Hk; try lia.
    simpl. destruct (playedBefore a b).
    + change (a :: u ++ v) with ((a :: u) ++ v).
      rewrite (IH (a :: u)) by (simpl; lia). reflexivity.
    + change (b :: u ++ v) with ((b :: u) ++ v).
      rewrite (IH (b :: u)) by (simpl; lia). reflexivity.
Qed.

(** A pass over a whole segment leaves its earliest element last. *)
Lemma sink_last k (u : list GameInfo) :
  length u = S k ->
  exists u' x, sink k u = u' ++ [x] /\ u' ++ [x] ≡ₚ u /\
               Forall (fun y => notBefore y x) u.
Proof.
  revert u; induction k as [|k IH]; intros u Hu.
  - destruct u as [|a [|]]; try discriminate. exists [], a. simpl.
    repeat split; auto. constructor; [apply notBefore_refl|constructor].
  - destruct u as [|a [|b u]]; try discriminate. simpl.
    destruct (playedBefore a b) eqn:E.
    + destruct (IH (a :: u)) as (u' & x & S1 & P & F); [simpl in *; lia|].
      exists (b :: u'), x. rewrite S1. repeat split; auto.
      * simpl. rewrite P. apply perm_swap.
      * inversion F as [|? ? Fa Fu]; subst.
        constructor; [exact Fa|]. constructor; [|exact Fu].
        eapply notBefore_trans; [|exact Fa].
        apply playedBefore_notBefore, E.
    + destruct (IH (b :: u)) as (u' & x & S1 & P & F); [simpl in *; lia|].
      exists (a :: u'), x. rewrite S1. repeat split; auto.
      * simpl. rewrite P. reflexivity.
      * inversion F as [|? ? Fb Fu]; subst.
        constructor; [|exact F].
        eapply notBefore_trans; [exact E|exact Fb].
Qed.

(** After [m] passes the last [m] records are in order and no record before
    them was played earlier than any of them. *)
Lemma passes_invariant (games : list GameInfo) (m : nat) :
  (m <= length games)%nat ->
  exists u v, foldl bubblePass games (seq 0 m) = u ++ v /\
              u ++ v ≡ₚ games /\ length v = m /\
              StronglySorted notBefore v /\
              Forall (fun x => Forall (notBefore x) v) u.
Proof.
  induction m as [|m IH]; intros Hm.
  - exists games, []. simpl. rewrite app_nil_r. repeat split; auto.
    + constructor.
    + apply Forall_forall. intros; constructor.
  - destruct IH as (u & v & E & P & L & S & F); [lia|].
    rewrite seq_S, foldl_app. simpl. rewrite E, bubblePass_sink.
    assert (length (u ++ v) = length games) as Len by (rewrite P; reflexivity).
    rewrite length_app in Len.
    rewrite length_app.
    replace (length u + length v - m - 1)%nat with (length u - 1)%nat by lia.
    rewrite sink_app by lia.
    destruct (sink_last (length u - 1) u) as (u' & x & S1 & P1 & F1); [lia|].
    rewrite S1. exists u', (x :: v). rewrite <- app_assoc. simpl.
    assert (Forall (notBefore x) v) as Fx.
    { rewrite Forall_forall in F. apply F. rewrite <- P1.
      apply list_elem_of_In, in_or_app. right. left. reflexivity. }
    repeat split.
    + rewrite <- P, <- P1, <- app_assoc. reflexivity.
    + simpl. lia.
    + constructor; assumption.
    + apply Forall_forall. intros y Hy. constructor.
      * rewrite Forall_forall in F1. apply F1. rewrite <- P1.
        apply elem_of_app. left. exact Hy.
      * rewrite Forall_forall in F. apply F. rewrite <- P1.
        apply elem_of_app. left. exact Hy.
Qed.

Lemma bubbleSort_sorted games :
  bubbleSort games ≡ₚ games /\ StronglySorted notBefore (bubbleSort games).
Proof.
  unfold bubbleSort.
  destruct (passes_invariant games (length games - 1)) as (u & v & E & P & L & S & F);
    [lia|].
  rewrite E. split; [exact P|].
  assert (length (u ++ v) = length games) as Len by (rewrite P; reflexivity).
  rewrite length_app in Len.
  destruct u as [|a [|b u]]; simpl in *.
  - exact S.
  - inversion F; subst. constructor; assumption.
  - lia.
Qed.

Lemma GetRecentlyPlayed_returns st limit :
  mu (lib st) = unlocked ->
  GetRecentlyPlayed limit st
  = Returns (let games := bubbleSort (Games (lib st)) in
             if (0 <? limit) && (limit <? Z.of_nat (length games))
             then take (Z.to_nat limit) games else games) st.
Proof.
  intros Hmu. destruct st as [l o]; destruct l; simpl in *; subst.
  unfold GetRecentlyPlayed, rlocked, RLock, RUnlock, getLib, modifyLib, ret,
    mbind, M_bind, bind. simpl.
  destruct (_ && _); reflexivity.
Qed.

(** C6. [GetRecentlyPlayed limit] returns, of a copy of the records sorted
    by [LastPlayed] descending, the first [limit] when [0 < limit] is less
    than their number and all of them otherwise: [min limit total] records
    for a positive [limit], all of them for [limit <= 0]. The state, and with
    it the record sequence of the store, is left as it was. *)
Theorem GetRecentlyPlayed_spec (st : State) (limit : Z) :
  mu (lib st) = unlocked ->
  exists sorted,
    sorted ≡ₚ Games (lib st) /\
    StronglySorted notBefore sorted /\
    GetRecentlyPlayed limit st = Returns (recent limit sorted) st /\
    (0 < limit ->
     Z.of_nat (length (recent limit sorted))
     = Z.min limit (Z.of_nat (length (Games (lib st))))) /\
    (0 < limit < Z.of_nat (length (Games (lib st))) ->
     recent limit sorted = take (Z.to_nat limit) sorted) /\
    (Z.of_nat (length (Games (lib st))) <= limit -> recent limit sorted = sorted) /\
    (limit <= 0 -> recent limit sorted = sorted).
Proof.
  intros Hmu. exists (bubbleSort (Games (lib st))).
  destruct (bubbleSort_sorted (Games (lib st))) as [P S].
  assert (length (bubbleSort (Games (lib st))) = length (Games (lib st))) as Len
    by (rewrite P; reflexivity).
  split; [exact P|]. split; [exact S|]. split; [|repeat split].
  - rewrite GetRecentlyPlayed_returns by assumption. f_equal.
    unfold recent.
    destruct (0 <? limit) eqn:E0; simpl; [|reflexivity].
    destruct (limit <? _) eqn:E1; [reflexivity|].
    apply Z.ltb_ge in E1. apply Z.ltb_lt in E0.
    rewrite take_ge by lia. reflexivity.
  - intros Hl. unfold recent. apply Z.ltb_lt in Hl as Hl'. rewrite Hl'.
    rewrite length_take, Len. lia.
  - intros [Hl _]. unfold recent. apply Z.ltb_lt in Hl. rewrite Hl. reflexivity.
  - intros Hl. unfold recent. destruct (0 <? limit); [|reflexivity].
    apply take_ge. lia.
  - intros Hl. unfold recent. apply Z.ltb_ge in Hl. rewrite Hl. reflexivity.
Qed.

Lemma GetRecentlyPlayed_spec_witness :
  GetRecentlyPlayed 3 playedState
  = Returns [played 30 9 "C"; played 30 5 "B"; played 20 0 "D"] playedState.
Proof.
  destruct (GetRecentlyPlayed_spec playedState 3 eq_refl)
    as (sorted & _ & _ & E & _).
  rewrite E. f_equal.
  assert (Returns (recent 3 sorted) playedState
          = Returns [played 30 9 "C"; played 30 5 "B"; played 20 0 "D"]
                    playedState) as X
    by (rewrite <- E; vm_compute; reflexivity).
  injection X as ->. reflexivity.
Defined.

(** ** Scan *)

Lemma detectPlatformIn_found table ext :
  detectPlatformIn table ext <> "" ->
  exists extensions,
    In (detectPlatformIn table ext, extensions) table /\ In ext extensions.
Proof.
  induction table as [|[p exts] table IH]; simpl; [congruence|].
  destruct (existsb (String.eqb ext) exts) eqn:E.
  - intros _. exists exts. split; [auto|].
    apply existsb_exists in E as (e & He & Ee).
    apply String.eqb_eq in Ee. subst. exact He.
  - intros N. destruct (IH N) as (x & I1 & I2). exists x. auto.
Qed.

Lemma detectPlatformIn_unmapped table ext :
  (forall p exts, In (p, exts) table -> ~ In ext exts) ->
  detectPlatformIn table ext = "".
Proof.
  induction table as [|[p exts] table IH]; simpl; intros U; [reflexivity|].
  destruct (existsb (String.eqb ext) exts) eqn:E.
  - apply existsb_exists in E as (e & He & Ee).
    apply String.eqb_eq in Ee. subst. exfalso. apply (U p exts); auto.
  - apply IH. intros p' exts' I. apply (U p' exts'). auto.
Qed.

(** No platform of the table is named by the empty string, and no
    extension is listed twice. *)
Lemma platformExtensions_named p exts :
  In (p, exts) platformExtensions -> p <> "".
Proof.
  simpl. intros H.
  repeat (destruct H as [H|H]; [injection H as <- <-; discriminate|]).
  destruct H.
Qed.

Lemma platformExtensions_disjoint :
  NoDup (flat_map snd platformExtensions).
Proof.
  apply (bool_decide_unpack _). vm_compute. exact I.
Qed.

Lemma detectPlatformIn_mapped table ext p exts :
  NoDup (flat_map snd table) ->
  In (p, exts) table -> In ext exts -> detectPlatformIn table ext = p.
Proof.
  induction table as [|[q exts'] table IH]; simpl; intros ND I E; [destruct I|].
  apply NoDup_app in ND as (ND1 & ND2 & ND3).
  destruct I as [I|I].
  - injection I as -> ->.
    destruct (existsb (String.eqb ext) exts) eqn:X; [reflexivity|].
    exfalso. apply Bool.not_true_iff_false in X. apply X.
    apply existsb_exists. exists ext. split; [exact E|apply String.eqb_refl].
  - destruct (existsb (String.eqb ext) exts') eqn:X.
    + exfalso. apply existsb_exists in X as (e & He & Ee).
      apply String.eqb_eq in Ee. subst e.
      apply (ND2 ext); [apply list_elem_of_In, He|].
      apply list_elem_of_In, in_flat_map. exists (p, exts). auto.
    + apply IH; assumption.
Qed.

(** X22. The order in which the map of extensions is ranged over does not
    matter: every order of its entries detects the same platform. *)
Lemma detectPlatform_any_order table ext :
  table ≡ₚ platformExtensions ->
  detectPlatformIn table ext = detectPlatform ext.
Proof.
  intros P. unfold detectPlatform.
  assert (NoDup (flat_map snd table)) as ND.
  { assert (flat_map snd table ≡ₚ flat_map snd platformExtensions) as PF
      by (apply Permutation_flat_map; exact P).
    rewrite PF. apply platformExtensions_disjoint. }
  destruct (String.eqb_spec (detectPlatformIn platformExtensions ext) "") as [E|E].
  - rewrite E. apply detectPlatformIn_unmapped. intros p exts I X.
    assert (In (p, exts) platformExtensions) as I'
      by exact (Permutation_in _ P I).
    rewrite (detectPlatformIn_mapped _ ext p exts platformExtensions_disjoint I' X) in E.
    exact (platformExtensions_named _ _ I' E).
  - destruct (detectPlatformIn_found _ _ E) as (exts & I & X).
    apply (detectPlatformIn_mapped table ext _ exts ND); [|exact X].
    exact (Permutation_in _ (Permutation_sym P) I).
Qed.

Lemma detectPlatform_mapped ext :
  detectPlatform ext <> "" <-> mapped ext.
Proof.
  split.
  - intros N. destruct (detectPlatformIn_found _ _ N) as (exts & I & X).
    exists (detectPlatform ext), exts. auto.
  - intros (p & exts & I & X). unfold detectPlatform.
    rewrite (detectPlatformIn_mapped _ ext p exts platformExtensions_disjoint I X).
    exact (platformExtensions_named _ _ I).
Qed.

Section Scanning.
Context `{CaseTables}.

Lemma scanVisit_addGame l v :
  scanVisit l v = match visitGame v with
                  | Some g => addGame l g
                  | None => l
                  end.
Proof.
  destruct v as [path info|path err]; simpl; [|reflexivity].
  destruct (IsDir info); [reflexivity|]. unfold gameFor.
  destruct (String.eqb _ ""); reflexivity.
Qed.

Lemma foldl_scanVisit l vs :
  foldl scanVisit l vs = foldl addGame l (omap visitGame vs).
Proof.
  revert l; induction vs as [|v vs IH]; intros l; simpl; [reflexivity|].
  rewrite IH, scanVisit_addGame. destruct (visitGame v); reflexivity.
Qed.

Lemma addGame_mu l gs : mu (foldl addGame l gs) = mu l.
Proof. revert l; induction gs; intros l; simpl; [|rewrite IHgs]; reflexivity. Qed.

Lemma addGame_Games l gs : Games (foldl addGame l gs) = Games l ++ gs.
Proof.
  revert l; induction gs as [|g gs IH]; intros l; simpl.
  - rewrite app_nil_r. reflexivity.
  - rewrite IH. simpl. rewrite <- app_assoc. reflexivity.
Qed.

Lemma scanRoots_found o l :
  scanRoots o l = foldl addGame l (found o (ScanPaths l)).
Proof.
  unfold scanRoots, found.
  generalize (ScanPaths l) as roots. intros roots. revert l.
  induction roots as [|root roots IH]; intros l; simpl; [reflexivity|].
  rewrite IH, foldl_scanVisit, foldl_app. reflexivity.
Qed.

(** [Scan] replaces the records, the counts and the time in memory and then
    waits for ever: it holds [mu] and calls [Save], which locks [mu]. *)
Lemma Scan_blocks st :
  mu (lib st) = unlocked ->
  Scan st
  = Blocks {| lib := setLastScan (time_Now (os st))
                       (scanRoots (os st)
                          (setPlatforms ∅ (setCategories ∅ (setGames []
                             (setMu {| writer := true; readers := 0 |} (lib st))))));
              os := os st |}.
Proof.
  intros Hmu. destruct st as [l o]; destruct l; simpl in *; subst.
  unfold Scan, Save, locked, Lock, getOS, modifyLib, mbind, M_bind, bind.
  simpl. rewrite scanRoots_found, addGame_mu. reflexivity.
Qed.

Lemma scanned_Games st :
  mu (lib st) = unlocked ->
  Games (scanned st) = found (os st) (ScanPaths (lib st)).
Proof.
  intros Hmu. unfold scanned. rewrite Scan_blocks by assumption. simpl.
  rewrite scanRoots_found, addGame_Games. reflexivity.
Qed.

Lemma found_In o roots g :
  In g (found o roots) <->
  exists root path info,
    In root roots /\ In (Found path info) (filepath_Walk o root) /\
    IsDir info = false /\ gameFor path = Some g.
Proof.
  unfold found. rewrite in_flat_map. split.
  - intros (root & Hr & Hg). apply list_elem_of_In, list_elem_of_omap in Hg.
    destruct Hg as (v & Hv & E). apply list_elem_of_In in Hv.
    destruct v as [path info|]; simpl in E; [|discriminate].
    destruct (IsDir info) eqn:D; [discriminate|].
    exists root, path, info. auto.
  - intros (root & path & info & Hr & Hv & D & E). exists root.
    split; [exact Hr|]. apply list_elem_of_In, list_elem_of_omap.
    exists (Found path info). split; [apply list_elem_of_In, Hv|].
    simpl. rewrite D. exact E.
Qed.

Lemma gameFor_Some path g :
  gameFor path = Some g ->
  mapped (strings_ToLower (filepath_Ext path)) /\
  (exists extensions,
     In (Platform g, extensions) platformExtensions /\
     In (strings_ToLower (filepath_Ext path)) extensions) /\
  g = {| ID := generateID path;
         Title := cleanGameTitle (filepath_Base path);
         Description := ""; Platform := Platform g; Path := path;
         CoverPath := ""; LastPlayed := time_zero; PlayCount := 0;
         Favorite := false; Category := "Uncategorized" |}.
Proof.
  unfold gameFor.
  destruct (String.eqb_spec (detectPlatform (strings_ToLower (filepath_Ext path))) "")
    as [E|E]; [discriminate|].
  intros [= <-]. cbn [Platform]. split; [apply detectPlatform_mapped, E|].
  split; [|reflexivity]. exact (detectPlatformIn_found _ _ E).
Qed.

Lemma gameFor_None path :
  gameFor path = None <-> ~ mapped (strings_ToLower (filepath_Ext path)).
Proof.
  rewrite <- detectPlatform_mapped. unfold gameFor.
  destruct (String.eqb_spec (detectPlatform (strings_ToLower (filepath_Ext path))) "")
    as [E|E]; split; try congruence; try discriminate.
  intros N. exfalso. apply N. intros X. exact (E X).
Qed.
End Scanning.

(** C2. After [Scan], every record of the store was made for a file that a
    walk of a scan path visited without error and that is not a directory,
    whose lower-cased extension is listed for the platform of the record in
    [platformExtensions]; its ID is [generateID] of the path, its title
    [cleanGameTitle] of the base name, its platform the one detected, its
    category "Uncategorized", and its other fields are zero. A visited file
    has a record exactly when its extension is mapped. *)
Theorem Scan_records `{CaseTables} (st : State) :
  mu (lib st) = unlocked ->
  (forall g, In g (Games (scanned st)) ->
     exists root path info extensions,
       In root (ScanPaths (lib st)) /\
       In (Found path info) (filepath_Walk (os st) root) /\
       IsDir info = false /\
       In (Platform g, extensions) platformExtensions /\
       In (strings_ToLower (filepath_Ext path)) extensions /\
       Platform g = detectPlatform (strings_ToLower (filepath_Ext path)) /\
       g = {| ID := generateID path;
              Title := cleanGameTitle (filepath_Base path);
              Description := ""; Platform := Platform g; Path := path;
              CoverPath := ""; LastPlayed := time_zero; PlayCount := 0;
              Favorite := false; Category := "Uncategorized" |}) /\
  (forall root path info,
     In root (ScanPaths (lib st)) ->
     In (Found path info) (filepath_Walk (os st) root) ->
     IsDir info = false ->
     (mapped (strings_ToLower (filepath_Ext path)) ->
      exists g, In g (Games (scanned st)) /\ Path g = path) /\
     (~ mapped (strings_ToLower (filepath_Ext path)) ->
      forall g, In g (Games (scanned st)) -> Path g <> path)).
Proof.
  intros Hmu. rewrite scanned_Games by assumption.
  assert (forall g, In g (found (os st) (ScanPaths (lib st))) ->
     exists root path info extensions,
       In root (ScanPaths (lib st)) /\
       In (Found path info) (filepath_Walk (os st) root) /\
       IsDir info = false /\
       In (Platform g, extensions) platformExtensions /\
       In (strings_ToLower (filepath_Ext path)) extensions /\
       Platform g = detectPlatform (strings_ToLower (filepath_Ext path)) /\
       g = {| ID := generateID path;
              Title := cleanGameTitle (filepath_Base path);
              Description := ""; Platform := Platform g; Path := path;
              CoverPath := ""; LastPlayed := time_zero; PlayCount := 0;
              Favorite := false; Category := "Uncategorized" |}) as Each.
  { intros g Hg. apply found_In in Hg as (root & path & info & Hr & Hv & D & E).
    destruct (gameFor_Some _ _ E) as (_ & (exts & I & X) & Eg).
    exists root, path, info, exts. repeat split; try assumption.
    unfold gameFor in E.
    destruct (String.eqb _ ""); [discriminate|]. injection E as <-. reflexivity. }
  split; [exact Each|].
  intros root path info Hr Hv D. split.
  - intros Hm. destruct (gameFor path) as [g|] eqn:E.
    + exists g. split.
      * apply found_In. exists root, path, info. auto.
      * destruct (gameFor_Some _ _ E) as (_ & _ & ->). reflexivity.
    + apply gameFor_None in E. contradiction.
  - intros Hm g Hg Ep.
    destruct (Each g Hg) as (_ & path' & _ & exts & _ & _ & _ & I & X & _ & Eg).
    rewrite Eg in Ep. simpl in Ep. subst path'.
    apply Hm. exists (Platform g), exts. auto.
Qed.

Lemma Scan_records_witness :
  Games (@scanned caseless romsState)
  = [ pong;
      {| ID := "ZELDA (UJ"; Title := "Zelda"; Description := "";
         Platform := "SNES"; Path := "/roms/Zelda (USA).SFC"; CoverPath := "";
         LastPlayed := time_zero; PlayCount := 0; Favorite := false;
         Category := "Uncategorized" |} ] /\
  forall g, In g (Games (@scanned caseless romsState)) ->
            Path g <> "/roms/readme.txt".
Proof.
  split; [vm_compute; reflexivity|].
  destruct (@Scan_records caseless romsState eq_refl) as [_ H].
  apply (H "/roms" "/roms/readme.txt" {| IsDir := false |}).
  - left. reflexivity.
  - simpl. auto.
  - reflexivity.
  - intros (p & exts & I & X). vm_compute in X. simpl in I.
    repeat (destruct I as [I|I];
            [injection I as <- <-; simpl in X; intuition discriminate|]).
    destruct I.
Defined.

(** ** The count maps *)

Lemma wrapInt_small n : 0 <= n < 2 ^ 63 -> wrapInt n = n.
Proof. intros Hn. unfold wrapInt. rewrite Z.mod_small; lia. Qed.

Lemma wrapInt_succ n : wrapInt (wrapInt n + 1) = wrapInt (n + 1).
Proof.
  unfold wrapInt. f_equal.
  replace ((n + 2 ^ 63) mod 2 ^ 64 - 2 ^ 63 + 1 + 2 ^ 63)
    with ((n + 2 ^ 63) mod 2 ^ 64 + 1) by lia.
  rewrite Zplus_mod_idemp_l. f_equal. lia.
Qed.

Lemma increment_lookup key name (m : gmap string Z) n :
  m !! name = wrappedTally n ->
  increment name m !! key
  = if decide (name = key) then wrappedTally (S n) else m !! key.
Proof.
  intros Hm. unfold increment. rewrite lookup_insert.
  destruct (decide (name = key)); [|reflexivity].
  rewrite Hm. destruct n as [|n]; cbn [wrappedTally]; unfold from_option, id.
  - reflexivity.
  - rewrite wrapInt_succ. do 2 f_equal. lia.
Qed.

Lemma occurrences_snoc key names name :
  occurrences key (names ++ [name])
  = if decide (name = key) then S (occurrences key names)
    else occurrences key names.
Proof.
  unfold occurrences. rewrite count_occ_app. simpl.
  destruct (string_dec name key), (decide (name = key)); try contradiction; lia.
Qed.

Lemma addGame_incremented l g : incremented l -> incremented (addGame l g).
Proof.
  intros Hl key. destruct (Hl (Platform g)) as [HP _].
  destruct (Hl (Category g)) as [_ HC]. destruct (Hl key) as [KP KC].
  unfold addGame; simpl. rewrite !map_app; simpl.
  rewrite !occurrences_snoc.
  rewrite (increment_lookup _ _ _ _ HP), (increment_lookup _ _ _ _ HC).
  split; case_decide; subst; auto.
Qed.

Lemma foldl_addGame_incremented l gs :
  incremented l -> incremented (foldl addGame l gs).
Proof.
  revert l; induction gs as [|g gs IH]; intros l Hl; simpl; [exact Hl|].
  apply IH, addGame_incremented, Hl.
Qed.

Lemma occurrences_le key names : (occurrences key names <= length names)%nat.
Proof. apply count_occ_bound. Qed.

Lemma incremented_consistent l :
  Z.of_nat (length (Games l)) < 2 ^ 63 -> incremented l -> consistent l.
Proof.
  intros Hlen Hl key. destruct (Hl key) as [HP HC]. rewrite HP, HC.
  pose proof (occurrences_le key (map Platform (Games l))) as BP.
  pose proof (occurrences_le key (map Category (Games l))) as BC.
  rewrite length_map in BP, BC.
  split.
  - destruct (occurrences key (map Platform (Games l))) as [|n]; [reflexivity|].
    simpl. rewrite wrapInt_small by lia. reflexivity.
  - destruct (occurrences key (map Category (Games l))) as [|n]; [reflexivity|].
    simpl. rewrite wrapInt_small by lia. reflexivity.
Qed.

Lemma scanned_incremented `{CaseTables} st :
  mu (lib st) = unlocked -> incremented (scanned st).
Proof.
  intros Hmu. unfold scanned. rewrite Scan_blocks by assumption. simpl.
  rewrite scanRoots_found. intros key.
  destruct (foldl_addGame_incremented
              (setPlatforms ∅ (setCategories ∅ (setGames []
                 (setMu {| writer := true; readers := 0 |} (lib st)))))
              (found (os st) (ScanPaths (lib st)))) with (key := key)
    as [HP HC].
  - intros k. simpl. rewrite !lookup_empty. split; reflexivity.
  - simpl in *. split; assumption.
Qed.

Lemma sameCounts_consistent l l' :
  sameCounts l l' -> consistent l -> consistent l'.
Proof.
  intros (EP & EC & MP & MC) Hl key. rewrite EP, EC, MP, MC. apply Hl.
Qed.

Lemma sameCounts_refl l : sameCounts l l.
Proof. repeat split. Qed.

Lemma map_alter_setFavorite {B} (f : GameInfo -> B) i games :
  (forall g b, f (setFavorite b g) = f g) ->
  map f (alter (fun g => setFavorite (negb (Favorite g)) g) i games) = map f games.
Proof.
  intros Hf. revert i; induction games as [|g games IH]; intros [|i]; simpl;
    try reflexivity.
  - rewrite Hf. reflexivity.
  - f_equal. apply IH.
Qed.

Lemma ToggleFavorite_sameCounts st id :
  sameCounts (lib st) (lib (stateOf (ToggleFavorite id st))).
Proof.
  destruct st as [l o]; destruct l as [games paths cats plats last [w r] cfg].
  unfold ToggleFavorite, saveUnlocked, os_WriteFile, marshalLibrary; run.
  destruct w; [apply sameCounts_refl|]. destruct r; [|apply sameCounts_refl].
  simpl. destruct (indexOfID games id) as [i|]; simpl.
  - destruct (writeFault o cfg); simpl; repeat split; simpl;
      apply map_alter_setFavorite; reflexivity.
  - apply sameCounts_refl.
Qed.

Ltac reader :=
  match goal with
  | |- sameCounts (lib ?st) _ =>
    destruct st as [l o];
    destruct l as [games paths cats plats last [w r] cfg];
    run; destruct w; simpl;
    repeat match goal with
           | |- context [if ?c then _ else _] => destruct c; simpl
           | |- context [match ?c with Some _ => _ | None => _ end] =>
             destruct c; simpl
           end;
    apply sameCounts_refl
  end.

Lemma GetGames_sameCounts st platform category :
  sameCounts (lib st) (lib (stateOf (GetGames platform category st))).
Proof. unfold GetGames. reader. Qed.

Lemma GetGameByID_sameCounts st id :
  sameCounts (lib st) (lib (stateOf (GetGameByID id st))).
Proof. unfold GetGameByID. reader. Qed.

Lemma GetFavorites_sameCounts st :
  sameCounts (lib st) (lib (stateOf (GetFavorites st))).
Proof. unfold GetFavorites. reader. Qed.

Lemma GetRecentlyPlayed_sameCounts st limit :
  sameCounts (lib st) (lib (stateOf (GetRecentlyPlayed limit st))).
Proof.
  destruct st as [l o]; destruct l as [games paths cats plats last [w r] cfg].
  unfold GetRecentlyPlayed, rlocked, RLock, RUnlock, getLib, modifyLib, ret,
    mbind, M_bind, bind. simpl.
  destruct w; simpl; [apply sameCounts_refl|].
  destruct (_ && _); apply sameCounts_refl.
Qed.

(** C10. After [Scan] (of fewer than [2^63] records, as every Go slice
    holds) the entry of [Platforms] for a name is the number of records with
    that platform, and there is no entry for a name that no record has;
    likewise for [Categories]. [ToggleFavorite], [GetGames], [GetGameByID],
    [GetFavorites] and [GetRecentlyPlayed] keep the counts consistent. *)
Theorem counts_consistent `{CaseTables} (st : State) :
  (mu (lib st) = unlocked ->
   Z.of_nat (length (Games (scanned st))) < 2 ^ 63 ->
   consistent (scanned st)) /\
  (consistent (lib st) ->
   (forall id, consistent (lib (stateOf (ToggleFavorite id st)))) /\
   (forall platform category,
      consistent (lib (stateOf (GetGames platform category st)))) /\
   (forall id, consistent (lib (stateOf (GetGameByID id st)))) /\
   consistent (lib (stateOf (GetFavorites st))) /\
   (forall limit, consistent (lib (stateOf (GetRecentlyPlayed limit st))))).
Proof.
  split.
  - intros Hmu Hlen. apply incremented_consistent; [exact Hlen|].
    apply scanned_incremented, Hmu.
  - intros Hc. split; [|split; [|split; [|split]]]; intros;
      (eapply sameCounts_consistent; [|exact Hc]).
    + apply ToggleFavorite_sameCounts.
    + apply GetGames_sameCounts.
    + apply GetGameByID_sameCounts.
    + apply GetFavorites_sameCounts.
    + apply GetRecentlyPlayed_sameCounts.
Qed.

Lemma counts_consistent_witness :
  consistent (@scanned caseless romsState) /\
  consistent (lib (stateOf (ToggleFavorite "PONGC"
                   {| lib := @scanned caseless romsState; os := romsOS |}))).
Proof.
  destruct (@counts_consistent caseless romsState) as [S _].
  assert (consistent (@scanned caseless romsState)) as C.
  { apply S; [reflexivity|]. vm_compute. reflexivity. }
  split; [exact C|].
  destruct (@counts_consistent caseless
              {| lib := @scanned caseless romsState; os := romsOS |}) as [_ T].
  destruct (T C) as [TF _]. apply TF.
Defined.

(** ** generateID *)

Lemma code_range c : 0 <= code c < 256.
Proof.
  unfold code. pose proof (N_ascii_bounded c) as B. lia.
Qed.

Lemma code_byte z : 0 <= z < 256 -> code (byte z) = z.
Proof.
  intros Hz. unfold code, byte. rewrite N_ascii_embedding by lia. lia.
Qed.

Lemma byte_code c : byte (code c) = c.
Proof. unfold code, byte. rewrite N2Z.id. apply ascii_N_embedding. Qed.

Lemma foldl_hash cs h :
  foldl (fun hash c => wrap32 (hash * 31 + c)) (h mod 2 ^ 32) cs
  = (h * 31 ^ Z.of_nat (length cs) + polynomial cs) mod 2 ^ 32.
Proof.
  revert h; induction cs as [|c cs IH]; intros h.
  - simpl. f_equal. lia.
  - cbn [foldl polynomial length]. unfold wrap32 at 2. rewrite IH.
    rewrite Nat2Z.inj_succ, Z.pow_succ_r by lia.
    rewrite (Z.mod_eq h (2 ^ 32)) by lia.
    replace (((h - 2 ^ 32 * (h / 2 ^ 32)) * 31 + c) * 31 ^ Z.of_nat (length cs)
             + polynomial cs)
      with (h * (31 * 31 ^ Z.of_nat (length cs))
            + (c * 31 ^ Z.of_nat (length cs) + polynomial cs)
            + (- (h / 2 ^ 32) * 31 * 31 ^ Z.of_nat (length cs)) * 2 ^ 32)
      by ring.
    apply Z_mod_plus_full.
Qed.

Lemma hash_polynomial path :
  foldl (fun hash c => wrap32 (hash * 31 + c)) 0 (runes path) = pathHash path.
Proof.
  change 0 with (0 mod 2 ^ 32) at 1. rewrite foldl_hash. unfold pathHash.
  f_equal; lia.
Qed.

Lemma letter_encoded x :
  utf8_EncodeRune (65 + x mod 26) = String (byte (65 + x mod 26)) EmptyString.
Proof.
  pose proof (Z.mod_pos_bound x 26 ltac:(lia)) as B.
  unfold utf8_EncodeRune, between.
  replace (0 <=? 65 + x mod 26) with true by (symmetry; apply Z.leb_le; lia).
  replace (65 + x mod 26 <=? 127) with true by (symmetry; apply Z.leb_le; lia).
  reflexivity.
Qed.

Lemma sliceTo_all n s : (String.length s <= n)%nat -> sliceTo n s = s.
Proof.
  revert n; induction s as [|c s IH]; intros [|n] Hn; simpl in *;
    try reflexivity; try lia.
  rewrite IH by lia. reflexivity.
Qed.

Lemma sliceTo_min n s : sliceTo (Nat.min n (String.length s)) s = sliceTo n s.
Proof.
  revert n; induction s as [|c s IH]; intros [|n]; simpl; try reflexivity.
  rewrite IH. reflexivity.
Qed.

Lemma mapBytes_sliceTo f n s : mapBytes f (sliceTo n s) = sliceTo n (mapBytes f s).
Proof.
  revert n; induction s as [|c s IH]; intros [|n]; simpl; try reflexivity.
  rewrite IH. reflexivity.
Qed.

Lemma isASCII_sliceTo n s : isASCII s = true -> isASCII (sliceTo n s) = true.
Proof.
  unfold isASCII. revert n; induction s as [|c s IH]; intros [|n]; simpl;
    try reflexivity.
  intros Hs. apply andb_true_iff in Hs as [H1 H2]. rewrite H1. simpl. auto.
Qed.

Lemma isASCII_upper s :
  isASCII s = true ->
  isASCII (mapBytes (fun b => if between 97 122 b then b - 32 else b) s) = true.
Proof.
  unfold isASCII. induction s as [|c s IH]; simpl; [reflexivity|].
  intros Hs. apply andb_true_iff in Hs as [H1 H2]. rewrite IH by assumption.
  rewrite andb_true_r. pose proof (code_range c) as B.
  apply Z.ltb_lt in H1. unfold RuneSelf in *. apply Z.ltb_lt.
  unfold between. destruct (97 <=? code c) eqn:E1; simpl.
  - destruct (code c <=? 122) eqn:E2.
    + apply Z.leb_le in E1, E2. rewrite code_byte; lia.
    + rewrite byte_code. exact H1.
  - rewrite byte_code. exact H1.
Qed.

Lemma widthsFrom_ASCII s :
  isASCII s = true -> widthsFrom 0 s = repeat 1%nat (String.length s).
Proof.
  unfold isASCII. induction s as [|c s IH]; simpl; [reflexivity|].
  intros Hs. apply andb_true_iff in Hs as [H1 H2].
  unfold RuneSelf in *. rewrite H1. simpl. rewrite IH by assumption.
  reflexivity.
Qed.

Lemma sum_take_ones n m : sum_list (take n (repeat 1%nat m)) = Nat.min n m.
Proof.
  revert n; induction m as [|m IH]; intros [|n]; simpl; try reflexivity.
  rewrite IH. reflexivity.
Qed.

Lemma firstChars_ASCII n s :
  isASCII s = true -> firstChars n s = sliceTo n s.
Proof.
  intros Hs. unfold firstChars. rewrite widthsFrom_ASCII by assumption.
  rewrite sum_take_ones. apply sliceTo_min.
Qed.

Lemma generateID_cut `{CaseTables} path :
  generateID path
  = strings_ToUpper (sliceTo 8 (fileStem path)) +:+ hashLetter path.
Proof.
  unfold generateID. rewrite hash_polynomial, letter_encoded.
  fold (fileStem path). fold (hashLetter path). f_equal.
  destruct (8 <? String.length (fileStem path))%nat eqn:E; [reflexivity|].
  apply Nat.ltb_ge in E. rewrite sliceTo_all by assumption. reflexivity.
Qed.

(** C1, as the code has it. [generateID] returns the upper-cased first
    eight bytes of the file name without its extension (the whole of it when
    it has no more than eight), followed by the letter ['A' + hash mod 26] of
    the 32-bit polynomial hash, with multiplier 31, of the runes of the full
    path. When the file name without its extension is ASCII, that is the
    upper-cased name cut to at most eight characters, as the design document
    has it. The result depends on the path alone. *)
Theorem generateID_amended `{CaseTables} (path : string) :
  generateID path
  = strings_ToUpper (sliceTo 8 (fileStem path)) +:+ hashLetter path /\
  (isASCII (fileStem path) = true -> generateID path = generateID_spec path) /\
  (forall path', path' = path -> generateID path' = generateID path).
Proof.
  split; [apply generateID_cut|]. split; [|intros ? ->; reflexivity].
  intros Hs. rewrite generateID_cut. unfold generateID_spec. f_equal.
  unfold strings_ToUpper. rewrite Hs, isASCII_sliceTo by assumption.
  rewrite firstChars_ASCII by (apply isASCII_upper, Hs).
  apply mapBytes_sliceTo.
Qed.

Lemma generateID_amended_witness :
  @generateID caseless "/roms/nes/Super_Mario_Bros(USA).nes" = "SUPER_MAZ" /\
  @generateID_spec caseless "/roms/nes/Super_Mario_Bros(USA).nes" = "SUPER_MAZ".
Proof.
  destruct (@generateID_amended caseless "/roms/nes/Super_Mario_Bros(USA).nes")
    as (_ & E & _).
  rewrite <- E by reflexivity. split; vm_compute; reflexivity.
Defined.

(** A name of three ideographs, nine bytes: the code cuts the third one and
    its two remaining bytes are upper-cased to U+FFFD each, where the design
    document keeps the three characters (or, reading characters as bytes,
    the eight bytes of the upper-cased name). *)
Lemma generateID_cuts_bytes :
  @generateID caseless "/roms/日本語.nes"
    <> @generateID_spec caseless "/roms/日本語.nes" /\
  @generateID caseless "/roms/日本語.nes"
    <> @generateID_spec_bytes caseless "/roms/日本語.nes".
Proof. split; vm_compute; discriminate. Qed.

Lemma ToUpper_nonASCII `{CaseTables} s rs :
  isASCII s = false -> runes s = rs ->
  strings_ToUpper s
  = foldr (fun r acc =>
             let r' := unicode_ToUpper r in
             if 0 <=? r' then utf8_EncodeRune r' +:+ acc else acc)
          EmptyString rs.
Proof.
  intros Ha <-. unfold strings_ToUpper, strings_Map. rewrite Ha. reflexivity.
Qed.

Lemma unicode_ToUpper_table `{CaseTables} r :
  127 < r -> unicode_ToUpper r = unicode_To UpperCase r.
Proof.
  intros Hr. unfold unicode_ToUpper.
  destruct (Z.leb_spec r 127); [lia|reflexivity].
Qed.

(** The same for every case table that, as Go's, has no case for the runes
    involved. *)
Lemma cut_ideograph_any_table `{CaseTables} :
  unicode_To UpperCase 26085 = 26085 -> unicode_To UpperCase 26412 = 26412 ->
  unicode_To UpperCase 35486 = 35486 -> unicode_To UpperCase 65533 = 65533 ->
  generateID "/roms/日本語.nes"
  = "日本" +:+ utf8_EncodeRune RuneError +:+ utf8_EncodeRune RuneError +:+ "S" /\
  generateID_spec "/roms/日本語.nes" = "日本語S".
Proof.
  intros H1 H2 H3 H4.
  assert (hashLetter "/roms/日本語.nes" = "S") as HL by (vm_compute; reflexivity).
  assert (fileStem "/roms/日本語.nes" = "日本語") as HS by (vm_compute; reflexivity).
  split.
  - rewrite generateID_cut, HL, HS.
    rewrite (ToUpper_nonASCII _ [26085; 26412; 65533; 65533])
      by (vm_compute; reflexivity).
    cbn [foldr]. rewrite !unicode_ToUpper_table by lia.
    rewrite H1, H2, H4. vm_compute. reflexivity.
  - unfold generateID_spec. rewrite HL, HS.
    rewrite (ToUpper_nonASCII _ [26085; 26412; 35486])
      by (vm_compute; reflexivity).
    cbn [foldr]. rewrite !unicode_ToUpper_table by lia.
    rewrite H1, H2, H3. vm_compute. reflexivity.
Qed.

(** ** Scan and persistence *)

Lemma Scan_never_returns `{CaseTables} st : exists st', Scan st = Blocks st'.
Proof.
  destruct (mu (lib st)) as [w r] eqn:Hmu.
  destruct w.
  - exists st. unfold Scan, locked, Lock, mbind, M_bind, bind.
    rewrite Hmu. reflexivity.
  - destruct r as [|r].
    + eexists. apply Scan_blocks. exact Hmu.
    + exists st. unfold Scan, locked, Lock, mbind, M_bind, bind.
      rewrite Hmu. reflexivity.
Qed.

(** What [Scan] leaves in memory does not depend on the fate of the write. *)
Lemma Scan_memory `{CaseTables} st st' :
  mu (lib st) = unlocked -> lib st' = lib st ->
  filepath_Walk (os st') = filepath_Walk (os st) ->
  time_Now (os st') = time_Now (os st) ->
  scanned st' = scanned st.
Proof.
  intros Hmu El Ew Et. unfold scanned.
  rewrite !Scan_blocks by congruence. simpl.
  rewrite !scanRoots_found. unfold found. simpl. rewrite El, Ew, Et.
  reflexivity.
Qed.

(** C4, on a full disk. [Scan] has replaced the records, the counts and the
    time in memory, and it does not return the error of the write: it does
    not return at all, and the write is not attempted. It holds [mu] and
    calls [Save], which locks [mu] again. [ToggleFavorite], which calls
    [saveUnlocked], does return the error of the write, with the change kept
    in memory. *)
Theorem Scan_full_disk :
  (exists st', @Scan caseless fullState = Blocks st' /\
               map Path (Games (lib st'))
               = ["/roms/Pong.a26"; "/roms/Zelda (USA).SFC"] /\
               LastScan (lib st') = time_Now fullOS /\
               mu (lib st') = {| writer := true; readers := 0 |} /\
               lib st' = setMu {| writer := true; readers := 0 |}
                           (@scanned caseless romsState)) /\
  (exists st', ToggleFavorite "PONGC" {| lib := lib pongState; os := fullOS |}
               = Returns (Some (PathError "open" "/cfg/library.json" ENOSPC)) st' /\
               map Favorite (Games (lib st')) = [true]).
Proof.
  split.
  - eexists. split; [apply (@Scan_blocks caseless); reflexivity|].
    repeat split; vm_compute; reflexivity.
  - eexists. split; [vm_compute; reflexivity|]. reflexivity.
Qed.

(** ** Valid UTF-8 *)

Lemma lor_shiftl_add a x n :
  0 <= n -> 0 <= x < 2 ^ n -> Z.lor (Z.shiftl a n) x = a * 2 ^ n + x.
Proof.
  intros Hn Hx. rewrite Z.shiftl_mul_pow2 by lia.
  rewrite <- Z.add_nocarry_lor; [reflexivity|].
  apply Z.bits_inj'. intros i Hi. rewrite Z.land_spec, Z.bits_0.
  destruct (Z.lt_ge_cases i n) as [L|G].
  - rewrite Z.mul_pow2_bits_low by lia. reflexivity.
  - rewrite <- (Z.mod_small x (2 ^ n)) by lia.
    rewrite Z.mod_pow2_bits_high by lia. apply andb_false_r.
Qed.

Lemma land_low b n : 0 <= n -> Z.land b (2 ^ n - 1) = b mod 2 ^ n.
Proof.
  intros Hn. rewrite <- Z.land_ones by lia. f_equal.
  rewrite Z.ones_equiv. lia.
Qed.

Lemma between_true lo hi x : lo <= x <= hi -> between lo hi x = true.
Proof. intros H. unfold between. apply andb_true_iff. split; apply Z.leb_le; lia. Qed.

Lemma between_false lo hi x : x < lo \/ hi < x -> between lo hi x = false.
Proof.
  intros H. unfold between. apply andb_false_iff.
  destruct H; [left|right]; apply Z.leb_gt; lia.
Qed.

Lemma between_spec lo hi x : between lo hi x = true <-> lo <= x <= hi.
Proof. unfold between. rewrite andb_true_iff, !Z.leb_le. reflexivity. Qed.

Lemma encode1 x : 0 <= x < 128 -> utf8_EncodeRune x = string_of_bytes [x].
Proof. intros H. unfold utf8_EncodeRune. rewrite between_true by lia. reflexivity. Qed.

Lemma encode2 a x :
  2 <= a < 32 -> 0 <= x < 64 ->
  utf8_EncodeRune (a * 64 + x) = string_of_bytes [192 + a; 128 + x].
Proof.
  intros Ha Hx. unfold utf8_EncodeRune.
  rewrite between_false by lia. rewrite between_true by lia.
  rewrite Z.shiftr_div_pow2 by lia. change 63 with (2 ^ 6 - 1).
  rewrite land_low by lia.
  change 192 with (Z.shiftl 3 6) at 1. change 128 with (Z.shiftl 2 6) at 1.
  rewrite !lor_shiftl_add; try lia.
  - do 3 f_equal; [|f_equal]; Z.div_mod_to_equations; lia.
  - Z.div_mod_to_equations; lia.
  - Z.div_mod_to_equations; lia.
Qed.

Lemma encode3 a x y :
  0 <= a < 16 -> 0 <= x < 64 -> 0 <= y < 64 ->
  2048 <= a * 4096 + x * 64 + y ->
  ~ (55296 <= a * 4096 + x * 64 + y <= 57343) ->
  utf8_EncodeRune (a * 4096 + x * 64 + y)
  = string_of_bytes [224 + a; 128 + x; 128 + y].
Proof.
  intros Ha Hx Hy Hlo Hs. unfold utf8_EncodeRune.
  rewrite between_false by lia. rewrite between_false by lia.
  rewrite between_true by lia. rewrite (between_false 55296) by lia.
  cbn [negb andb].
  rewrite !Z.shiftr_div_pow2 by lia. change 63 with (2 ^ 6 - 1).
  rewrite !land_low by lia.
  change 224 with (Z.shiftl 14 4) at 1.
  change (Z.lor 128) with (Z.lor (Z.shiftl 2 6)).
  rewrite !lor_shiftl_add; try lia; try (Z.div_mod_to_equations; lia).
  unfold string_of_bytes. cbn [map]. repeat f_equal;
    Z.div_mod_to_equations; lia.
Qed.

Lemma encode4 a x y z :
  0 <= a < 8 -> 0 <= x < 64 -> 0 <= y < 64 -> 0 <= z < 64 ->
  65536 <= a * 262144 + x * 4096 + y * 64 + z <= 1114111 ->
  utf8_EncodeRune (a * 262144 + x * 4096 + y * 64 + z)
  = string_of_bytes [240 + a; 128 + x; 128 + y; 128 + z].
Proof.
  intros Ha Hx Hy Hz Hr. unfold utf8_EncodeRune, MaxRune.
  rewrite between_false by lia. rewrite between_false by lia.
  rewrite (between_false 2048) by lia. cbn [andb].
  rewrite between_true by lia.
  rewrite !Z.shiftr_div_pow2 by lia. change 63 with (2 ^ 6 - 1).
  rewrite !land_low by lia.
  change 240 with (Z.shiftl 30 3) at 1.
  change (Z.lor 128) with (Z.lor (Z.shiftl 2 6)).
  rewrite !lor_shiftl_add; try lia; try (Z.div_mod_to_equations; lia).
  unfold string_of_bytes. cbn [map]. repeat f_equal;
    Z.div_mod_to_equations; lia.
Qed.

Lemma contBits_value c : 128 <= code c <= 191 -> contBits c = code c - 128.
Proof.
  intros H. unfold contBits. change 63 with (2 ^ 6 - 1).
  rewrite land_low by lia. Z.div_mod_to_equations; lia.
Qed.

Lemma decode_encode s r w :
  s <> EmptyString ->
  utf8_DecodeRuneInString s = (r, w) ->
  (r, w) <> (RuneError, 1%nat) ->
  utf8_EncodeRune r = sliceTo w s /\ 0 <= r /\ (1 <= w <= String.length s)%nat.
Proof.
  destruct s as [|c0 s1]; [congruence|]. intros _.
  unfold utf8_DecodeRuneInString. pose proof (code_range c0) as B0.
  set (b0 := code c0) in *. unfold RuneSelf.
  destruct (Z.ltb_spec b0 128) as [L|G].
  { intros [= <- <-] _. rewrite encode1 by lia. unfold string_of_bytes, b0.
    simpl. rewrite byte_code. repeat split; lia. }
  destruct (between 194 223 b0) eqn:T2.
  { apply between_spec in T2.
    destruct s1 as [|c1 s2]; [intros [= <- <-] N; contradiction|].
    destruct (between 128 191 (code c1)) eqn:C1;
      [|intros [= <- <-] N; contradiction].
    apply between_spec in C1. intros [= <- <-] _.
    rewrite contBits_value by lia. change 31 with (2 ^ 5 - 1).
    rewrite land_low by lia. rewrite lor_shiftl_add by lia.
    replace (b0 mod 2 ^ 5) with (b0 - 192) by (Z.div_mod_to_equations; lia).
    change (2 ^ 6) with 64. rewrite encode2 by lia.
    unfold string_of_bytes. simpl map.
    replace (192 + (b0 - 192)) with (code c0) by (unfold b0; lia).
    replace (128 + (code c1 - 128)) with (code c1) by lia.
    rewrite !byte_code. simpl. repeat split; lia. }
  destruct (between 224 239 b0) eqn:T3.
  { apply between_spec in T3.
    destruct s1 as [|c1 [|c2 s3]]; try (intros [= <- <-] N; contradiction).
    destruct (between _ _ (code c1) && between 128 191 (code c2)) eqn:C;
      [|intros [= <- <-] N; contradiction].
    apply andb_true_iff in C as [C1 C2]. apply between_spec in C1, C2.
    intros [= <- <-] _.
    assert (128 <= code c1 <= 191) as R1
      by (destruct (b0 =? 224), (b0 =? 237); lia).
    rewrite !contBits_value by lia. change 15 with (2 ^ 4 - 1).
    rewrite land_low by lia.
    rewrite (lor_shiftl_add (code c1 - 128)) by lia.
    rewrite lor_shiftl_add by lia.
    replace (b0 mod 2 ^ 4) with (b0 - 224) by (Z.div_mod_to_equations; lia).
    change (2 ^ 6) with 64. change (2 ^ 12) with 4096.
    replace ((b0 - 224) * 4096 + ((code c1 - 128) * 64 + (code c2 - 128)))
      with ((b0 - 224) * 4096 + (code c1 - 128) * 64 + (code c2 - 128)) by lia.
    assert (2048 <= (b0 - 224) * 4096 + (code c1 - 128) * 64 + (code c2 - 128)) as Lo.
    { destruct (Z.eqb_spec b0 224); lia. }
    assert (~ (55296 <= (b0 - 224) * 4096 + (code c1 - 128) * 64 + (code c2 - 128)
               <= 57343)) as Su.
    { destruct (Z.eqb_spec b0 237); lia. }
    rewrite encode3 by lia.
    unfold string_of_bytes. simpl map.
    replace (224 + (b0 - 224)) with (code c0) by (unfold b0; lia).
    replace (128 + (code c1 - 128)) with (code c1) by lia.
    replace (128 + (code c2 - 128)) with (code c2) by lia.
    rewrite !byte_code. simpl. repeat split; lia. }
  destruct (between 240 244 b0) eqn:T4; [|intros [= <- <-] N; contradiction].
  apply between_spec in T4.
  destruct s1 as [|c1 [|c2 [|c3 s4]]]; try (intros [= <- <-] N; contradiction).
  destruct (between _ _ (code c1) && between 128 191 (code c2)
            && between 128 191 (code c3)) eqn:C;
    [|intros [= <- <-] N; contradiction].
  apply andb_true_iff in C as [C C3]. apply andb_true_iff in C as [C1 C2].
  apply between_spec in C1, C2, C3. intros [= <- <-] _.
  assert (128 <= code c1 <= 191) as R1
    by (destruct (b0 =? 240), (b0 =? 244); lia).
  rewrite !contBits_value by lia. change 7 with (2 ^ 3 - 1).
  rewrite land_low by lia.
  rewrite (lor_shiftl_add (code c2 - 128)) by lia.
  rewrite (lor_shiftl_add (code c1 - 128)) by lia.
  rewrite lor_shiftl_add by lia.
  replace (b0 mod 2 ^ 3) with (b0 - 240) by (Z.div_mod_to_equations; lia).
  change (2 ^ 6) with 64. change (2 ^ 12) with 4096. change (2 ^ 18) with 262144.
  replace ((b0 - 240) * 262144
           + ((code c1 - 128) * 4096 + ((code c2 - 128) * 64 + (code c3 - 128))))
    with ((b0 - 240) * 262144 + (code c1 - 128) * 4096 + (code c2 - 128) * 64
          + (code c3 - 128)) by lia.
  assert (65536 <= (b0 - 240) * 262144 + (code c1 - 128) * 4096
                   + (code c2 - 128) * 64 + (code c3 - 128) <= 1114111) as Ra.
  { destruct (Z.eqb_spec b0 240), (Z.eqb_spec b0 244); lia. }
  rewrite encode4 by lia.
  unfold string_of_bytes. simpl map.
  replace (240 + (b0 - 240)) with (code c0) by (unfold b0; lia).
  replace (128 + (code c1 - 128)) with (code c1) by lia.
  replace (128 + (code c2 - 128)) with (code c2) by lia.
  replace (128 + (code c3 - 128)) with (code c3) by lia.
  rewrite !byte_code. simpl. repeat split; lia.
Qed.

Lemma sliceFrom_length k s :
  String.length (sliceFrom k s) = (String.length s - k)%nat.
Proof.
  revert k; induction s as [|c s IH]; intros [|k]; simpl; try reflexivity.
  apply IH.
Qed.

Lemma sliceTo_sliceFrom k s : sliceTo k s +:+ sliceFrom k s = s.
Proof.
  revert k; induction s as [|c s IH]; intros [|k]; try reflexivity.
  change (String c (sliceTo k s +:+ sliceFrom k s) = String c s).
  f_equal. apply IH.
Qed.

Lemma rangeFrom_skip k s :
  (k <= String.length s)%nat -> rangeFrom k s = rangeFrom 0 (sliceFrom k s).
Proof.
  revert k; induction s as [|c s IH]; intros [|k] Hk; simpl in *;
    try reflexivity; try lia.
  apply IH. lia.
Qed.

Lemma validFrom_skip k s :
  (k <= String.length s)%nat -> validFrom k s = validFrom 0 (sliceFrom k s).
Proof.
  revert k; induction s as [|c s IH]; intros [|k] Hk; simpl in *;
    try reflexivity; try lia.
  apply IH. lia.
Qed.

Lemma coerce_valid_bounded n s :
  (String.length s <= n)%nat -> utf8_ValidString s = true -> json_coerce s = s.
Proof.
  revert s; induction n as [|n IH]; intros s Hn Hv.
  - destruct s; [reflexivity|simpl in Hn; lia].
  - destruct s as [|c s']; [reflexivity|].
    unfold utf8_ValidString in Hv. cbn [validFrom] in Hv.
    unfold json_coerce, strings_Map, runes. cbn [rangeFrom].
    destruct (utf8_DecodeRuneInString (String c s')) as [r w] eqn:D.
    destruct ((r =? RuneError) && Nat.eqb w 1) eqn:Bad; [discriminate|].
    destruct (decode_encode (String c s') r w) as (E & Hr & Hw);
      [discriminate|exact D| |].
    { intros [= -> ->]. discriminate Bad. }
    simpl in Hw.
    rewrite validFrom_skip in Hv by lia. rewrite rangeFrom_skip by lia.
    cbn [foldr]. replace (0 <=? r) with true by (symmetry; apply Z.leb_le; lia).
    rewrite E.
    fold (runes (sliceFrom (w - 1) s')).
    change (foldr _ EmptyString (runes (sliceFrom (w - 1) s')))
      with (json_coerce (sliceFrom (w - 1) s')).
    rewrite IH; [| rewrite sliceFrom_length; simpl in Hn; lia | exact Hv].
    destruct w as [|w]; [lia|].
    replace (sliceFrom (S w - 1) s') with (sliceFrom (S w) (String c s'))
      by (simpl; rewrite Nat.sub_0_r; reflexivity).
    apply sliceTo_sliceFrom.
Qed.

(** A valid UTF-8 string is written to JSON as it is. *)
Lemma clean_coerce s : clean s -> json_coerce s = s.
Proof. apply (coerce_valid_bounded (String.length s)). lia. Qed.


(** ** Save and Load *)

Lemma decodeMembers_step {A} (fields : list (string * Decoder A)) key v rest
    (a : A) d a' :
  findField fields key = Some d -> d v a = (a', Ok) ->
  decodeMembers fields ((key, v) :: rest) a = decodeMembers fields rest a'.
Proof.
  intros Hf Hd. simpl. rewrite Hf, Hd.
  destruct (decodeMembers fields rest a'). reflexivity.
Qed.

Ltac find_field :=
  cbn [findField Library_fields GameInfo_fields];
  repeat (match goal with
          | |- context [equalFold ?k ?t] =>
            let b := eval vm_compute in (equalFold k t) in
            replace (equalFold k t) with b by (vm_compute; reflexivity);
            cbv iota
          end);
  reflexivity.

Ltac member d a' :=
  rewrite (decodeMembers_step _ _ _ _ _ d a');
  [ | find_field
    | cbv beta iota delta [field decodeString decodeTime decodeInt decodeBool];
      try congruence ].

Lemma decodeGameInfo_marshal g base :
  cleanGame g -> decodeGameInfo (marshalGameInfo g) base = (g, Ok).
Proof.
  intros (C1 & C2 & C3 & C4 & C5 & C6 & C7).
  apply clean_coerce in C1, C2, C3, C4, C5, C6, C7.
  unfold decodeGameInfo, decodeStruct, marshalGameInfo.
  member (field ID setID decodeString) (setID (ID g) base).
  member (field Title setTitle decodeString)
         (setTitle (Title g) (setID (ID g) base)).
  member (field Description setDescription decodeString)
         (setDescription (Description g)
            (setTitle (Title g) (setID (ID g) base))).
  member (field Platform setPlatform decodeString)
         (setPlatform (Platform g) (setDescription (Description g)
            (setTitle (Title g) (setID (ID g) base)))).
  member (field Path setPath decodeString)
         (setPath (Path g) (setPlatform (Platform g)
            (setDescription (Description g)
               (setTitle (Title g) (setID (ID g) base))))).
  member (field CoverPath setCoverPath decodeString)
         (setCoverPath (CoverPath g) (setPath (Path g)
            (setPlatform (Platform g) (setDescription (Description g)
               (setTitle (Title g) (setID (ID g) base)))))).
  member (field LastPlayed setLastPlayed decodeTime)
         (setLastPlayed (LastPlayed g) (setCoverPath (CoverPath g)
            (setPath (Path g) (setPlatform (Platform g)
               (setDescription (Description g)
                  (setTitle (Title g) (setID (ID g) base))))))).
  member (field PlayCount setPlayCount decodeInt)
         (setPlayCount (PlayCount g) (setLastPlayed (LastPlayed g)
            (setCoverPath (CoverPath g) (setPath (Path g)
               (setPlatform (Platform g) (setDescription (Description g)
                  (setTitle (Title g) (setID (ID g) base)))))))).
  member (field Favorite setFavorite decodeBool)
         (setFavorite (Favorite g) (setPlayCount (PlayCount g)
            (setLastPlayed (LastPlayed g) (setCoverPath (CoverPath g)
               (setPath (Path g) (setPlatform (Platform g)
                  (setDescription (Description g)
                     (setTitle (Title g) (setID (ID g) base))))))))).
  member (field Category setCategory decodeString)
         (setCategory (Category g) (setFavorite (Favorite g)
            (setPlayCount (PlayCount g) (setLastPlayed (LastPlayed g)
               (setCoverPath (CoverPath g) (setPath (Path g)
                  (setPlatform (Platform g) (setDescription (Description g)
                     (setTitle (Title g) (setID (ID g) base)))))))))).
  destruct g; reflexivity.
Qed.

Lemma decodeElems_games games old :
  Forall cleanGame games ->
  decodeElems decodeGameInfo GameInfo_zero (map marshalGameInfo games) old
  = (games, Ok).
Proof.
  intros Hc. revert old. induction Hc as [|g games Hg _ IH]; intros old;
    cbn [decodeElems map]; [reflexivity|].
  rewrite decodeGameInfo_marshal by assumption. rewrite IH. reflexivity.
Qed.

Lemma decodeElems_strings paths old :
  Forall clean paths ->
  decodeElems decodeString "" (map (fun p => JString (json_coerce p)) paths) old
  = (paths, Ok).
Proof.
  intros Hc. revert old. induction Hc as [|p paths Hp _ IH]; intros old;
    simpl; [reflexivity|].
  rewrite IH. rewrite (clean_coerce _ Hp). reflexivity.
Qed.

Lemma decodeEntries_numbers (l : list (string * Z)) (m : gmap string Z) :
  decodeEntries (map (fun kv => (kv.1, JNumber kv.2)) l) m
  = (foldl (fun m kv => <[kv.1 := kv.2]> m) m l, Ok).
Proof.
  revert m; induction l as [|[k v] l IH]; intros m; simpl; [reflexivity|].
  rewrite IH. reflexivity.
Qed.

Lemma foldl_insert_union (l : list (string * Z)) (m : gmap string Z) :
  NoDup l.*1 ->
  foldl (fun m kv => <[kv.1 := kv.2]> m) m l = list_to_map l ∪ m.
Proof.
  revert m; induction l as [|[k v] l IH]; intros m ND.
  - cbn [foldl list_to_map foldr]. rewrite (left_id_L ∅ (∪)). reflexivity.
  - rewrite fmap_cons in ND. apply NoDup_cons in ND as [Hk ND].
    cbn [foldl]. rewrite IH by assumption. cbn [list_to_map foldr fst snd].
    rewrite <- insert_union_l. symmetry. apply insert_union_r.
    apply not_elem_of_list_to_map_1. exact Hk.
Qed.

Lemma sortedEntries_map (m : gmap string Z) :
  list_to_map (sortedEntries m) = m /\ NoDup (sortedEntries m).*1.
Proof.
  unfold sortedEntries.
  assert (merge_sort keyLe (map_to_list m) ≡ₚ map_to_list m) as P
    by apply merge_sort_Permutation.
  assert (NoDup (merge_sort keyLe (map_to_list m)).*1) as ND.
  { rewrite P. apply NoDup_fst_map_to_list. }
  split; [|exact ND].
  rewrite (list_to_map_proper _ _ ND P). apply list_to_map_to_list.
Qed.

Lemma sortedEntries_clean (m : gmap string Z) :
  cleanKeys m ->
  map (fun kv => (json_coerce kv.1, JNumber kv.2)) (sortedEntries m)
  = map (fun kv => (kv.1, JNumber kv.2)) (sortedEntries m).
Proof.
  intros Hc. apply map_ext_in. intros [k v] Hin. simpl. f_equal.
  apply clean_coerce, Hc. exists v. destruct (sortedEntries_map m) as [E ND].
  rewrite <- E. apply elem_of_list_to_map_1; [exact ND|].
  apply list_elem_of_In, Hin.
Qed.

Lemma decodeCounts_marshal (m m0 : gmap string Z) :
  cleanKeys m -> decodeCounts (marshalCounts m) m0 = (m ∪ m0, Ok).
Proof.
  intros Hc. unfold decodeCounts, marshalCounts.
  rewrite sortedEntries_clean by assumption.
  rewrite decodeEntries_numbers. destruct (sortedEntries_map m) as [E ND].
  rewrite foldl_insert_union by assumption. rewrite E. reflexivity.
Qed.

(** Reading back what was written for [l], into a store [l0]: the exported
    fields of [l], with the entries of the count maps of [l0] that [l] does
    not have. *)
Lemma unmarshalLibrary_marshal l l0 j :
  cleanLibrary l -> marshalLibrary l = inr j ->
  unmarshalLibrary j l0
  = ({| Games := Games l; ScanPaths := ScanPaths l;
        Categories := Categories l ∪ Categories l0;
        Platforms := Platforms l ∪ Platforms l0;
        LastScan := LastScan l; mu := mu l0; configPath := configPath l0 |},
     Ok).
Proof.
  intros (CG & CS & CC & CP) [= <-].
  unfold unmarshalLibrary, decodeStruct.
  rewrite (decodeMembers_step _ _ _ _ _
             (field Games setGames
                (decodeSlice "[]library.GameInfo" decodeGameInfo GameInfo_zero))
             (setGames (Games l) l0));
    [ | find_field
      | unfold field, decodeSlice; rewrite decodeElems_games by assumption;
        reflexivity ].
  rewrite (decodeMembers_step _ _ _ _ _
             (field ScanPaths setScanPaths (decodeSlice "[]string" decodeString ""))
             (setScanPaths (ScanPaths l) (setGames (Games l) l0)));
    [ | find_field
      | unfold field, decodeSlice; rewrite decodeElems_strings by assumption;
        reflexivity ].
  rewrite (decodeMembers_step _ _ _ _ _
             (field Categories setCategories decodeCounts)
             (setCategories (Categories l ∪ Categories l0)
                (setScanPaths (ScanPaths l) (setGames (Games l) l0))));
    [ | find_field
      | unfold field; rewrite decodeCounts_marshal by assumption;
        reflexivity ].
  rewrite (decodeMembers_step _ _ _ _ _
             (field Platforms setPlatforms decodeCounts)
             (setPlatforms (Platforms l ∪ Platforms l0)
                (setCategories (Categories l ∪ Categories l0)
                   (setScanPaths (ScanPaths l) (setGames (Games l) l0)))));
    [ | find_field
      | unfold field; rewrite decodeCounts_marshal by assumption;
        reflexivity ].
  rewrite (decodeMembers_step _ _ _ _ _
             (field LastScan setLastScan decodeTime)
             (setLastScan (LastScan l)
                (setPlatforms (Platforms l ∪ Platforms l0)
                   (setCategories (Categories l ∪ Categories l0)
                      (setScanPaths (ScanPaths l) (setGames (Games l) l0))))));
    [ | find_field | reflexivity ].
  reflexivity.
Qed.

Lemma Save_returns st :
  mu (lib st) = unlocked -> writeFault (os st) (configPath (lib st)) = None ->
  exists j, marshalLibrary (lib st) = inr j /\
    Save st = Returns None
                {| lib := lib st;
                   os := setFiles (<[configPath (lib st) := Document j]>
                                     (files (os st))) (os st) |}.
Proof.
  intros Hmu Hw. eexists. split; [reflexivity|].
  destruct st as [l o]; destruct l; simpl in *; subst.
  unfold Save, saveUnlocked, os_WriteFile, marshalLibrary; run.
  rewrite Hw. reflexivity.
Qed.

Lemma Load_document st j l' s :
  mu (lib st) = unlocked -> readFault (os st) (configPath (lib st)) = None ->
  files (os st) !! configPath (lib st) = Some (Document j) ->
  unmarshalLibrary j (setMu {| writer := true; readers := 0 |} (lib st)) = (l', s) ->
  Load st
  = Returns (errorOf s)
      {| lib := setMu {| writer := false; readers := readers (mu l') |} l';
         os := os st |}.
Proof.
  intros Hmu Hr Hf Hu.
  destruct st as [l o]; destruct l; simpl in Hmu, Hr, Hf; cbn [lib] in Hu; subst.
  unfold Load, os_ReadFile, locked, Lock, Unlock, getLib, getOS, modifyLib,
    ret, mbind, M_bind, bind; cbn.
  rewrite Hr, Hf; cbn. rewrite Hu. reflexivity.
Qed.

(** C3, for the stores that a snapshot can hold. When the strings of the
    store are clean (valid UTF-8) and the file can be written and read,
    [Save] succeeds, and a [Load] that follows it, from the same path,
    succeeds and gives back the same store: into the store that was saved,
    which it leaves as it is, and into a new store made by [NewLibrary]
    (the same records with all their fields, scan paths, count maps and
    last-scan time). *)
Theorem Save_Load_roundtrip (st : State) :
  mu (lib st) = unlocked ->
  cleanLibrary (lib st) ->
  writeFault (os st) (configPath (lib st)) = None ->
  readFault (os st) (configPath (lib st)) = None ->
  exists st1,
    Save st = Returns None st1 /\ lib st1 = lib st /\
    Load st1 = Returns None st1 /\
    sameStore (lib st) (NewLibrary (configPath (lib st)) (os st1)).
Proof.
  intros Hmu Hc Hw Hr.
  destruct (Save_returns st Hmu Hw) as (j & Hj & HS).
  eexists. split; [exact HS|]. split; [reflexivity|].
  set (st1 := {| lib := lib st;
                 os := setFiles (<[configPath (lib st) := Document j]>
                                   (files (os st))) (os st) |}).
  assert (files (os st1) !! configPath (lib st) = Some (Document j)) as Hf
    by (simpl; apply lookup_insert_eq).
  split.
  - rewrite (Load_document st1 j _ Ok Hmu Hr Hf
               (unmarshalLibrary_marshal (lib st) _ j Hc Hj)).
    simpl. f_equal. unfold st1. f_equal.
    rewrite !(idemp_L (∪)). destruct (lib st) as [? ? ? ? ? m ?].
    simpl in *. subst m. reflexivity.
  - unfold NewLibrary.
    rewrite (Load_document {| lib := emptyLibrary (configPath (lib st));
                              os := os st1 |} j _ Ok eq_refl Hr Hf
               (unmarshalLibrary_marshal (lib st) _ j Hc Hj)).
    simpl. rewrite !(right_id_L ∅ (∪)). repeat split.
Qed.

Lemma clean_ASCII_example :
  cleanLibrary (lib pongState).
Proof.
  unfold cleanLibrary, cleanKeys. simpl. repeat split.
  - constructor; [|constructor]. repeat split; vm_compute; reflexivity.
  - constructor; [|constructor]. vm_compute. reflexivity.
  - intros key [v Hv]. rewrite lookup_empty in Hv. discriminate.
  - intros key [v Hv]. rewrite lookup_empty in Hv. discriminate.
Qed.

Lemma Save_Load_roundtrip_witness :
  exists st1,
    Save pongState = Returns None st1 /\ Load st1 = Returns None st1 /\
    Games (NewLibrary "/cfg/library.json" (os st1)) = [pong].
Proof.
  destruct (Save_Load_roundtrip pongState eq_refl clean_ASCII_example
              eq_refl eq_refl) as (st1 & S & _ & L & N & _).
  exists st1. repeat split; assumption.
Defined.

(** A store with the path of a ROM whose name is not UTF-8, as a scan of a
    Unix directory can find: the snapshot holds U+FFFD for the byte, and the
    store that is loaded has another path than the one that was saved. *)
Lemma Save_Load_coerces_path :
  match (Save ;; Load) rawState with
  | Returns err st' =>
    err = None /\
    map Path (Games (lib st')) <> map Path (Games (lib rawState)) /\
    map Path (Games (NewLibrary "/cfg/library.json" (os st')))
    <> map Path (Games (lib rawState))
  | Blocks _ => False
  end.
Proof. vm_compute. repeat split; discriminate. Qed.

(** * Further properties of the library, the handler and the worker *)

(** ** The lock *)

Lemma decodeMembers_invariant {A} (P : A -> Prop)
    (fields : list (string * Decoder A)) members a :
  Forall (fun f => forall j a, P a -> P (f.2 j a).1) fields ->
  P a -> P (decodeMembers fields members a).1.
Proof.
  intros Hf. revert a. induction members as [|[key v] members IH]; intros a Ha;
    cbn [decodeMembers]; [exact Ha|].
  destruct (findField fields key) as [d|] eqn:F; [|apply IH, Ha].
  assert (forall j a, P a -> P (d j a).1) as Hd.
  { clear -Hf F. induction Hf as [|[tag d'] fields Hd _ IH]; simpl in F;
      [discriminate|].
    destruct (equalFold key tag); [injection F as <-; exact Hd|apply IH, F]. }
  specialize (Hd v a Ha). destruct (d v a) as [a' st]. simpl in Hd.
  destruct st; try exact Hd;
    specialize (IH a' Hd); destruct (decodeMembers fields members a');
    exact IH.
Qed.

(** Decoding a snapshot into a store touches neither its mutex nor its
    configuration path. *)
Lemma unmarshalLibrary_private j l :
  mu (unmarshalLibrary j l).1 = mu l /\
  configPath (unmarshalLibrary j l).1 = configPath l.
Proof.
  unfold unmarshalLibrary, decodeStruct.
  destruct j; try (split; reflexivity).
  apply (decodeMembers_invariant
           (fun l' => mu l' = mu l /\ configPath l' = configPath l)).
  - unfold Library_fields, field.
    repeat (constructor; [intros j a [H1 H2]; cbn [snd];
                          match goal with
                          | |- context [?d j (?g a)] =>
                            destruct (d j (g a)); exact (conj H1 H2)
                          end|]).
    constructor.
  - split; reflexivity.
Qed.

Lemma writer_blocks st :
  writer (mu (lib st)) = true ->
  Lock st = Blocks st /\ RLock st = Blocks st.
Proof. intros H. unfold Lock, RLock. rewrite H. split; reflexivity. Qed.

Lemma locked_blocks {A} (body : M A) st :
  writer (mu (lib st)) = true -> locked body st = Blocks st.
Proof.
  intros H. unfold locked, mbind, M_bind, bind.
  rewrite (proj1 (writer_blocks st H)). reflexivity.
Qed.

Lemma rlocked_blocks {A} (body : M A) st :
  writer (mu (lib st)) = true -> rlocked body st = Blocks st.
Proof.
  intros H. unfold rlocked, mbind, M_bind, bind.
  rewrite (proj2 (writer_blocks st H)). reflexivity.
Qed.

(** X1. Lock discipline: on a store whose mutex is free, every operation but
    [Scan] returns and leaves the mutex free; the four queries leave the
    whole state, store and disk, exactly as it was. *)
Theorem operations_release_the_lock (st : State) :
  mu (lib st) = unlocked ->
  (forall path, exists err st',
     AddScanPath path st = Returns err st' /\ mu (lib st') = unlocked) /\
  (forall id, exists err st',
     ToggleFavorite id st = Returns err st' /\ mu (lib st') = unlocked) /\
  (exists err st', Save st = Returns err st' /\ mu (lib st') = unlocked) /\
  (exists err st', Load st = Returns err st' /\ mu (lib st') = unlocked) /\
  (forall platform category, exists games,
     GetGames platform category st = Returns games st) /\
  (forall id, exists game, GetGameByID id st = Returns game st) /\
  (exists games, GetFavorites st = Returns games st) /\
  (forall limit, exists games, GetRecentlyPlayed limit st = Returns games st).
Proof.
  intros Hmu. destruct st as [l o].
  destruct l as [games paths cats plats last m cfg]. simpl in Hmu. subst m.
  repeat split.
  - intros path. unfold AddScanPath; run.
    destruct (os_Stat o path) as [errno|info]; [eauto|].
    destruct (IsDir info); cbn; [|eauto].
    destruct (containsPath paths path); cbn; eauto.
  - intros id. unfold ToggleFavorite, saveUnlocked, os_WriteFile, marshalLibrary;
      run.
    destruct (indexOfID games id); cbn; [|eauto].
    destruct (writeFault o cfg); cbn; eauto.
  - unfold Save, saveUnlocked, os_WriteFile, marshalLibrary; run.
    destruct (writeFault o cfg); cbn; eauto.
  - unfold Load, os_ReadFile, locked, Lock, Unlock, getLib, getOS, modifyLib,
      ret, mbind, M_bind, bind; cbn.
    destruct (readFault o cfg) as [errno|]; cbn.
    { destruct errno; cbn; eauto. }
    destruct (files o !! cfg) as [[j|]|]; cbn; eauto.
    pose proof (unmarshalLibrary_private j
                  (setMu {| writer := true; readers := 0 |}
                     {| Games := games; ScanPaths := paths; Categories := cats;
                        Platforms := plats; LastScan := last; mu := unlocked;
                        configPath := cfg |})) as [Hm _].
    unfold setMu at 2 in Hm. cbn in Hm.
    destruct (unmarshalLibrary j _) as [l' s] eqn:U. cbn in *.
    do 2 eexists. split; [reflexivity|]. cbn. rewrite Hm. reflexivity.
  - intros platform category. unfold GetGames; run.
    destruct (_ && _); eauto.
  - intros id. unfold GetGameByID; run.
    destruct (indexOfID games id); eauto.
  - unfold GetFavorites; run. eauto.
  - intros limit. eexists. apply GetRecentlyPlayed_returns. reflexivity.
Qed.

Lemma operations_release_the_lock_witness :
  exists st', Load pongState = Returns None st' /\ mu (lib st') = unlocked.
Proof.
  destruct (operations_release_the_lock pongState eq_refl)
    as (_ & _ & _ & (err & st' & L & U) & _).
  exists st'. split; [|exact U].
  rewrite L. f_equal.
  assert (Returns err st' = Returns None pongState) as X
    by (rewrite <- L; vm_compute; reflexivity).
  injection X as -> _. reflexivity.
Defined.

Lemma handleRequest_blocks `{CaseTables} req st :
  writer (mu (lib st)) = true ->
  In (Request_Type req) libraryMessages ->
  handleRequest req st = Blocks st.
Proof.
  intros Hw Hin. destruct req as [t i p]. simpl in Hin.
  destruct Hin as [<-|[<-|[<-|[<-|[<-|[]]]]]]; unfold handleRequest; simpl;
    unfold mbind, M_bind, bind.
  - unfold GetGames. rewrite rlocked_blocks by assumption. reflexivity.
  - unfold GetGameByID. rewrite rlocked_blocks by assumption. reflexivity.
  - unfold GetFavorites. rewrite rlocked_blocks by assumption. reflexivity.
  - unfold ToggleFavorite. rewrite locked_blocks by assumption. reflexivity.
  - unfold Scan. rewrite locked_blocks by assumption. reflexivity.
Qed.

(** X2. [Scan] leaves the mutex held for ever: after a call of [Scan] on a
    store whose mutex was free, every operation of the library waits for
    ever, [Scan] itself included, and so does the request handler for every
    message type that reaches the library. *)
Theorem Scan_locks_out `{CaseTables} (st : State) :
  mu (lib st) = unlocked ->
  let st' := stateOf (Scan st) in
  (forall path, AddScanPath path st' = Blocks st') /\
  (forall id, ToggleFavorite id st' = Blocks st') /\
  Save st' = Blocks st' /\ Load st' = Blocks st' /\ Scan st' = Blocks st' /\
  (forall platform category, GetGames platform category st' = Blocks st') /\
  (forall id, GetGameByID id st' = Blocks st') /\
  GetFavorites st' = Blocks st' /\
  (forall limit, GetRecentlyPlayed limit st' = Blocks st') /\
  (forall req, In (Request_Type req) libraryMessages ->
               handleRequest req st' = Blocks st').
Proof.
  intros Hmu st'.
  assert (writer (mu (lib st')) = true) as Hw.
  { unfold st'. rewrite Scan_blocks by assumption. simpl.
    rewrite scanRoots_found, addGame_mu. reflexivity. }
  repeat split; intros;
    try (apply locked_blocks, Hw); try (apply rlocked_blocks, Hw).
  apply handleRequest_blocks; assumption.
Qed.

Lemma Scan_locks_out_witness :
  GetFavorites (stateOf (@Scan caseless romsState))
  = Blocks (stateOf (@Scan caseless romsState)).
Proof.
  destruct (@Scan_locks_out caseless romsState eq_refl)
    as (_ & _ & _ & _ & _ & _ & _ & F & _).
  exact F.
Defined.

(** X3. A scan request is never answered: the worker that reads a line
    decoding to a request of type "scan" writes no response to it, nor to any
    line after it, and does not return. *)
Theorem scan_request_silences `{CaseTables} `{JSONText} (s : IPCServer) :
  running s = true -> handler s = Some handleRequest ->
  forall line rest st req,
    blank line = false ->
    unmarshalRequest (strings_TrimSpace line) = inr req ->
    Request_Type req = "scan" ->
    exists st', handleClient s (line :: rest) st = ([], Blocks st').
Proof.
  intros Hrun Hh line rest st req B U T.
  assert (exists st', handleRequest req st = Blocks st') as [st' R].
  { destruct req as [t i p]. simpl in T. subst t.
    unfold handleRequest. simpl. unfold mbind, M_bind, bind.
    destruct (Scan_never_returns st) as [st' ->]. eauto. }
  exists st'. unfold blank in B. cbn [handleClient]. rewrite Hrun. cbn [negb].
  rewrite B, U, Hh, R. reflexivity.
Qed.

Lemma scan_request_silences_witness :
  exists st',
    @handleClient exampleScanner (@backend caseless)
      [scanLine; statusLine] romsState = ([], Blocks st').
Proof.
  apply (@scan_request_silences caseless exampleScanner (@backend caseless)
           eq_refl eq_refl scanLine [statusLine] romsState
           {| Request_Type := "scan"; Request_ID := "";
              Request_Payload := None |});
    vm_compute; reflexivity.
Defined.

(** ** ToggleFavorite on a record of the store *)

Lemma indexOfID_split games id i :
  indexOfID games id = Some i ->
  exists (before : list GameInfo) g after,
    games = before ++ g :: after /\ ID g = id /\
    (forall g', In g' before -> ID g' <> id) /\ length before = i.
Proof.
  revert i; induction games as [|g games IH]; simpl; intros i; [discriminate|].
  destruct (String.eqb_spec (ID g) id) as [E|E].
  - intros [= <-]. exists [], g, games. repeat split; auto.
  - destruct (indexOfID games id) as [n|]; simpl; [|discriminate].
    intros [= <-]. destruct (IH n eq_refl) as (b & g' & a & -> & Eg & F & L).
    exists (g :: b), g', a. simpl. repeat split; auto.
    intros g'' [<-|Hin]; auto.
Qed.

Lemma toggled_toggled g : toggled (toggled g) = g.
Proof. destruct g. unfold toggled. simpl. rewrite negb_involutive. reflexivity. Qed.

Lemma ToggleFavorite_found st id (before : list GameInfo) g after :
  mu (lib st) = unlocked ->
  Games (lib st) = before ++ g :: after -> ID g = id ->
  (forall g', In g' before -> ID g' <> id) ->
  ToggleFavorite id st
  = match writeFault (os st) (configPath (lib st)) with
    | None =>
      Returns None
        {| lib := setGames (before ++ toggled g :: after) (lib st);
           os := setFiles
                   (<[configPath (lib st) :=
                        snapshot (setGames (before ++ toggled g :: after) (lib st))]>
                      (files (os st))) (os st) |}
    | Some errno =>
      Returns (Some (PathError "open" (configPath (lib st)) errno))
        {| lib := setGames (before ++ toggled g :: after) (lib st);
           os := os st |}
    end.
Proof.
  intros Hmu HG Eg F.
  destruct st as [l o]; destruct l as [games paths cats plats last m cfg].
  simpl in *. subst m games.
  unfold ToggleFavorite, saveUnlocked, os_WriteFile, marshalLibrary, snapshot;
    run.
  rewrite indexOfID_first by assumption. cbn.
  rewrite alter_app_r_alt by lia. rewrite Nat.sub_diag. cbn.
  fold (toggled g). destruct (writeFault o cfg); reflexivity.
Qed.

(** X4. [ToggleFavorite] with the ID of a record flips the favourite flag of
    the first record with that ID and of no other, and writes the snapshot
    of the new store; when the write fails the error is returned and the
    flag stays flipped in memory. *)
Theorem ToggleFavorite_flips_first (st : State) (id : string)
    (before : list GameInfo) (g : GameInfo) (after : list GameInfo) :
  mu (lib st) = unlocked ->
  Games (lib st) = before ++ g :: after -> ID g = id ->
  (forall g', In g' before -> ID g' <> id) ->
  exists err st',
    ToggleFavorite id st = Returns err st' /\
    lib st' = setGames (before ++ toggled g :: after) (lib st) /\
    Favorite (toggled g) = negb (Favorite g) /\
    (writeFault (os st) (configPath (lib st)) = None ->
     err = None /\
     files (os st') !! configPath (lib st) = Some (snapshot (lib st')) /\
     forall other, other <> configPath (lib st) ->
                   files (os st') !! other = files (os st) !! other) /\
    (forall errno, writeFault (os st) (configPath (lib st)) = Some errno ->
     err = Some (PathError "open" (configPath (lib st)) errno) /\
     os st' = os st).
Proof.
  intros Hmu HG Eg F.
  rewrite (ToggleFavorite_found st id before g after) by assumption.
  destruct (writeFault (os st) (configPath (lib st))) as [errno|].
  - do 2 eexists. split; [reflexivity|]. simpl.
    split; [reflexivity|]. split; [reflexivity|].
    split; [discriminate|]. intros ? [= <-]. split; reflexivity.
  - do 2 eexists. split; [reflexivity|]. simpl.
    split; [reflexivity|]. split; [reflexivity|].
    split; [|discriminate]. intros _. split; [reflexivity|]. split.
    + apply lookup_insert_eq.
    + intros other Ho. apply lookup_insert_ne. congruence.
Qed.

Lemma ToggleFavorite_flips_first_witness :
  exists st',
    ToggleFavorite "PONGC" pongState = Returns None st' /\
    map Favorite (Games (lib st')) = [true].
Proof.
  destruct (ToggleFavorite_flips_first pongState "PONGC" [] pong [] eq_refl
              eq_refl eq_refl) as (err & st' & T & L & _ & W & _).
  { intros ? []. }
  destruct (W eq_refl) as (-> & _). exists st'. split; [exact T|].
  rewrite L. reflexivity.
Defined.

(** X5. [ToggleFavorite] is its own inverse on the store: two calls in a row
    with the same ID, whether a record has it or not and whether the writes
    succeed or not, leave the records and every other field of the store as
    they were. *)
Theorem ToggleFavorite_twice (st : State) (id : string) :
  mu (lib st) = unlocked ->
  exists err st',
    (ToggleFavorite id ;; ToggleFavorite id) st = Returns err st' /\
    lib st' = lib st.
Proof.
  intros Hmu. unfold mbind, M_bind, bind.
  destruct (indexOfID (Games (lib st)) id) as [i|] eqn:I.
  - destruct (indexOfID_split _ _ _ I) as (before & g & after & HG & Eg & F & _).
    rewrite (ToggleFavorite_found st id before g after) by assumption.
    assert (forall o', writeFault o' = writeFault (os st) ->
              exists err st',
                ToggleFavorite id
                  {| lib := setGames (before ++ toggled g :: after) (lib st);
                     os := o' |} = Returns err st' /\ lib st' = lib st) as Second.
    { intros o' Ho.
      rewrite (ToggleFavorite_found _ id before (toggled g) after);
        try assumption; try reflexivity.
      simpl. rewrite Ho, toggled_toggled.
      assert (setGames (before ++ g :: after)
                (setGames (before ++ toggled g :: after) (lib st)) = lib st)
        as E by (rewrite <- HG; destruct (lib st); reflexivity).
      destruct (writeFault (os st) _); do 2 eexists; (split; [reflexivity|]);
        exact E. }
    destruct (writeFault (os st) (configPath (lib st))); apply Second;
      reflexivity.
  - assert (ToggleFavorite id st = Returns None st) as T.
    { destruct st as [l o]; destruct l; simpl in *; subst.
      unfold ToggleFavorite; run. rewrite I. reflexivity. }
    rewrite T, T. eauto.
Qed.

Lemma ToggleFavorite_twice_witness :
  exists err st',
    (ToggleFavorite "PONGC" ;; ToggleFavorite "PONGC") pongState
    = Returns err st' /\ lib st' = lib pongState.
Proof. apply (ToggleFavorite_twice pongState "PONGC"). reflexivity. Defined.

(** X6. After [ToggleFavorite] with the ID of a record, [GetGameByID] with
    that ID returns that record with its favourite flag flipped and its other
    fields as they were. *)
Theorem ToggleFavorite_then_GetGameByID (st : State) (id : string)
    (before : list GameInfo) (g : GameInfo) (after : list GameInfo) :
  mu (lib st) = unlocked ->
  Games (lib st) = before ++ g :: after -> ID g = id ->
  (forall g', In g' before -> ID g' <> id) ->
  exists st',
    (ToggleFavorite id ;; GetGameByID id) st
    = Returns (Some (setFavorite (negb (Favorite g)) g)) st'.
Proof.
  intros Hmu HG Eg F. unfold mbind, M_bind, bind.
  rewrite (ToggleFavorite_found st id before g after) by assumption.
  destruct (writeFault (os st) (configPath (lib st))); eexists;
    apply (GetGameByID_first _ id before (toggled g) after);
    try assumption; try reflexivity; destruct (lib st); assumption.
Qed.

Lemma ToggleFavorite_then_GetGameByID_witness :
  exists st',
    (ToggleFavorite "PONGC" ;; GetGameByID "PONGC") pongState
    = Returns (Some (setFavorite true pong)) st'.
Proof.
  apply (ToggleFavorite_then_GetGameByID pongState "PONGC" [] pong []);
    try reflexivity.
  intros ? [].
Defined.

(** ** Load, NewLibrary and Save at the edges *)

(** X7. [Load] without a usable snapshot: a missing file is no error; an
    error of the read is returned unless it is a not-found error; a file
    that is no JSON gives a syntax error. In each case the store and the
    disk are left as they were. *)
Theorem Load_without_snapshot (st : State) :
  mu (lib st) = unlocked ->
  (readFault (os st) (configPath (lib st)) = None ->
   files (os st) !! configPath (lib st) = None ->
   Load st = Returns None st) /\
  (readFault (os st) (configPath (lib st)) = Some ENOENT ->
   Load st = Returns None st) /\
  (forall errno, readFault (os st) (configPath (lib st)) = Some errno ->
     errno <> ENOENT ->
     Load st = Returns (Some (PathError "open" (configPath (lib st)) errno)) st) /\
  (readFault (os st) (configPath (lib st)) = None ->
   files (os st) !! configPath (lib st) = Some NotJSON ->
   Load st = Returns (Some (SyntaxError "invalid character")) st).
Proof.
  intros Hmu. destruct st as [l o].
  destruct l as [games paths cats plats last m cfg]. simpl in *. subst m.
  unfold Load, os_ReadFile, locked, Lock, Unlock, getLib, getOS, modifyLib,
    ret, mbind, M_bind, bind; cbn.
  split; [|split; [|split]].
  - intros Hr Hf. rewrite Hr, Hf. reflexivity.
  - intros Hr. rewrite Hr. reflexivity.
  - intros errno Hr Hn. rewrite Hr. destruct errno; try reflexivity.
    contradiction.
  - intros Hr Hf. rewrite Hr, Hf. reflexivity.
Qed.

Lemma Load_without_snapshot_witness :
  Load pongState = Returns None pongState.
Proof.
  destruct (Load_without_snapshot pongState eq_refl) as (H & _).
  apply H; reflexivity.
Defined.

(** X8. [NewLibrary] never fails: the store it returns has the given
    configuration path and a free mutex whatever the disk holds, and it is
    the empty store when the snapshot file is missing, cannot be read or is
    no JSON (the error of [Load] is dropped). *)
Theorem NewLibrary_never_fails (cfg : string) (o : OS) :
  mu (NewLibrary cfg o) = unlocked /\
  configPath (NewLibrary cfg o) = cfg /\
  (files o !! cfg = None \/ files o !! cfg = Some NotJSON \/
   readFault o cfg <> None ->
   NewLibrary cfg o = emptyLibrary cfg).
Proof.
  unfold NewLibrary, Load, os_ReadFile, locked, Lock, Unlock, getLib, getOS,
    modifyLib, ret, mbind, M_bind, bind; cbn.
  destruct (readFault o cfg) as [errno|] eqn:R; cbn.
  { destruct errno; cbn; repeat split; reflexivity. }
  destruct (files o !! cfg) as [[j|]|] eqn:F; cbn;
    try (split; [reflexivity|]; split; [reflexivity|]; intros _; reflexivity).
  pose proof (unmarshalLibrary_private j
                (setMu {| writer := true; readers := 0 |} (emptyLibrary cfg)))
    as [Hm Hc].
  unfold setMu at 2 in Hm. unfold setMu at 2 in Hc. cbn in Hm, Hc.
  destruct (unmarshalLibrary j _) as [l' s]. cbn in *.
  rewrite Hm. split; [reflexivity|]. split; [exact Hc|].
  intros [X|[X|X]]; try discriminate. contradiction.
Qed.

Lemma Load_snapshot st l :
  mu (lib st) = unlocked -> cleanLibrary l ->
  readFault (os st) (configPath (lib st)) = None ->
  files (os st) !! configPath (lib st) = Some (snapshot l) ->
  Load st
  = Returns None
      {| lib := {| Games := Games l; ScanPaths := ScanPaths l;
                   Categories := Categories l ∪ Categories (lib st);
                   Platforms := Platforms l ∪ Platforms (lib st);
                   LastScan := LastScan l; mu := unlocked;
                   configPath := configPath (lib st) |};
         os := os st |}.
Proof.
  intros Hmu Hc Hr Hf. unfold snapshot, marshalLibrary in Hf.
  rewrite (Load_document st _ _ Ok Hmu Hr Hf
             (unmarshalLibrary_marshal l _ _ Hc eq_refl)).
  reflexivity.
Qed.

(** X9. [Load] of the snapshot of a (clean) store [l] into a store that is
    not empty replaces the records, the scan paths and the scan time by
    those of [l], but merges the count maps: an entry of the old maps for a
    name that the snapshot does not count stays. *)
Theorem Load_merges_counts (st : State) (l : Library) :
  mu (lib st) = unlocked -> cleanLibrary l ->
  readFault (os st) (configPath (lib st)) = None ->
  files (os st) !! configPath (lib st) = Some (snapshot l) ->
  exists st',
    Load st = Returns None st' /\ os st' = os st /\
    Games (lib st') = Games l /\ ScanPaths (lib st') = ScanPaths l /\
    LastScan (lib st') = LastScan l /\
    Categories (lib st') = Categories l ∪ Categories (lib st) /\
    Platforms (lib st') = Platforms l ∪ Platforms (lib st) /\
    (forall name n, Platforms l !! name = None ->
       Platforms (lib st) !! name = Some n ->
       Platforms (lib st') !! name = Some n).
Proof.
  intros Hmu Hc Hr Hf. eexists. split; [apply Load_snapshot; eassumption|].
  simpl. repeat split. intros name n Hn Ho.
  apply lookup_union_Some_raw. right. auto.
Qed.

Lemma Load_merges_counts_witness :
  exists st',
    Load staleState = Returns None st' /\ Games (lib st') = [pong] /\
    Platforms (lib st') !! "NES" = Some 3.
Proof.
  destruct (Load_merges_counts staleState (lib pongState) eq_refl
              clean_ASCII_example eq_refl eq_refl)
    as (st' & L & _ & G & _ & _ & _ & _ & P).
  exists st'. split; [exact L|]. split; [exact G|].
  apply P; reflexivity.
Defined.



(** ** The queries *)

Lemma matches_spec platform category g :
  matches platform category g = true <->
  accepts platform (Platform g) /\ accepts category (Category g).
Proof.
  unfold matches, accepts.
  destruct (String.eqb_spec platform ""), (String.eqb_spec (Platform g) platform),
    (String.eqb_spec category ""), (String.eqb_spec (Category g) category);
    simpl; intuition congruence.
Qed.

Lemma filter_all {A} (f : A -> bool) l :
  (forall x, In x l -> f x = true) -> List.filter f l = l.
Proof.
  induction l as [|x l IH]; simpl; intros Hf; [reflexivity|].
  rewrite (Hf x) by auto. f_equal. apply IH. auto.
Qed.

Lemma GetGames_returns st platform category :
  mu (lib st) = unlocked ->
  GetGames platform category st
  = Returns (List.filter (matches platform category) (Games (lib st))) st.
Proof.
  intros Hmu. destruct st as [l o].
  destruct l as [games paths cats plats last m cfg]. simpl in *. subst m.
  unfold GetGames; run.
  destruct (String.eqb_spec platform ""), (String.eqb_spec category "");
    subst; simpl; try reflexivity.
  rewrite filter_all; [reflexivity|]. intros; reflexivity.
Qed.

(** X11. [GetGames platform category] returns, in the order of the store,
    exactly the records that pass both filters, where an empty filter passes
    every record; with both filters empty it returns all the records. The
    state is left as it was. *)
Theorem GetGames_filters (st : State) (platform category : string) :
  mu (lib st) = unlocked ->
  exists games,
    GetGames platform category st = Returns games st /\
    sublist games (Games (lib st)) /\
    (forall g, In g games <->
               In g (Games (lib st)) /\ accepts platform (Platform g) /\
               accepts category (Category g)) /\
    (platform = "" -> category = "" -> games = Games (lib st)).
Proof.
  intros Hmu. eexists. split; [apply GetGames_returns, Hmu|].
  split; [|split].
  - induction (Games (lib st)) as [|g games IH]; simpl; [constructor|].
    destruct (matches platform category g); constructor; exact IH.
  - intros g. rewrite filter_In, matches_spec. reflexivity.
  - intros -> ->. apply filter_all. intros; reflexivity.
Qed.

Lemma GetGames_filters_witness :
  exists games,
    GetGames "NES" "" pongState = Returns games pongState /\
    forall g, In g games <->
              In g (Games (lib pongState)) /\ accepts "NES" (Platform g) /\
              accepts "" (Category g).
Proof.
  destruct (GetGames_filters pongState "NES" "" eq_refl)
    as (games & G & _ & I & _).
  exists games. split; assumption.
Defined.

Lemma filter_occurrences {A} (f : A -> string) name (l : list A) :
  length (List.filter (fun x => String.eqb (f x) name) l)
  = occurrences name (map f l).
Proof.
  unfold occurrences. induction l as [|x l IH]; simpl; [reflexivity|].
  destruct (String.eqb_spec (f x) name), (string_dec (f x) name);
    try contradiction; simpl; rewrite IH; reflexivity.
Qed.

Lemma tally_default n : default 0 (tally n) = Z.of_nat n.
Proof. destruct n; reflexivity. Qed.

(** X12. On a store whose counts are consistent, the count maps agree with
    the queries: [GetGames name ""] returns as many records as [Platforms]
    counts for [name] (none when it has no entry), and [GetGames "" name] as
    many as [Categories] counts. *)
Theorem GetGames_counts (st : State) (name : string) :
  mu (lib st) = unlocked -> consistent (lib st) -> name <> "" ->
  (exists games,
     GetGames name "" st = Returns games st /\
     Z.of_nat (length games) = default 0 (Platforms (lib st) !! name)) /\
  (exists games,
     GetGames "" name st = Returns games st /\
     Z.of_nat (length games) = default 0 (Categories (lib st) !! name)).
Proof.
  intros Hmu Hc Hn. destruct (Hc name) as [HP HC].
  apply String.eqb_neq in Hn.
  split; eexists; (split; [apply GetGames_returns, Hmu|]).
  - rewrite HP, tally_default, <- (filter_occurrences Platform). do 2 f_equal.
    apply filter_ext. intros g. unfold matches. rewrite Hn. simpl.
    destruct (String.eqb (Platform g) name); reflexivity.
  - rewrite HC, tally_default, <- (filter_occurrences Category). do 2 f_equal.
    apply filter_ext. intros g. unfold matches. rewrite Hn. simpl.
    destruct (String.eqb (Category g) name); reflexivity.
Qed.

Lemma countedState_consistent : consistent (lib countedState).
Proof.
  intros key. split.
  - change (Platforms (lib countedState)) with ({[ "ATARI" := 1 ]} : gmap string Z).
    change (map Platform (Games (lib countedState))) with ["ATARI"].
    unfold occurrences. cbn [count_occ].
    destruct (string_dec "ATARI" key) as [<-|N]; [reflexivity|].
    apply lookup_singleton_ne. exact N.
  - change (Categories (lib countedState))
      with ({[ "Uncategorized" := 1 ]} : gmap string Z).
    change (map Category (Games (lib countedState))) with ["Uncategorized"].
    unfold occurrences. cbn [count_occ].
    destruct (string_dec "Uncategorized" key) as [<-|N]; [reflexivity|].
    apply lookup_singleton_ne. exact N.
Qed.

Lemma GetGames_counts_witness :
  exists games,
    GetGames "ATARI" "" countedState = Returns games countedState /\
    Z.of_nat (length games) = 1.
Proof.
  destruct (GetGames_counts countedState "ATARI" eq_refl
              countedState_consistent) as [(games & G & L) _];
    [discriminate|].
  exists games. split; [exact G|]. rewrite L. reflexivity.
Defined.

Lemma GetFavorites_returns st :
  mu (lib st) = unlocked ->
  GetFavorites st = Returns (List.filter Favorite (Games (lib st))) st.
Proof.
  intros Hmu. destruct st as [l o].
  destruct l as [games paths cats plats last m cfg]. simpl in *. subst m.
  unfold GetFavorites; run. reflexivity.
Qed.

(** X13. [ToggleFavorite] followed by [GetFavorites]: the favourites are
    those of before, with the first record of the given ID added at its
    place in the order of the store when it was no favourite, and removed
    when it was one. *)
Theorem ToggleFavorite_then_GetFavorites (st : State) (id : string)
    (before : list GameInfo) (g : GameInfo) (after : list GameInfo) :
  mu (lib st) = unlocked ->
  Games (lib st) = before ++ g :: after -> ID g = id ->
  (forall g', In g' before -> ID g' <> id) ->
  exists st',
    (ToggleFavorite id ;; GetFavorites) st
    = Returns (List.filter Favorite before
               ++ (if Favorite g then [] else [setFavorite true g])
               ++ List.filter Favorite after) st'.
Proof.
  intros Hmu HG Eg F. unfold mbind, M_bind, bind.
  rewrite (ToggleFavorite_found st id before g after) by assumption.
  assert (List.filter Favorite (before ++ toggled g :: after)
          = List.filter Favorite before
            ++ (if Favorite g then [] else [setFavorite true g])
            ++ List.filter Favorite after) as E.
  { rewrite List.filter_app. simpl. unfold toggled.
    destruct (Favorite g); reflexivity. }
  destruct (writeFault (os st) (configPath (lib st))); eexists;
    rewrite GetFavorites_returns by (destruct (lib st); assumption);
    simpl; rewrite E; reflexivity.
Qed.

Lemma ToggleFavorite_then_GetFavorites_witness :
  exists st',
    (ToggleFavorite "PONGC" ;; GetFavorites) pongState
    = Returns [setFavorite true pong] st'.
Proof.
  apply (ToggleFavorite_then_GetFavorites pongState "PONGC" [] pong []);
    try reflexivity.
  intros ? [].
Defined.

(** ** The order of GetRecentlyPlayed *)

Lemma GetRecentlyPlayed_recent st limit :
  mu (lib st) = unlocked ->
  GetRecentlyPlayed limit st
  = Returns (recent limit (bubbleSort (Games (lib st)))) st.
Proof.
  intros Hmu. rewrite GetRecentlyPlayed_returns by assumption. f_equal.
  unfold recent. cbv zeta.
  destruct (0 <? limit) eqn:E0; simpl; [|reflexivity].
  destruct (limit <? _) eqn:E1; [reflexivity|].
  apply Z.ltb_ge in E1. rewrite take_ge by lia. reflexivity.
Qed.

Lemma playedAt_apart t a b :
  playedBefore a b = true -> playedAt t a = true -> playedAt t b = false.
Proof.
  rewrite playedBefore_spec. unfold playedAt.
  rewrite andb_true_iff, andb_false_iff, !Z.eqb_eq, !Z.eqb_neq. lia.
Qed.

Lemma sink_filter t k l :
  List.filter (playedAt t) (sink k l) = List.filter (playedAt t) l.
Proof.
  revert l; induction k as [|k IH]; intros l; [destruct l; reflexivity|].
  destruct l as [|a [|b l]]; try reflexivity.
  cbn [sink]. destruct (playedBefore a b) eqn:E.
  - cbn [List.filter]. rewrite IH. cbn [List.filter].
    destruct (playedAt t a) eqn:A; [|reflexivity].
    rewrite (playedAt_apart t a b E A). reflexivity.
  - cbn [List.filter]. rewrite IH. reflexivity.
Qed.

Lemma passes_filter t (ps : list nat) games :
  List.filter (playedAt t) (foldl bubblePass games ps)
  = List.filter (playedAt t) games.
Proof.
  revert games; induction ps as [|i ps IH]; intros games; simpl;
    [reflexivity|].
  rewrite IH, bubblePass_sink. apply sink_filter.
Qed.

(** X14. The sort of [GetRecentlyPlayed] is stable: records that were last
    played at the same instant come out in the order they have in the
    store. *)
Theorem GetRecentlyPlayed_stable (st : State) :
  mu (lib st) = unlocked ->
  exists sorted,
    (forall limit, GetRecentlyPlayed limit st = Returns (recent limit sorted) st) /\
    (forall t, List.filter (playedAt t) sorted
               = List.filter (playedAt t) (Games (lib st))).
Proof.
  intros Hmu. exists (bubbleSort (Games (lib st))). split.
  - intros limit. apply GetRecentlyPlayed_recent, Hmu.
  - intros t. apply passes_filter.
Qed.

Lemma GetRecentlyPlayed_stable_witness :
  exists sorted,
    GetRecentlyPlayed 0 unplayedState = Returns sorted unplayedState /\
    List.filter (playedAt time_zero) sorted = [setID "B" pong; setID "A" pong].
Proof.
  destruct (GetRecentlyPlayed_stable unplayedState eq_refl) as (sorted & G & F).
  exists sorted. split; [exact (G 0)|]. rewrite F. reflexivity.
Defined.

Lemma sink_sorted k l : StronglySorted notBefore l -> sink k l = l.
Proof.
  revert l; induction k as [|k IH]; intros l Hl; [destruct l; reflexivity|].
  destruct l as [|a [|b l]]; try reflexivity.
  inversion Hl as [|? ? Hl' Fa]; subst. inversion Fa as [|? ? Hab _]; subst.
  cbn [sink]. rewrite Hab. f_equal. apply IH, Hl'.
Qed.

Lemma passes_sorted (ps : list nat) games :
  StronglySorted notBefore games -> foldl bubblePass games ps = games.
Proof.
  intros Hs. induction ps as [|i ps IH]; simpl; [reflexivity|].
  rewrite bubblePass_sink, sink_sorted by assumption. exact IH.
Qed.

Lemma unplayed_sorted games :
  (forall g, In g games -> LastPlayed g = time_zero) ->
  StronglySorted notBefore games.
Proof.
  induction games as [|g games IH]; intros Hz; constructor.
  - apply IH. intros; apply Hz; right; assumption.
  - apply Forall_forall. intros g' Hg'. apply list_elem_of_In in Hg'.
    apply notBefore_spec. rewrite (Hz g), (Hz g') by (simpl; auto).
    simpl. lia.
Qed.

(** X15. On a store whose records are already in descending order of
    [LastPlayed], [GetRecentlyPlayed limit] returns them in the order of the
    store (the first [limit] for a positive [limit]); so it does on a store
    none of whose records was ever played. *)
Theorem GetRecentlyPlayed_presorted (st : State) (limit : Z) :
  mu (lib st) = unlocked ->
  (StronglySorted notBefore (Games (lib st)) ->
   GetRecentlyPlayed limit st = Returns (recent limit (Games (lib st))) st) /\
  ((forall g, In g (Games (lib st)) -> LastPlayed g = time_zero) ->
   GetRecentlyPlayed limit st = Returns (recent limit (Games (lib st))) st).
Proof.
  intros Hmu.
  assert (StronglySorted notBefore (Games (lib st)) ->
          GetRecentlyPlayed limit st
          = Returns (recent limit (Games (lib st))) st) as Sorted.
  { intros Hs. rewrite GetRecentlyPlayed_recent by assumption.
    unfold bubbleSort. rewrite passes_sorted by assumption. reflexivity. }
  split; [exact Sorted|]. intros Hz. apply Sorted, unplayed_sorted, Hz.
Qed.

Lemma GetRecentlyPlayed_presorted_witness :
  GetRecentlyPlayed 1 unplayedState = Returns [setID "B" pong] unplayedState.
Proof.
  destruct (GetRecentlyPlayed_presorted unplayedState 1 eq_refl) as [_ H].
  apply H. intros g [<-|[<-|[]]]; reflexivity.
Defined.

(** ** What Scan keeps and what it forgets *)

Section Rescan.
Context `{CaseTables}.

Lemma gameFor_Path path g : gameFor path = Some g -> Path g = path.
Proof. intros E. destruct (gameFor_Some _ _ E) as (_ & _ & ->). reflexivity. Qed.

Lemma gameFor_Category path g :
  gameFor path = Some g -> Category g = "Uncategorized".
Proof. intros E. destruct (gameFor_Some _ _ E) as (_ & _ & ->). reflexivity. Qed.

Lemma visitGame_count path vs :
  mapped (strings_ToLower (filepath_Ext path)) ->
  length (List.filter (fun g => String.eqb (Path g) path) (omap visitGame vs))
  = length (List.filter (fileVisit path) vs).
Proof.
  intros Hm. induction vs as [|v vs IH]; [reflexivity|].
  cbn [omap list_omap List.filter]. destruct v as [p info|p err]; cbn [visitGame fileVisit];
    [|exact IH].
  destruct (IsDir info); cbn [negb andb]; [exact IH|].
  destruct (gameFor p) as [g|] eqn:E.
  - cbn [List.filter]. rewrite (gameFor_Path _ _ E).
    destruct (String.eqb p path); cbn [length]; rewrite IH; reflexivity.
  - destruct (String.eqb_spec p path) as [->|_]; [|exact IH].
    apply gameFor_None in E. contradiction.
Qed.

Lemma found_count o path roots :
  mapped (strings_ToLower (filepath_Ext path)) ->
  length (List.filter (fun g => String.eqb (Path g) path) (found o roots))
  = length (List.filter (fileVisit path) (visits o roots)).
Proof.
  intros Hm. unfold found, visits.
  induction roots as [|root roots IH]; [reflexivity|].
  cbn [flat_map]. rewrite !List.filter_app, !length_app, IH.
  rewrite visitGame_count by assumption. reflexivity.
Qed.

Lemma setLastScan_addGame t l gs :
  setLastScan t (foldl addGame l gs) = foldl addGame (setLastScan t l) gs.
Proof. revert l; induction gs as [|g gs IH]; intros l; simpl; [|rewrite IH]; reflexivity. Qed.

Lemma found_Category o roots g :
  In g (found o roots) -> Category g = "Uncategorized".
Proof.
  intros Hg. apply found_In in Hg as (_ & path & _ & _ & _ & _ & E).
  exact (gameFor_Category _ _ E).
Qed.

Lemma occurrences_all key (names : list string) :
  (forall name, In name names -> name = key) ->
  occurrences key names = length names.
Proof.
  unfold occurrences. induction names as [|name names IH]; intros Hall;
    [reflexivity|].
  simpl. destruct (string_dec name key) as [_|N].
  - rewrite IH; [reflexivity|]. intros; apply Hall; right; assumption.
  - exfalso. apply N, Hall. left. reflexivity.
Qed.

Lemma occurrences_none key (names : list string) :
  (forall name, In name names -> name <> key) -> occurrences key names = 0%nat.
Proof. intros Hn. apply count_occ_not_In. intros Hin. exact (Hn key Hin eq_refl). Qed.
End Rescan.

(** X16. [Scan] makes one record for every visit of a file: a file with a
    mapped extension has as many records in the store after [Scan] as the
    walks of the scan paths visit it, so a file below two scan paths has two
    records. *)
Theorem Scan_one_record_per_visit `{CaseTables} (st : State) (path : string) :
  mu (lib st) = unlocked ->
  mapped (strings_ToLower (filepath_Ext path)) ->
  length (List.filter (fun g => String.eqb (Path g) path) (Games (scanned st)))
  = length (List.filter (fileVisit path)
              (visits (os st) (ScanPaths (lib st)))).
Proof.
  intros Hmu Hm. rewrite scanned_Games by assumption.
  apply found_count, Hm.
Qed.

Lemma Scan_one_record_per_visit_witness :
  length (List.filter (fun g => String.eqb (Path g) "/roms/usa/Pong.a26")
            (Games (@scanned caseless nestedState))) = 2%nat.
Proof.
  rewrite (@Scan_one_record_per_visit caseless nestedState "/roms/usa/Pong.a26"
             eq_refl).
  - reflexivity.
  - exists "ATARI", [".a26"; ".bin"]. split.
    + simpl. auto 10.
    + left. vm_compute. reflexivity.
Defined.

(** X17. [Scan] starts from nothing: the store it leaves in memory depends
    on the scan paths, the configuration path, the walks and the clock only,
    not on the records, counts or scan time that the store held before. *)
Theorem Scan_forgets `{CaseTables} (st1 st2 : State) :
  mu (lib st1) = unlocked -> mu (lib st2) = unlocked ->
  os st1 = os st2 -> ScanPaths (lib st1) = ScanPaths (lib st2) ->
  configPath (lib st1) = configPath (lib st2) ->
  scanned st1 = scanned st2.
Proof.
  intros M1 M2 Eo Ep Ec. unfold scanned.
  rewrite !Scan_blocks by assumption. cbn [stateOf lib].
  rewrite !scanRoots_found, !setLastScan_addGame.
  destruct st1 as [l1 o1], st2 as [l2 o2]. destruct l1, l2.
  simpl in *. subst. reflexivity.
Qed.

Lemma Scan_forgets_witness :
  @scanned caseless pongState = @scanned caseless romsState.
Proof. apply (@Scan_forgets caseless pongState romsState); reflexivity. Defined.

(** X18. After [Scan] the map [Categories] has no entry when no record was
    found and otherwise the one entry "Uncategorized", with the (wrapped)
    number of records; every name that [Platforms] counts is a platform of
    the extension table. *)
Theorem Scan_one_category `{CaseTables} (st : State) :
  mu (lib st) = unlocked ->
  Categories (scanned st)
  = match length (Games (scanned st)) with
    | O => ∅
    | n => {[ "Uncategorized" := wrapInt (Z.of_nat n) ]}
    end /\
  (forall name, is_Some (Platforms (scanned st) !! name) ->
     exists extensions, In (name, extensions) platformExtensions).
Proof.
  intros Hmu. pose proof (scanned_incremented st Hmu) as Hi.
  pose proof (scanned_Games st Hmu) as HG. split.
  - apply map_eq. intros key. destruct (Hi key) as [_ ->].
    destruct (decide (key = "Uncategorized")) as [->|N].
    + rewrite occurrences_all.
      * rewrite length_map. destruct (length (Games (scanned st))).
        -- rewrite lookup_empty. reflexivity.
        -- rewrite lookup_singleton_eq. reflexivity.
      * intros name Hn. apply in_map_iff in Hn as (g & <- & Hg).
        rewrite HG in Hg. exact (found_Category _ _ _ Hg).
    + rewrite occurrences_none.
      * destruct (length (Games (scanned st)));
          [rewrite lookup_empty|rewrite lookup_singleton_ne by congruence];
          reflexivity.
      * intros name Hn. apply in_map_iff in Hn as (g & <- & Hg).
        rewrite HG in Hg. rewrite (found_Category _ _ _ Hg). congruence.
  - intros name [n Hn]. destruct (Hi name) as [HP _]. rewrite HP in Hn.
    destruct (occurrences name (map Platform (Games (scanned st)))) eqn:O;
      [discriminate|].
    assert (In name (map Platform (Games (scanned st)))) as Hin.
    { apply (count_occ_In string_dec). unfold occurrences in O. lia. }
    apply in_map_iff in Hin as (g & <- & Hg). rewrite HG in Hg.
    apply found_In in Hg as (_ & path & _ & _ & _ & _ & E).
    destruct (gameFor_Some _ _ E) as (_ & (exts & I & _) & _). eauto.
Qed.

Lemma Scan_one_category_witness :
  Categories (@scanned caseless romsState) = {[ "Uncategorized" := 2 ]}.
Proof.
  destruct (@Scan_one_category caseless romsState eq_refl) as [C _].
  rewrite C. reflexivity.
Defined.

(** ** Identifiers, platforms and titles *)

Lemma append_cons c s t : String c s +:+ t = String c (s +:+ t).
Proof. reflexivity. Qed.

Lemma append_length s t :
  String.length (s +:+ t) = (String.length s + String.length t)%nat.
Proof.
  induction s as [|c s IH]; [reflexivity|].
  rewrite append_cons. simpl. rewrite IH. reflexivity.
Qed.

Lemma append_last_inj s1 s2 c1 c2 :
  s1 +:+ String c1 EmptyString = s2 +:+ String c2 EmptyString ->
  s1 = s2 /\ c1 = c2.
Proof.
  revert s2; induction s1 as [|a s1 IH]; intros [|b s2] E.
  - change (String c1 EmptyString = String c2 EmptyString) in E.
    injection E as ->. split; reflexivity.
  - apply (f_equal String.length) in E. rewrite append_cons in E.
    simpl in E. rewrite append_length in E. simpl in E. lia.
  - apply (f_equal String.length) in E. rewrite append_cons in E.
    simpl in E. rewrite append_length in E. simpl in E. lia.
  - rewrite !append_cons in E. injection E as -> E.
    destruct (IH _ E) as [-> ->]. split; reflexivity.
Qed.

Lemma hashLetter_inj p q :
  hashLetter p = hashLetter q <-> pathHash p mod 26 = pathHash q mod 26.
Proof.
  unfold hashLetter. split; [|intros ->; reflexivity].
  intros [= E]. apply (f_equal code) in E.
  pose proof (Z.mod_pos_bound (pathHash p) 26 ltac:(lia)).
  pose proof (Z.mod_pos_bound (pathHash q) 26 ltac:(lia)).
  rewrite !code_byte in E by lia. lia.
Qed.

(** X19. Two paths get the same ID exactly when the first eight bytes of
    their file names without extension are equal after upper-casing and
    their path hashes are equal modulo 26: the directory and the extension
    enter the ID through the one letter only, so IDs are not unique. *)
Theorem generateID_collides `{CaseTables} (p q : string) :
  generateID p = generateID q <->
  strings_ToUpper (sliceTo 8 (fileStem p))
  = strings_ToUpper (sliceTo 8 (fileStem q)) /\
  pathHash p mod 26 = pathHash q mod 26.
Proof.
  rewrite !generateID_cut, <- hashLetter_inj. unfold hashLetter. split.
  - intros E. apply append_last_inj in E as [-> ->]. split; reflexivity.
  - intros [-> ->]. reflexivity.
Qed.

Lemma generateID_collides_witness :
  @generateID caseless "/roms/usa/Pong.a26"
  = @generateID caseless "/roms/Pong.bin".
Proof.
  apply (@generateID_collides caseless). split; vm_compute; reflexivity.
Defined.

Lemma sliceTo_length n s :
  String.length (sliceTo n s) = Nat.min n (String.length s).
Proof.
  revert n; induction s as [|c s IH]; intros [|n]; simpl; try reflexivity.
  rewrite IH. reflexivity.
Qed.

Lemma mapBytes_length f s : String.length (mapBytes f s) = String.length s.
Proof. induction s as [|c s IH]; simpl; [|rewrite IH]; reflexivity. Qed.

Lemma allBytes_append p s t :
  allBytes p (s +:+ t) = allBytes p s && allBytes p t.
Proof.
  induction s as [|c s IH]; [reflexivity|].
  rewrite append_cons. simpl. rewrite IH, andb_assoc. reflexivity.
Qed.

Lemma upper_no_lower s :
  isASCII s = true ->
  allBytes (fun b => negb (between 97 122 b))
    (mapBytes (fun b => if between 97 122 b then b - 32 else b) s) = true.
Proof.
  unfold isASCII. induction s as [|c s IH]; simpl; [reflexivity|].
  intros Hs. apply andb_true_iff in Hs as [H1 H2]. rewrite IH by assumption.
  rewrite andb_true_r. pose proof (code_range c) as B.
  destruct (between 97 122 (code c)) eqn:E.
  - apply between_spec in E. rewrite code_byte by lia.
    rewrite between_false by lia. reflexivity.
  - rewrite byte_code, E. reflexivity.
Qed.

(** X20. The shape of an ID: it is never empty and its last byte is a
    capital letter; when the file name without its extension is ASCII the ID
    has one byte more than that name cut to eight bytes, nine at most, and
    no small letter. *)
Theorem generateID_shape `{CaseTables} (path : string) :
  (exists stem letter,
     generateID path = stem +:+ String letter EmptyString /\
     65 <= code letter <= 90) /\
  (isASCII (fileStem path) = true ->
   String.length (generateID path)
   = (Nat.min 8 (String.length (fileStem path)) + 1)%nat /\
   allBytes (fun b => negb (between 97 122 b)) (generateID path) = true).
Proof.
  rewrite generateID_cut. unfold hashLetter.
  pose proof (Z.mod_pos_bound (pathHash path) 26 ltac:(lia)) as B.
  split.
  - do 2 eexists. split; [reflexivity|]. rewrite code_byte by lia. lia.
  - intros Hs. unfold strings_ToUpper.
    rewrite isASCII_sliceTo by assumption. split.
    + rewrite append_length, mapBytes_length, sliceTo_length. reflexivity.
    + rewrite allBytes_append, upper_no_lower by (apply isASCII_sliceTo, Hs).
      simpl. rewrite code_byte by lia. rewrite between_false by lia.
      reflexivity.
Qed.

Lemma hasByte_append b s t :
  hasByte b (s +:+ t) = hasByte b s || hasByte b t.
Proof.
  induction s as [|c s IH]; [reflexivity|].
  rewrite append_cons. simpl. rewrite IH, orb_assoc. reflexivity.
Qed.

Lemma hasByte_rev_app b s acc :
  hasByte b (String.rev_app s acc) = hasByte b s || hasByte b acc.
Proof.
  revert acc; induction s as [|c s IH]; intros acc; simpl; [reflexivity|].
  rewrite IH. simpl. destruct (code c =? b), (hasByte b s); reflexivity.
Qed.

Lemma hasByte_rev b s : hasByte b (String.rev s) = hasByte b s.
Proof. unfold String.rev. rewrite hasByte_rev_app. simpl. apply orb_false_r. Qed.

Lemma hasByte_sliceTo b n s :
  hasByte b s = false -> hasByte b (sliceTo n s) = false.
Proof.
  revert n; induction s as [|c s IH]; intros [|n]; simpl; try reflexivity.
  intros Hs. apply orb_false_iff in Hs as [-> Hs]. simpl. apply IH, Hs.
Qed.

Lemma hasByte_trimLeftFrom b k s :
  hasByte b s = false -> hasByte b (trimLeftFrom k s) = false.
Proof.
  revert k; induction s as [|c s IH]; intros k Hs; [reflexivity|].
  pose proof Hs as Hs'. simpl in Hs'. apply orb_false_iff in Hs' as [_ Hs'].
  cbn [trimLeftFrom]. destruct k as [|k]; [|apply IH, Hs'].
  destruct (utf8_DecodeRuneInString (String c s)) as [r w].
  destruct (unicode_IsSpace r); [apply IH, Hs'|exact Hs].
Qed.

Lemma hasByte_trimRightFrom b k s :
  hasByte b s = false -> hasByte b (trimRightFrom k s) = false.
Proof.
  revert k; induction s as [|c s IH]; intros k Hs; [reflexivity|].
  pose proof Hs as Hs'. simpl in Hs'. apply orb_false_iff in Hs' as [_ Hs'].
  cbn [trimRightFrom]. destruct k as [|k]; [|apply IH, Hs'].
  destruct (utf8_DecodeLastRuneInString_rev (String c s)) as [r w].
  destruct (unicode_IsSpace r); [apply IH, Hs'|exact Hs].
Qed.

Lemma hasByte_TrimSpace b s :
  hasByte b s = false -> hasByte b (strings_TrimSpace s) = false.
Proof.
  intros Hs. unfold strings_TrimSpace.
  rewrite hasByte_rev. apply hasByte_trimRightFrom.
  rewrite hasByte_rev. apply hasByte_trimLeftFrom, Hs.
Qed.

(** A replacement brings in no byte that the replacing string does not
    have. *)
Lemma hasByte_replaceFrom b k s old new :
  hasByte b s = false -> hasByte b new = false ->
  hasByte b (replaceFrom k s old new) = false.
Proof.
  intros Hs Hn. revert k Hs; induction s as [|c s IH]; intros k Hs;
    [reflexivity|].
  pose proof Hs as Hs'. simpl in Hs'. apply orb_false_iff in Hs' as [Hc Hs'].
  cbn [replaceFrom]. destruct k as [|k]; [|apply IH, Hs'].
  destruct (strings_HasPrefix (String c s) old).
  - rewrite hasByte_append, Hn. simpl. apply IH, Hs'.
  - simpl. rewrite Hc. simpl. apply IH, Hs'.
Qed.

Lemma hasByte_ReplaceAll b s old new :
  hasByte b s = false -> hasByte b new = false ->
  hasByte b (strings_ReplaceAll s old new) = false.
Proof.
  intros Hs Hn. unfold strings_ReplaceAll. destruct old; [exact Hs|].
  apply hasByte_replaceFrom; assumption.
Qed.

(** Replacing a one-byte string removes the byte. *)
Lemma hasByte_replaced c s new :
  hasByte (code c) new = false ->
  hasByte (code c) (strings_ReplaceAll s (String c EmptyString) new) = false.
Proof.
  intros Hn. unfold strings_ReplaceAll.
  induction s as [|a s IH]; [reflexivity|].
  cbn [replaceFrom strings_HasPrefix String.length Nat.sub].
  destruct (Ascii.eqb_spec a c) as [->|N]; cbv iota.
  - replace (strings_HasPrefix s EmptyString) with true by (destruct s; reflexivity).
    rewrite hasByte_append, Hn. exact IH.
  - cbn [hasByte]. rewrite IH, orb_false_r. apply Z.eqb_neq. intros E. apply N.
    rewrite <- (byte_code a), <- (byte_code c), E. reflexivity.
Qed.

(** X21. A title made by [cleanGameTitle] has no underscore and no hyphen:
    both are replaced by spaces, and no later step brings one back. *)
Theorem cleanGameTitle_no_separators (filename : string) :
  hasByte 95 (cleanGameTitle filename) = false /\
  hasByte 45 (cleanGameTitle filename) = false.
Proof.
  unfold cleanGameTitle. cbn [foldl].
  split; apply hasByte_TrimSpace;
    do 3 (apply hasByte_ReplaceAll; [|reflexivity]).
  - apply hasByte_ReplaceAll; [|reflexivity].
    apply (hasByte_replaced "_"%char). reflexivity.
  - apply (hasByte_replaced "-"%char). reflexivity.
Qed.

Lemma detectPlatform_any_order_witness :
  detectPlatformIn (rev platformExtensions) ".sfc" = "SNES".
Proof.
  rewrite (detectPlatform_any_order (rev platformExtensions) ".sfc").
  - reflexivity.
  - symmetry. apply Permutation_rev.
Defined.

(** ** The request handler, message by message *)

(** X23. A request whose type is none of the six that the handler routes is
    answered by the error "Unknown message type" with the ID of the request,
    without touching the state and without waiting for the lock; the types
    launch_game, get_categories, get_platforms, get_recent and add_scan_path,
    which the server declares, are among them. *)
Theorem handleRequest_unrouted `{CaseTables} :
  (forall t, In t unroutedMessages ->
             ~ In t (MsgTypeStatus :: libraryMessages)) /\
  (forall req st,
     ~ In (Request_Type req) (MsgTypeStatus :: libraryMessages) ->
     handleRequest req st = Returns (unknownResponse req) st).
Proof.
  split.
  - intros t Ht Hin. simpl in Ht, Hin.
    repeat (destruct Ht as [<-|Ht];
            [repeat (destruct Hin as [Hin|Hin]; [discriminate|]); destruct Hin|]).
    destruct Ht.
  - intros [t i p] st N. unfold handleRequest. cbn [Request_Type Request_ID].
    repeat (match goal with
            | |- context [String.eqb t ?c] =>
              destruct (String.eqb_spec t c) as [->|?];
              [exfalso; apply N; simpl; unfold MsgTypeStatus, MsgTypeListGames,
                 MsgTypeGetGame, MsgTypeGetFavorites, MsgTypeToggleFavorite,
                 MsgTypeScan; auto 10|]
            end).
    reflexivity.
Qed.

(** X24. Every response of the handler carries the ID of its request, and
    it reports success exactly when its type is not "error"; a successful
    response has no error text. *)
Theorem handleRequest_echoes_id `{CaseTables} (req : Request) (st : State)
    (resp : Response) (st' : State) :
  handleRequest req st = Returns resp st' ->
  Response_ID resp = Request_ID req /\
  (Success resp = true <-> Response_Type resp <> "error") /\
  (Success resp = true -> Error resp = "").
Proof.
  intros E. unfold handleRequest in E. cbv zeta in E.
  repeat match type of E with
         | context [if String.eqb ?a ?b then _ else _] =>
           destruct (String.eqb a b)
         end;
    unfold mbind, M_bind, bind, ret, getLib in E;
    repeat match type of E with
           | context [match ?o with Returns _ _ => _ | Blocks _ => _ end] =>
             destruct o; try discriminate
           end;
    repeat match type of E with
           | context [match ?o with Some _ => _ | None => _ end] =>
             destruct o
           end;
    injection E as <- <-; cbn;
    (split; [reflexivity|]); (split; [split|]); intros X;
    first [ reflexivity | discriminate X | discriminate
          | exfalso; apply X; reflexivity ].
Qed.

Lemma handleRequest_echoes_id_witness :
  exists resp st',
    @handleRequest caseless
      {| Request_Type := "get_favorites"; Request_ID := "r7";
         Request_Payload := None |} pongState = Returns resp st' /\
    Response_ID resp = "r7".
Proof.
  assert (@handleRequest caseless
            {| Request_Type := "get_favorites"; Request_ID := "r7";
               Request_Payload := None |} pongState
          = Returns {| Response_Type := "success"; Response_ID := "r7";
                       Success := true; Data := GamesData []; Error := "" |}
                    pongState) as E by reflexivity.
  do 2 eexists. split; [exact E|].
  exact (proj1 (@handleRequest_echoes_id caseless _ _ _ _ E)).
Defined.

Lemma decodeGameListPayload_members platform category limit zero :
  decodeGameListPayload (listPayload platform category limit) zero
  = ({| Payload_Platform := platform; Payload_Category := category;
        Limit := limit |}, Ok).
Proof. destruct zero. vm_compute. reflexivity. Qed.

(** X25. A [list_games] request: with the payload
    [{platform, category, limit}] the response holds the records that pass
    the two filters, all of them whatever [limit] is; with no payload, or
    one that is no object, it holds all the records of the store. *)
Theorem list_games_ignores_limit `{CaseTables} (st : State) (req : Request) :
  mu (lib st) = unlocked -> Request_Type req = "list_games" ->
  (forall platform category limit,
     Request_Payload req = Some (listPayload platform category limit) ->
     handleRequest req st
     = Returns (successResponse req
                  (GamesData (List.filter (matches platform category)
                                (Games (lib st))))) st) /\
  (Request_Payload req = None \/
   (exists j, Request_Payload req = Some j /\
              forall members, j <> JObject members) ->
   handleRequest req st
   = Returns (successResponse req (GamesData (Games (lib st)))) st).
Proof.
  intros Hmu Ht. destruct req as [t i p]. simpl in Ht. subst t.
  unfold handleRequest; simpl; unfold mbind, M_bind, bind. split.
  - intros platform category limit ->.
    rewrite decodeGameListPayload_members. cbn [fst Payload_Platform Payload_Category].
    rewrite GetGames_returns by assumption. reflexivity.
  - assert (handleRequest_all :
              match GetGames "" "" st with
              | Returns a s' =>
                ret {| Response_Type := MsgTypeSuccess; Response_ID := i;
                       Success := true; Data := GamesData a; Error := "" |} s'
              | Blocks s' => Blocks s'
              end
              = Returns (successResponse
                           {| Request_Type := "list_games"; Request_ID := i;
                              Request_Payload := p |}
                           (GamesData (Games (lib st)))) st).
    { rewrite GetGames_returns by assumption. simpl.
      rewrite filter_all by (intros; reflexivity). reflexivity. }
    intros [->|(j & -> & Hj)]; [exact handleRequest_all|].
    destruct j; try exact handleRequest_all.
    exfalso. exact (Hj _ eq_refl).
Qed.

Lemma list_games_ignores_limit_witness :
  @handleRequest caseless
    {| Request_Type := "list_games"; Request_ID := "r1";
       Request_Payload := Some (listPayload "ATARI" "" 0) |} pongState
  = @handleRequest caseless
      {| Request_Type := "list_games"; Request_ID := "r1";
         Request_Payload := Some (listPayload "ATARI" "" 5) |} pongState.
Proof.
  destruct (@list_games_ignores_limit caseless pongState
              {| Request_Type := "list_games"; Request_ID := "r1";
                 Request_Payload := Some (listPayload "ATARI" "" 0) |}
              eq_refl eq_refl) as [H0 _].
  destruct (@list_games_ignores_limit caseless pongState
              {| Request_Type := "list_games"; Request_ID := "r1";
                 Request_Payload := Some (listPayload "ATARI" "" 5) |}
              eq_refl eq_refl) as [H5 _].
  rewrite (H0 _ _ _ eq_refl), (H5 _ _ _ eq_refl). reflexivity.
Defined.

(** X26. A [toggle_favorite] request with the ID of a record flips the
    favourite flag of the first record with that ID; the response reports
    success when the snapshot was written, and otherwise the error of the
    write, with the flag flipped in memory all the same. *)
Theorem toggle_favorite_request `{CaseTables} (st : State) (req : Request)
    (before : list GameInfo) (g : GameInfo) (after : list GameInfo) :
  mu (lib st) = unlocked -> Request_Type req = "toggle_favorite" ->
  Games (lib st) = before ++ g :: after -> ID g = requestedID req ->
  (forall g', In g' before -> ID g' <> requestedID req) ->
  exists st',
    handleRequest req st
    = Returns match writeFault (os st) (configPath (lib st)) with
              | None => successResponse req NoData
              | Some errno =>
                failureResponse req
                  ("open " +:+ configPath (lib st) +:+ ": " +:+ errnoText errno)
              end st' /\
    Games (lib st') = before ++ toggled g :: after.
Proof.
  intros Hmu Ht HG Eg F. destruct req as [t i p]. simpl in Ht. subst t.
  unfold handleRequest; simpl; unfold mbind, M_bind, bind.
  fold (requestedID {| Request_Type := "toggle_favorite"; Request_ID := i;
                       Request_Payload := p |}).
  rewrite (ToggleFavorite_found st _ before g after) by assumption.
  destruct (writeFault (os st) (configPath (lib st))); eexists;
    (split; [reflexivity|]); reflexivity.
Qed.

Lemma toggle_favorite_request_witness :
  exists st',
    @handleRequest caseless
      {| Request_Type := "toggle_favorite"; Request_ID := "r2";
         Request_Payload := Some (JString "PONGC") |}
      {| lib := lib pongState; os := fullOS |}
    = Returns {| Response_Type := "error"; Response_ID := "r2";
                 Success := false; Data := NoData;
                 Error := "open /cfg/library.json: no space left on device" |}
              st' /\
    map Favorite (Games (lib st')) = [true].
Proof.
  destruct (@toggle_favorite_request caseless
              {| lib := lib pongState; os := fullOS |}
              {| Request_Type := "toggle_favorite"; Request_ID := "r2";
                 Request_Payload := Some (JString "PONGC") |}
              [] pong [] eq_refl eq_refl eq_refl eq_refl) as (st' & R & G).
  { intros ? []. }
  exists st'. split; [exact R|]. rewrite G. reflexivity.
Defined.

Lemma ToggleFavorite_absent st id :
  mu (lib st) = unlocked -> (forall g, In g (Games (lib st)) -> ID g <> id) ->
  ToggleFavorite id st = Returns None st.
Proof.
  intros Hmu Hid. apply indexOfID_None in Hid.
  destruct st as [l o]; destruct l; simpl in *; subst.
  unfold ToggleFavorite; run. rewrite Hid. reflexivity.
Qed.

(** X27. A [get_game] or [toggle_favorite] request without payload, or with
    a payload that is no string, addresses the empty ID: when no record has
    an empty ID, as no scanned record has, [get_game] answers "Game not
    found" and [toggle_favorite] answers success and changes nothing. *)
Theorem requests_without_id `{CaseTables} (st : State) (req : Request) :
  mu (lib st) = unlocked ->
  (forall g, In g (Games (lib st)) -> ID g <> "") ->
  (Request_Payload req = None \/
   exists j, Request_Payload req = Some j /\ forall id, j <> JString id) ->
  (Request_Type req = "get_game" ->
   handleRequest req st = Returns (failureResponse req "Game not found") st) /\
  (Request_Type req = "toggle_favorite" ->
   handleRequest req st = Returns (successResponse req NoData) st).
Proof.
  intros Hmu Hid Hp.
  assert (requestedID req = "") as E.
  { unfold requestedID. destruct Hp as [->|(j & -> & Hj)]; [reflexivity|].
    destruct j; try reflexivity. exfalso. exact (Hj _ eq_refl). }
  destruct req as [t i p]. unfold requestedID in E. cbn [Request_Payload] in E.
  split; intros Ht; simpl in Ht; subst t;
    unfold handleRequest; simpl; unfold mbind, M_bind, bind; rewrite E.
  - rewrite GetGameByID_unknown by assumption. reflexivity.
  - rewrite ToggleFavorite_absent by assumption. reflexivity.
Qed.

Lemma requests_without_id_witness :
  @handleRequest caseless
    {| Request_Type := "get_game"; Request_ID := "r3";
       Request_Payload := Some (JNumber 7) |} pongState
  = Returns {| Response_Type := "error"; Response_ID := "r3";
               Success := false; Data := NoData;
               Error := "Game not found" |} pongState.
Proof.
  destruct (@requests_without_id caseless pongState
              {| Request_Type := "get_game"; Request_ID := "r3";
                 Request_Payload := Some (JNumber 7) |} eq_refl) as [G _].
  - intros g [<-|[]]. discriminate.
  - right. exists (JNumber 7). split; [reflexivity|]. discriminate.
  - apply G. reflexivity.
Defined.

(** ** The worker, line after line *)

Section Lines.
Context `{JSONText} (s : IPCServer).

Lemma handleClient_stopped lines st :
  running s = false -> handleClient s lines st = ([], Returns tt st).
Proof. intros R. destruct lines; simpl; [|rewrite R]; reflexivity. Qed.

Lemma handleClient_cons line rest st :
  running s = true ->
  handleClient s (line :: rest) st
  = match (handleClient s [line] st).2 with
    | Returns _ st1 =>
      ((handleClient s [line] st).1 ++ (handleClient s rest st1).1,
       (handleClient s rest st1).2)
    | Blocks st1 => ((handleClient s [line] st).1, Blocks st1)
    end.
Proof.
  intros R. cbn [handleClient]. rewrite R. cbn [negb].
  destruct (String.eqb (strings_TrimSpace line) "").
  - cbn. destruct (handleClient s rest st). reflexivity.
  - destruct (unmarshalRequest (strings_TrimSpace line)) as [err|req].
    + cbn. destruct (handleClient s rest st). reflexivity.
    + destruct (match handler s with Some h => h | None => defaultHandler end
                  req st) as [resp st1|st1]; cbn; [|reflexivity].
      destruct (handleClient s rest st1). reflexivity.
Qed.
End Lines.

(** X28. The worker handles its lines one after the other: what it writes
    for [lines1 ++ lines2] is what it writes for [lines1] followed by what
    it writes for [lines2] from the state that [lines1] left; when the
    handler waits for ever on a line of [lines1], nothing is written after
    the responses that precede it. *)
Theorem handleClient_app `{JSONText} (s : IPCServer)
    (lines1 lines2 : list string) (st : State) :
  handleClient s (lines1 ++ lines2) st
  = match (handleClient s lines1 st).2 with
    | Returns _ st1 =>
      ((handleClient s lines1 st).1 ++ (handleClient s lines2 st1).1,
       (handleClient s lines2 st1).2)
    | Blocks st1 => ((handleClient s lines1 st).1, Blocks st1)
    end.
Proof.
  destruct (running s) eqn:R.
  - revert st; induction lines1 as [|line lines1 IH]; intros st.
    + simpl. destruct (handleClient s lines2 st). reflexivity.
    + change ((line :: lines1) ++ lines2) with (line :: (lines1 ++ lines2)).
      rewrite (handleClient_cons s line (lines1 ++ lines2)) by assumption.
      rewrite (handleClient_cons s line lines1) by assumption.
      destruct (handleClient s [line] st) as [out [[] st1|st1]]; cbn [fst snd];
        [|reflexivity].
      rewrite IH. destruct (handleClient s lines1 st1) as [out1 [[] st2|st2]];
        cbn [fst snd]; [|reflexivity].
      rewrite app_assoc. reflexivity.
  - rewrite !handleClient_stopped by assumption. cbn [fst snd].
    rewrite handleClient_stopped by assumption. reflexivity.
Qed.



(** ** The scan paths *)

(** X30. [AddScanPath] touches nothing but the sequence of scan paths, to
    which it appends at most the given path: the disk and the other fields
    of the store are as before, the paths that were there keep their places,
    a sequence without duplicates stays without duplicates, the path is in
    the sequence when no error is returned, and the state is unchanged when
    one is. *)
Theorem AddScanPath_invariants (st : State) (path : string) :
  mu (lib st) = unlocked ->
  exists err st',
    AddScanPath path st = Returns err st' /\
    os st' = os st /\
    lib st' = setScanPaths (ScanPaths (lib st')) (lib st) /\
    (ScanPaths (lib st') = ScanPaths (lib st) \/
     ScanPaths (lib st') = ScanPaths (lib st) ++ [path]) /\
    (NoDup (ScanPaths (lib st)) -> NoDup (ScanPaths (lib st'))) /\
    (err = None -> In path (ScanPaths (lib st'))) /\
    (err <> None -> st' = st).
Proof.
  intros Hmu.
  assert (lib st = setScanPaths (ScanPaths (lib st)) (lib st)) as Same
    by (destruct (lib st); reflexivity).
  destruct (os_Stat (os st) path) as [errno|info] eqn:S.
  { rewrite (AddScanPath_stat_error st path errno) by assumption.
    do 2 eexists. split; [reflexivity|]. repeat split; auto. discriminate. }
  destruct (IsDir info) eqn:D.
  2:{ rewrite (AddScanPath_not_dir st path info) by assumption.
      do 2 eexists. split; [reflexivity|]. repeat split; auto. discriminate. }
  destruct (in_dec string_dec path (ScanPaths (lib st))) as [Hin|Hin].
  - rewrite (AddScanPath_present st path info) by assumption.
    do 2 eexists. split; [reflexivity|]. repeat split; auto.
  - rewrite (AddScanPath_absent st path info) by assumption.
    do 2 eexists. split; [reflexivity|]. unfold withScanPath. cbn [lib os].
    split; [reflexivity|]. split; [destruct (lib st); reflexivity|].
    split; [right; reflexivity|]. split; [|split].
    + intros ND. cbn [ScanPaths setScanPaths]. apply NoDup_app.
      split; [exact ND|]. split; [|apply NoDup_singleton].
      intros x Hx Hp. apply list_elem_of_singleton in Hp. subst x.
      apply Hin, list_elem_of_In, Hx.
    + intros _. cbn [ScanPaths setScanPaths]. apply in_or_app. right. left.
      reflexivity.
    + intros N. contradiction.
Qed.

Lemma AddScanPath_invariants_witness :
  exists err st',
    AddScanPath "/roms" romsState = Returns err st' /\
    NoDup (ScanPaths (lib st')) /\ In "/roms" (ScanPaths (lib st')).
Proof.
  destruct (AddScanPath_invariants romsState "/roms" eq_refl)
    as (err & st' & A & _ & _ & _ & ND & I & _).
  exists err, st'. split; [exact A|]. split.
  - apply ND. apply NoDup_singleton.
  - apply I.
    assert (Returns err st' = Returns None romsState) as X
      by (rewrite <- A; reflexivity).
    injection X as -> _. reflexivity.
Defined.
